(** * wag: a shallow embedding of the code generator

    This development embeds the per-function coder and the program coder of
    the wag WebAssembly compiler (code.go, with the x86 backend fragments and
    the newer program generator program.go) and proves properties of the
    call-site map, the function map, the function table, branch tables and
    the constant folder.

    Go's [int] is 64 bits wide.  Stack offsets, text addresses and counts are
    modelled as unbounded [Z]; every conversion to a fixed-width unsigned
    type ([uint32], [uint64]) and every shift on such a type has its
    wrap-around written out. *)

From Stdlib Require Import ZArith Ascii String List Bool Lia.
From coqutil Require Import Byte Word.LittleEndianList.
Import ListNotations.
Local Open Scope string_scope.
Local Open Scope list_scope.
Local Open Scope Z_scope.

(** ** Results of fallible code: a Go panic carries a message. *)

Inductive Res (A : Type) : Type :=
| OK (a : A)
| Panic (msg : string).
Arguments OK {A} a.
Arguments Panic {A} msg.

(** ** Fixed-width conversions *)

Definition uint32 (x : Z) : Z := x mod 2 ^ 32.
Definition uint64 (x : Z) : Z := x mod 2 ^ 64.

(** [int32(x)] and [int64(x)]: reinterpretation of the low bits as a signed
    two's complement number. *)
Definition int32 (x : Z) : Z :=
  let u := uint32 x in if u <? 2 ^ 31 then u else u - 2 ^ 32.
Definition int64 (x : Z) : Z :=
  let u := uint64 x in if u <? 2 ^ 63 then u else u - 2 ^ 64.

(** [x << n] on a [uint64]. *)
Definition shl64 (x n : Z) : Z := uint64 (Z.shiftl x n).

(** ** encoding/binary, little endian, over byte slices *)

Module binary.

(** Overwrite [length bs] bytes of [buf] starting at offset [off].  Slicing
    [buf[off:]] and taking the first bytes panics in Go when the buffer is
    too short. *)
Definition put (buf : list byte) (off : nat) (bs : list byte) : Res (list byte) :=
  if (off + length bs <=? length buf)%nat
  then OK (firstn off buf ++ bs ++ skipn (off + length bs) buf)
  else Panic "slice bounds out of range".

(** [binary.LittleEndian.PutUint32(buf[off:][:4], v)] *)
Definition PutUint32 (buf : list byte) (off : nat) (v : Z) : Res (list byte) :=
  put buf off (le_split 4 v).

(** [binary.LittleEndian.PutUint64(buf[off:][:8], v)] *)
Definition PutUint64 (buf : list byte) (off : nat) (v : Z) : Res (list byte) :=
  put buf off (le_split 8 v).

(** [binary.Write(&buf, binary.LittleEndian, uint32(v))]: append. *)
Definition WriteUint32 (buf : list byte) (v : Z) : list byte := buf ++ le_split 4 v.

(** [binary.Write(&buf, binary.LittleEndian, uint64(v))]: append. *)
Definition WriteUint64 (buf : list byte) (v : Z) : list byte := buf ++ le_split 8 v.

(** [binary.LittleEndian.Uint32(buf[off:])] and [Uint64], the readers a
    consumer of the maps and tables uses. *)
Definition Uint32 (buf : list byte) (off : nat) : Z :=
  le_combine (firstn 4 (skipn off buf)).
Definition Uint64 (buf : list byte) (off : nat) : Z :=
  le_combine (firstn 8 (skipn off buf)).

End binary.

(** ** Package types *)

Module types.

(** Modelled from the spec: the types package is not among the sources.  A
    value's static type is one of I32, I64, F32, F64 and Void; each has a
    size (4 or 8 bytes) and a category (Int or Float) which selects a
    register pool.  [Void] is the zero value of the Go type. *)
Inductive T : Type := Void | I32 | I64 | F32 | F64.

Inductive Category : Type := Int | Float | NoCategory.

Definition Size32 : Z := 4.
Definition Size64 : Z := 8.

Definition Size (t : T) : Z :=
  match t with
  | I32 | F32 => Size32
  | I64 | F64 => Size64
  | Void => 0
  end.

Definition category (t : T) : Category :=
  match t with
  | I32 | I64 => Int
  | F32 | F64 => Float
  | Void => NoCategory
  end.

Definition eqb (a b : T) : bool :=
  match a, b with
  | Void, Void | I32, I32 | I64, I64 | F32, F32 | F64, F64 => true
  | _, _ => false
  end.

Definition Category_eqb (a b : Category) : bool :=
  match a, b with
  | Int, Int | Float, Float | NoCategory, NoCategory => true
  | _, _ => false
  end.

(** [types.ByString]: the type named by a prefix such as ["i32"]. *)
Definition ByString (s : string) : option T :=
  if String.eqb s "i32" then Some I32
  else if String.eqb s "i64" then Some I64
  else if String.eqb s "f32" then Some F32
  else if String.eqb s "f64" then Some F64
  else None.

End types.

(** ** Package regs *)

Module regs.

(** A register number. *)
Definition R : Type := nat.

End regs.

(** ** Package values: operands *)

Module values.

Inductive Storage : Type :=
| Nowhere | Imm | Var | VarReg | VarMem | TempReg | Stack | ConditionFlags | ROData.

(** Modelled from the spec: the Operand type of this revision is not among
    the sources (an older revision is).  An operand is a storage tag with a
    payload: no value; a literal bit pattern; a reference to variable N; the
    register caching variable N with its zero-extension flag; the stack
    offset of variable N; a temporary register with its zero-extension flag;
    a value pushed on the machine stack; a condition held in the CPU flags;
    an offset into read-only data. *)
Inductive Operand : Type :=
| NoOperand
| ImmBits (x : Z)
| VarOperand (index : nat)
| VarRegOperand (index : nat) (reg : regs.R) (zeroExt : bool)
| VarMemOperand (index : nat) (offset : Z)
| TempRegOperand (reg : regs.R) (zeroExt : bool)
| StackOperand
| ConditionFlagsOperand (cond : nat)
| RODataOperand (addr : Z).

Definition storage (o : Operand) : Storage :=
  match o with
  | NoOperand => Nowhere
  | ImmBits _ => Imm
  | VarOperand _ => Var
  | VarRegOperand _ _ _ => VarReg
  | VarMemOperand _ _ => VarMem
  | TempRegOperand _ _ => TempReg
  | StackOperand => Stack
  | ConditionFlagsOperand _ => ConditionFlags
  | RODataOperand _ => ROData
  end.

(** [ImmOperand(t, value)]: the value truncated to the size of [t]; panics
    for a type without a size. *)
Definition ImmOperand (t : types.T) (value : Z) : Res Operand :=
  if types.Size t =? types.Size32 then OK (ImmBits (uint64 (uint32 (int32 value))))
  else if types.Size t =? types.Size64 then OK (ImmBits (uint64 (int64 value)))
  else Panic "ImmOperand: type".

(** [o.CheckImmValue(t)]: the signed value of an immediate; [OK None] when
    the operand is not an immediate; panics for a type without a size. *)
Definition CheckImmValue (o : Operand) (t : types.T) : Res (option Z) :=
  match o with
  | ImmBits x =>
      if types.Size t =? types.Size32 then OK (Some (int64 (int32 (uint32 x))))
      else if types.Size t =? types.Size64 then OK (Some (int64 x))
      else Panic "CheckImmValue: type"
  | _ => OK None
  end.

(** [o.CheckVar()] *)
Definition CheckVar (o : Operand) : option nat :=
  match o with
  | VarOperand i => Some i
  | _ => None
  end.

(** [o.CheckVarReg()] *)
Definition CheckVarReg (o : Operand) : option (regs.R * bool) :=
  match o with
  | VarRegOperand _ r z => Some (r, z)
  | _ => None
  end.

(** [o.CheckTempReg()] *)
Definition CheckTempReg (o : Operand) : option (regs.R * bool) :=
  match o with
  | TempRegOperand r z => Some (r, z)
  | _ => None
  end.

(** [o.Reg()]: panics unless the operand is in a register. *)
Definition Reg (o : Operand) : Res regs.R :=
  match o with
  | VarRegOperand _ r _ | TempRegOperand r _ => OK r
  | _ => Panic "Reg: operand is not in a register"
  end.

(** [o.Index()]: panics unless the operand names a variable. *)
Definition Index (o : Operand) : Res nat :=
  match o with
  | VarOperand i | VarRegOperand i _ _ | VarMemOperand i _ => OK i
  | _ => Panic "Index: operand is not a variable"
  end.

(** [o.VarOperand()]: the abstract reference to the variable an operand
    caches. *)
Definition toVarOperand (o : Operand) : Res Operand :=
  match Index o with
  | OK i => OK (VarOperand i)
  | Panic m => Panic m
  end.

End values.

(** ** Package links: labels *)

Module links.

(** Modelled from the spec: the links package is not among the sources.  A
    label holds its address once known (zero while unknown, as code.go tests
    it) and the list of sites to patch; a label is live when some branch
    targets it. *)
Record L : Type := { Address : Z; Sites : list Z; live : bool }.

Definition new : L := {| Address := 0; Sites := []; live := false |}.

Definition withAddress (a : Z) (l : L) : L :=
  {| Address := a; Sites := Sites l; live := live l |}.

Definition AddSite (addr : Z) (l : L) : L :=
  {| Address := Address l; Sites := Sites l ++ [addr]; live := live l |}.

Definition SetLive (l : L) : L :=
  {| Address := Address l; Sites := Sites l; live := true |}.

Definition Live (l : L) : bool :=
  live l || negb (Nat.eqb (List.length (Sites l)) 0).

Definition Reset (l : L) : L := new.

(** [l.FinalAddress()]: the address of a label which has been placed. *)
Definition FinalAddress (l : L) : Res Z :=
  if Address l =? 0 then Panic "link address is undefined" else OK (Address l).

End links.

(** ** The register allocator *)

Module regAllocator.

(** Modelled from the spec: the register allocator is not among the sources.
    A pool is a fixed bitmap of available registers and the bitmap of those
    currently free.  [alloc] returns an unallocated register or none (here:
    the lowest-numbered one); [allocSpecific] marks a register busy and
    panics if it is already busy; [free] marks it free and panics if it is
    not busy; [postCheck] panics unless the pool is fully free. *)
Record t : Type := { avail : Z; freed : Z }.

Definition init (availRegs : Z) : t := {| avail := availRegs; freed := availRegs |}.

Definition bit (r : regs.R) : Z := Z.of_nat r.

Fixpoint lowest (bits : Z) (r : regs.R) (fuel : nat) : option regs.R :=
  match fuel with
  | O => None
  | S fuel' => if Z.testbit bits (bit r) then Some r else lowest bits (S r) fuel'
  end.

Definition alloc (ra : t) : option (regs.R * t) :=
  match lowest (freed ra) O 64 with
  | Some r => Some (r, {| avail := avail ra; freed := Z.clearbit (freed ra) (bit r) |})
  | None => None
  end.

Definition allocSpecific (r : regs.R) (ra : t) : Res t :=
  if Z.testbit (freed ra) (bit r)
  then OK {| avail := avail ra; freed := Z.clearbit (freed ra) (bit r) |}
  else Panic "register already allocated".

Definition allocated (r : regs.R) (ra : t) : bool :=
  Z.testbit (avail ra) (bit r) && negb (Z.testbit (freed ra) (bit r)).

Definition free (r : regs.R) (ra : t) : Res t :=
  if allocated r ra
  then OK {| avail := avail ra; freed := Z.setbit (freed ra) (bit r) |}
  else Panic "register is not allocated".

Definition fullyFree (ra : t) : Prop := freed ra = avail ra.

Definition postCheck (ra : t) : Res unit :=
  if freed ra =? avail ra then OK tt else Panic "registers not freed".

End regAllocator.

(** ** The read-only data arena *)

Module dataArena.

(** Modelled from the spec: the arena type is not among the sources.
    [alloc(size, alignment)] reserves [size] zeroed bytes at the next
    multiple of [alignment] and returns their offset. *)
Record t : Type := { buf : list byte }.

Definition zeros (n : Z) : list byte := repeat Byte.x00 (Z.to_nat n).

Definition alloc (size alignment : Z) (a : t) : Z * t :=
  let len := Z.of_nat (List.length (buf a)) in
  let pad := (alignment - len mod alignment) mod alignment in
  (len + pad, {| buf := buf a ++ zeros pad ++ zeros size |}).

End dataArena.

(** ** The module handed over by the parser *)

(** Expression trees arrive as nested sequences of strings. *)
#[warnings="-register-all"]
Inductive sexp : Type :=
| Str (s : string)
| Lst (l : list sexp).

(** Modelled from the spec: the module declarations are not among the
    sources.  A module has signatures, imports, functions, table entries and
    a start function; a function carries its names, parameter types, local
    types, signature and body. *)
Record Signature : Type := { Index : Z; Args : list types.T; Result : types.T }.

Record Var : Type := { Param : bool; VarIndex : nat; Type_ : types.T }.

Record Function : Type := {
  Names : list string;
  FuncSignature : Signature;
  Params : list types.T;
  Locals : list types.T;
  body : list sexp;
  Vars : list (string * Var);
  TableIndexes : list nat
}.

Record Import : Type := {
  Namespace : string;
  Name : string;
  ImportSignature : Signature
}.

(** A pointer to the Callable of an import or of a function. *)
Inductive CallableRef : Type :=
| ImportRef (i : nat)
| FuncRef (i : nat).

Definition CallableRef_eqb (a b : CallableRef) : bool :=
  match a, b with
  | ImportRef i, ImportRef j | FuncRef i, FuncRef j => Nat.eqb i j
  | _, _ => false
  end.

Record Module_ : Type := {
  Signatures : list Signature;
  Imports : list Import;
  Functions : list Function;
  Table : list CallableRef;
  Start : string;
  NamedCallables : list (string * CallableRef);
  MemoryMinSize : Z
}.

Definition emptyFunction : Function :=
  {| Names := []; FuncSignature := {| Index := 0; Args := []; Result := types.Void |};
     Params := []; Locals := []; body := []; Vars := []; TableIndexes := [] |}.

(** ** Package gen *)

Module gen.
Definition WordSize : Z := 8.
End gen.

(** ** The coder's data *)

Record liveOperand : Type := { typ : types.T; ref : nat }.

Record varState : Type := { refCount : Z; cache : values.Operand; dirty : bool }.

Module branchTarget.
Record t : Type := {
  label : nat;
  name : string;
  expectType : types.T;
  stackOffset : Z;
  functionEnd : bool
}.
End branchTarget.

Module branchTable.
Record t : Type := {
  roDataAddr : Z;
  targets : list branchTarget.t;
  codeStackOffset : Z (* -1 indicates common offset *)
}.
End branchTable.

(** The coder.  Pointers are indices: [labels] holds every [links.L] the
    coder has allocated and [operands] every operand variable whose address
    was taken for the live operand list.  [textLen] is [code.text.Len()]; the
    bytes of the text are represented by the trace of backend operations. *)
Record coder : Type := {
  module_ : Module_;
  textLen : Z;
  roDataAddr : Z;
  roData : dataArena.t;
  callMap : list byte;
  functionLinks : list (CallableRef * nat);
  trapEntries : list nat;
  regsInt : regAllocator.t;
  regsFloat : regAllocator.t;
  liveOperands : list liveOperand;
  immutableLiveOperands : nat;
  targetStack : list branchTarget.t;
  branchTables : list branchTable.t;
  function : Function;
  trapTrampolines : list nat;
  vars : list varState;
  pushedLocals : nat;
  stackOffset : Z;
  maxStackOffset : Z;
  labels : list links.L;
  operands : list values.Operand
}.

(** Field updates. *)

Definition set_textLen (v : Z) (c : coder) : coder :=
  {| module_ := module_ c;
     textLen := v;
     roDataAddr := roDataAddr c;
     roData := roData c;
     callMap := callMap c;
     functionLinks := functionLinks c;
     trapEntries := trapEntries c;
     regsInt := regsInt c;
     regsFloat := regsFloat c;
     liveOperands := liveOperands c;
     immutableLiveOperands := immutableLiveOperands c;
     targetStack := targetStack c;
     branchTables := branchTables c;
     function := function c;
     trapTrampolines := trapTrampolines c;
     vars := vars c;
     pushedLocals := pushedLocals c;
     stackOffset := stackOffset c;
     maxStackOffset := maxStackOffset c;
     labels := labels c;
     operands := operands c |}.

Definition set_roData (v : dataArena.t) (c : coder) : coder :=
  {| module_ := module_ c;
     textLen := textLen c;
     roDataAddr := roDataAddr c;
     roData := v;
     callMap := callMap c;
     functionLinks := functionLinks c;
     trapEntries := trapEntries c;
     regsInt := regsInt c;
     regsFloat := regsFloat c;
     liveOperands := liveOperands c;
     immutableLiveOperands := immutableLiveOperands c;
     targetStack := targetStack c;
     branchTables := branchTables c;
     function := function c;
     trapTrampolines := trapTrampolines c;
     vars := vars c;
     pushedLocals := pushedLocals c;
     stackOffset := stackOffset c;
     maxStackOffset := maxStackOffset c;
     labels := labels c;
     operands := operands c |}.

Definition set_callMap (v : list byte) (c : coder) : coder :=
  {| module_ := module_ c;
     textLen := textLen c;
     roDataAddr := roDataAddr c;
     roData := roData c;
     callMap := v;
     functionLinks := functionLinks c;
     trapEntries := trapEntries c;
     regsInt := regsInt c;
     regsFloat := regsFloat c;
     liveOperands := liveOperands c;
     immutableLiveOperands := immutableLiveOperands c;
     targetStack := targetStack c;
     branchTables := branchTables c;
     function := function c;
     trapTrampolines := trapTrampolines c;
     vars := vars c;
     pushedLocals := pushedLocals c;
     stackOffset := stackOffset c;
     maxStackOffset := maxStackOffset c;
     labels := labels c;
     operands := operands c |}.

Definition set_functionLinks (v : list (CallableRef * nat)) (c : coder) : coder :=
  {| module_ := module_ c;
     textLen := textLen c;
     roDataAddr := roDataAddr c;
     roData := roData c;
     callMap := callMap c;
     functionLinks := v;
     trapEntries := trapEntries c;
     regsInt := regsInt c;
     regsFloat := regsFloat c;
     liveOperands := liveOperands c;
     immutableLiveOperands := immutableLiveOperands c;
     targetStack := targetStack c;
     branchTables := branchTables c;
     function := function c;
     trapTrampolines := trapTrampolines c;
     vars := vars c;
     pushedLocals := pushedLocals c;
     stackOffset := stackOffset c;
     maxStackOffset := maxStackOffset c;
     labels := labels c;
     operands := operands c |}.

Definition set_trapEntries (v : list nat) (c : coder) : coder :=
  {| module_ := module_ c;
     textLen := textLen c;
     roDataAddr := roDataAddr c;
     roData := roData c;
     callMap := callMap c;
     functionLinks := functionLinks c;
     trapEntries := v;
     regsInt := regsInt c;
     regsFloat := regsFloat c;
     liveOperands := liveOperands c;
     immutableLiveOperands := immutableLiveOperands c;
     targetStack := targetStack c;
     branchTables := branchTables c;
     function := function c;
     trapTrampolines := trapTrampolines c;
     vars := vars c;
     pushedLocals := pushedLocals c;
     stackOffset := stackOffset c;
     maxStackOffset := maxStackOffset c;
     labels := labels c;
     operands := operands c |}.

Definition set_regsInt (v : regAllocator.t) (c : coder) : coder :=
  {| module_ := module_ c;
     textLen := textLen c;
     roDataAddr := roDataAddr c;
     roData := roData c;
     callMap := callMap c;
     functionLinks := functionLinks c;
     trapEntries := trapEntries c;
     regsInt := v;
     regsFloat := regsFloat c;
     liveOperands := liveOperands c;
     immutableLiveOperands := immutableLiveOperands c;
     targetStack := targetStack c;
     branchTables := branchTables c;
     function := function c;
     trapTrampolines := trapTrampolines c;
     vars := vars c;
     pushedLocals := pushedLocals c;
     stackOffset := stackOffset c;
     maxStackOffset := maxStackOffset c;
     labels := labels c;
     operands := operands c |}.

Definition set_regsFloat (v : regAllocator.t) (c : coder) : coder :=
  {| module_ := module_ c;
     textLen := textLen c;
     roDataAddr := roDataAddr c;
     roData := roData c;
     callMap := callMap c;
     functionLinks := functionLinks c;
     trapEntries := trapEntries c;
     regsInt := regsInt c;
     regsFloat := v;
     liveOperands := liveOperands c;
     immutableLiveOperands := immutableLiveOperands c;
     targetStack := targetStack c;
     branchTables := branchTables c;
     function := function c;
     trapTrampolines := trapTrampolines c;
     vars := vars c;
     pushedLocals := pushedLocals c;
     stackOffset := stackOffset c;
     maxStackOffset := maxStackOffset c;
     labels := labels c;
     operands := operands c |}.

Definition set_liveOperands (v : list liveOperand) (c : coder) : coder :=
  {| module_ := module_ c;
     textLen := textLen c;
     roDataAddr := roDataAddr c;
     roData := roData c;
     callMap := callMap c;
     functionLinks := functionLinks c;
     trapEntries := trapEntries c;
     regsInt := regsInt c;
     regsFloat := regsFloat c;
     liveOperands := v;
     immutableLiveOperands := immutableLiveOperands c;
     targetStack := targetStack c;
     branchTables := branchTables c;
     function := function c;
     trapTrampolines := trapTrampolines c;
     vars := vars c;
     pushedLocals := pushedLocals c;
     stackOffset := stackOffset c;
     maxStackOffset := maxStackOffset c;
     labels := labels c;
     operands := operands c |}.

Definition set_immutableLiveOperands (v : nat) (c : coder) : coder :=
  {| module_ := module_ c;
     textLen := textLen c;
     roDataAddr := roDataAddr c;
     roData := roData c;
     callMap := callMap c;
     functionLinks := functionLinks c;
     trapEntries := trapEntries c;
     regsInt := regsInt c;
     regsFloat := regsFloat c;
     liveOperands := liveOperands c;
     immutableLiveOperands := v;
     targetStack := targetStack c;
     branchTables := branchTables c;
     function := function c;
     trapTrampolines := trapTrampolines c;
     vars := vars c;
     pushedLocals := pushedLocals c;
     stackOffset := stackOffset c;
     maxStackOffset := maxStackOffset c;
     labels := labels c;
     operands := operands c |}.

Definition set_targetStack (v : list branchTarget.t) (c : coder) : coder :=
  {| module_ := module_ c;
     textLen := textLen c;
     roDataAddr := roDataAddr c;
     roData := roData c;
     callMap := callMap c;
     functionLinks := functionLinks c;
     trapEntries := trapEntries c;
     regsInt := regsInt c;
     regsFloat := regsFloat c;
     liveOperands := liveOperands c;
     immutableLiveOperands := immutableLiveOperands c;
     targetStack := v;
     branchTables := branchTables c;
     function := function c;
     trapTrampolines := trapTrampolines c;
     vars := vars c;
     pushedLocals := pushedLocals c;
     stackOffset := stackOffset c;
     maxStackOffset := maxStackOffset c;
     labels := labels c;
     operands := operands c |}.

Definition set_branchTables (v : list branchTable.t) (c : coder) : coder :=
  {| module_ := module_ c;
     textLen := textLen c;
     roDataAddr := roDataAddr c;
     roData := roData c;
     callMap := callMap c;
     functionLinks := functionLinks c;
     trapEntries := trapEntries c;
     regsInt := regsInt c;
     regsFloat := regsFloat c;
     liveOperands := liveOperands c;
     immutableLiveOperands := immutableLiveOperands c;
     targetStack := targetStack c;
     branchTables := v;
     function := function c;
     trapTrampolines := trapTrampolines c;
     vars := vars c;
     pushedLocals := pushedLocals c;
     stackOffset := stackOffset c;
     maxStackOffset := maxStackOffset c;
     labels := labels c;
     operands := operands c |}.

Definition set_function (v : Function) (c : coder) : coder :=
  {| module_ := module_ c;
     textLen := textLen c;
     roDataAddr := roDataAddr c;
     roData := roData c;
     callMap := callMap c;
     functionLinks := functionLinks c;
     trapEntries := trapEntries c;
     regsInt := regsInt c;
     regsFloat := regsFloat c;
     liveOperands := liveOperands c;
     immutableLiveOperands := immutableLiveOperands c;
     targetStack := targetStack c;
     branchTables := branchTables c;
     function := v;
     trapTrampolines := trapTrampolines c;
     vars := vars c;
     pushedLocals := pushedLocals c;
     stackOffset := stackOffset c;
     maxStackOffset := maxStackOffset c;
     labels := labels c;
     operands := operands c |}.

Definition set_trapTrampolines (v : list nat) (c : coder) : coder :=
  {| module_ := module_ c;
     textLen := textLen c;
     roDataAddr := roDataAddr c;
     roData := roData c;
     callMap := callMap c;
     functionLinks := functionLinks c;
     trapEntries := trapEntries c;
     regsInt := regsInt c;
     regsFloat := regsFloat c;
     liveOperands := liveOperands c;
     immutableLiveOperands := immutableLiveOperands c;
     targetStack := targetStack c;
     branchTables := branchTables c;
     function := function c;
     trapTrampolines := v;
     vars := vars c;
     pushedLocals := pushedLocals c;
     stackOffset := stackOffset c;
     maxStackOffset := maxStackOffset c;
     labels := labels c;
     operands := operands c |}.

Definition set_vars (v : list varState) (c : coder) : coder :=
  {| module_ := module_ c;
     textLen := textLen c;
     roDataAddr := roDataAddr c;
     roData := roData c;
     callMap := callMap c;
     functionLinks := functionLinks c;
     trapEntries := trapEntries c;
     regsInt := regsInt c;
     regsFloat := regsFloat c;
     liveOperands := liveOperands c;
     immutableLiveOperands := immutableLiveOperands c;
     targetStack := targetStack c;
     branchTables := branchTables c;
     function := function c;
     trapTrampolines := trapTrampolines c;
     vars := v;
     pushedLocals := pushedLocals c;
     stackOffset := stackOffset c;
     maxStackOffset := maxStackOffset c;
     labels := labels c;
     operands := operands c |}.

Definition set_pushedLocals (v : nat) (c : coder) : coder :=
  {| module_ := module_ c;
     textLen := textLen c;
     roDataAddr := roDataAddr c;
     roData := roData c;
     callMap := callMap c;
     functionLinks := functionLinks c;
     trapEntries := trapEntries c;
     regsInt := regsInt c;
     regsFloat := regsFloat c;
     liveOperands := liveOperands c;
     immutableLiveOperands := immutableLiveOperands c;
     targetStack := targetStack c;
     branchTables := branchTables c;
     function := function c;
     trapTrampolines := trapTrampolines c;
     vars := vars c;
     pushedLocals := v;
     stackOffset := stackOffset c;
     maxStackOffset := maxStackOffset c;
     labels := labels c;
     operands := operands c |}.

Definition set_stackOffset (v : Z) (c : coder) : coder :=
  {| module_ := module_ c;
     textLen := textLen c;
     roDataAddr := roDataAddr c;
     roData := roData c;
     callMap := callMap c;
     functionLinks := functionLinks c;
     trapEntries := trapEntries c;
     regsInt := regsInt c;
     regsFloat := regsFloat c;
     liveOperands := liveOperands c;
     immutableLiveOperands := immutableLiveOperands c;
     targetStack := targetStack c;
     branchTables := branchTables c;
     function := function c;
     trapTrampolines := trapTrampolines c;
     vars := vars c;
     pushedLocals := pushedLocals c;
     stackOffset := v;
     maxStackOffset := maxStackOffset c;
     labels := labels c;
     operands := operands c |}.

Definition set_maxStackOffset (v : Z) (c : coder) : coder :=
  {| module_ := module_ c;
     textLen := textLen c;
     roDataAddr := roDataAddr c;
     roData := roData c;
     callMap := callMap c;
     functionLinks := functionLinks c;
     trapEntries := trapEntries c;
     regsInt := regsInt c;
     regsFloat := regsFloat c;
     liveOperands := liveOperands c;
     immutableLiveOperands := immutableLiveOperands c;
     targetStack := targetStack c;
     branchTables := branchTables c;
     function := function c;
     trapTrampolines := trapTrampolines c;
     vars := vars c;
     pushedLocals := pushedLocals c;
     stackOffset := stackOffset c;
     maxStackOffset := v;
     labels := labels c;
     operands := operands c |}.

Definition set_labels (v : list links.L) (c : coder) : coder :=
  {| module_ := module_ c;
     textLen := textLen c;
     roDataAddr := roDataAddr c;
     roData := roData c;
     callMap := callMap c;
     functionLinks := functionLinks c;
     trapEntries := trapEntries c;
     regsInt := regsInt c;
     regsFloat := regsFloat c;
     liveOperands := liveOperands c;
     immutableLiveOperands := immutableLiveOperands c;
     targetStack := targetStack c;
     branchTables := branchTables c;
     function := function c;
     trapTrampolines := trapTrampolines c;
     vars := vars c;
     pushedLocals := pushedLocals c;
     stackOffset := stackOffset c;
     maxStackOffset := maxStackOffset c;
     labels := v;
     operands := operands c |}.

Definition set_operands (v : list values.Operand) (c : coder) : coder :=
  {| module_ := module_ c;
     textLen := textLen c;
     roDataAddr := roDataAddr c;
     roData := roData c;
     callMap := callMap c;
     functionLinks := functionLinks c;
     trapEntries := trapEntries c;
     regsInt := regsInt c;
     regsFloat := regsFloat c;
     liveOperands := liveOperands c;
     immutableLiveOperands := immutableLiveOperands c;
     targetStack := targetStack c;
     branchTables := branchTables c;
     function := function c;
     trapTrampolines := trapTrampolines c;
     vars := vars c;
     pushedLocals := pushedLocals c;
     stackOffset := stackOffset c;
     maxStackOffset := maxStackOffset c;
     labels := labels c;
     operands := v |}.

(** ** The macro-assembler interface *)

Module mop.

(** The operations of the backend ([mach] in code.go) with their arguments.
    The text a coder produces is observed as the sequence of operations it
    requests.  [Pad] stands for the padding bytes which [coder.Align] writes
    itself, [CloseStartTrigger] for closing the start-trigger channel. *)
Inductive t : Type :=
| OpAbort
| OpAddImmToStackPtr (offset : Z)
| OpAddToStackPtr (source : regs.R)
| OpBranch (addr : Z)
| OpBranchIf (x : values.Operand) (yes : bool) (addr : Z)
| OpBranchIfEqualImm32 (reg : regs.R) (value : Z) (addr : Z)
| OpBranchIfOutOfBounds (indexReg : regs.R) (upperBound : Z) (addr : Z)
| OpBranchIndirect32 (reg : regs.R) (regZeroExt : bool)
| OpCall (l : nat)
| OpCallIndirect32 (reg : regs.R)
| OpCurrentMemory
| OpEnterImportFunction (absAddr : Z) (sigIndex : Z) (varArgsCount : Z)
| OpEnterTrapHandler (id : nat)
| OpFunctionPrologue
| OpGrowMemory (x : values.Operand)
| OpInit (start : option nat)
| OpLoadROIntIndex32ScaleDisp (ty : types.T) (reg : regs.R) (regZeroExt : bool) (scale : Z) (addr : Z)
| OpLoadResult32ZeroExtFromStack (offset : Z)
| OpMove (ty : types.T) (target : regs.R) (x : values.Operand) (preserveFlags : bool)
| OpMoveReg (ty : types.T) (target source : regs.R)
| OpPush (ty : types.T) (x : values.Operand)
| OpPushIntReg (reg : regs.R)
| OpReturn
| OpSelect (ty : types.T) (a b cond : values.Operand)
| OpShiftRightLogical32Bits (reg : regs.R)
| OpStoreStack (ty : types.T) (offset : Z) (x : values.Operand)
| BinaryOp (opName : string) (ty : types.T) (a b : values.Operand)
| UnaryOp (opName : string) (ty : types.T) (x : values.Operand)
| LoadOp (opName : string) (ty : types.T) (x : values.Operand) (offset : Z)
| StoreOp (opName : string) (ty : types.T) (a b : values.Operand) (offset : Z)
| ConversionOp (exprName : string) (resultType paramType : types.T) (x : values.Operand)
| UpdateBranches (l : nat)
| UpdateCalls (l : nat)
| UpdateStackDisp (addr : Z) (disp : Z)
| DeleteCode (addr1 addr2 : Z)
| DisableCode (addr1 addr2 : Z)
| ClearInsnCache
| Pad (n : Z) (padding : Z)
| CloseStartTrigger.

End mop.

(** What a backend operation hands back: a flag (zero-extension or dead
    end), one or two addresses, an operand, a list of branch sites; each
    operation uses the components its Go signature has. *)
Record mret : Type := {
  r_bool : bool;
  r_int : Z;
  r_int2 : Z;
  r_operand : values.Operand;
  r_sites : list Z
}.

Definition mret0 : mret :=
  {| r_bool := false; r_int := 0; r_int2 := 0; r_operand := values.NoOperand; r_sites := [] |}.

(** A backend: its constants, and the effect of each operation on the coder
    it is handed (the text it appends, the registers it allocates, the
    operands it consumes, the call sites it records). *)
Record Mach : Type := {
  ResultReg : regs.R;
  FunctionAlignment : Z;
  PaddingByte : Z;
  AvailableIntRegs : Z;
  AvailableFloatRegs : Z;
  machOp : mop.t -> coder -> Res (mret * coder)
}.

(** ** The coder monad: state, trace of backend operations, panics *)

Definition M (A : Type) : Type := coder -> list mop.t -> Res (A * coder * list mop.t).

Definition ret {A : Type} (a : A) : M A := fun c tr => OK (a, c, tr).

Definition bind {A B : Type} (m : M A) (k : A -> M B) : M B :=
  fun c tr =>
    match m c tr with
    | OK (a, c', tr') => k a c' tr'
    | Panic msg => Panic msg
    end.

Definition panic {A : Type} (msg : string) : M A := fun _ _ => Panic msg.

Definition get : M coder := fun c tr => OK (c, c, tr).

Definition gets {A : Type} (f : coder -> A) : M A := fun c tr => OK (f c, c, tr).

Definition modify (f : coder -> coder) : M unit := fun c tr => OK (tt, f c, tr).

Definition lift {A : Type} (r : Res A) : M A :=
  fun c tr => match r with OK a => OK (a, c, tr) | Panic msg => Panic msg end.

Definition emit (op : mop.t) : M unit := fun c tr => OK (tt, c, tr ++ [op]).

Notation "x <- m ;; k" := (bind m (fun x => k))
  (at level 61, m at next level, right associativity).
Notation "' pat <- m ;; k" := (bind m (fun x => match x with pat => k end))
  (at level 61, pat pattern, m at next level, right associativity).
Notation "m ;;; k" := (bind m (fun _ => k))
  (at level 61, right associativity).

(** [when b m]: a Go [if b { m }]. *)
Definition when (b : bool) (m : M unit) : M unit := if b then m else ret tt.

(** Lists as Go slices. *)
Fixpoint update_nth {A : Type} (i : nat) (x : A) (l : list A) : list A :=
  match l, i with
  | [], _ => []
  | _ :: t, O => x :: t
  | h :: t, S i' => h :: update_nth i' x t
  end.

Definition assoc {A : Type} (k : CallableRef) (l : list (CallableRef * A)) : option A :=
  match find (fun p => CallableRef_eqb (fst p) k) l with
  | Some p => Some (snd p)
  | None => None
  end.

Definition assocSet {A : Type} (k : CallableRef) (v : A) (l : list (CallableRef * A)) : list (CallableRef * A) :=
  (k, v) :: filter (fun p => negb (CallableRef_eqb (fst p) k)) l.

Definition lookupString {A : Type} (k : string) (l : list (string * A)) : option A :=
  match find (fun p => String.eqb (fst p) k) l with
  | Some p => Some (snd p)
  | None => None
  end.

(** *** Pointers *)

(** [new(links.L)] *)
Definition newLabel : M nat :=
  fun c tr => OK (List.length (labels c), set_labels (labels c ++ [links.new]) c, tr).

Definition getLabel (l : nat) : M links.L :=
  c <- get ;;
  match nth_error (labels c) l with
  | Some x => ret x
  | None => panic "nil label pointer"
  end.

Definition setLabel (l : nat) (x : links.L) : M unit :=
  modify (fun c => set_labels (update_nth l x (labels c)) c).

(** Taking the address of an operand variable. *)
Definition newOperand (x : values.Operand) : M nat :=
  fun c tr => OK (List.length (operands c), set_operands (operands c ++ [x]) c, tr).

Definition loadOperand (r : nat) : M values.Operand :=
  c <- get ;;
  match nth_error (operands c) r with
  | Some x => ret x
  | None => panic "nil operand pointer"
  end.

Definition storeOperand (r : nat) (x : values.Operand) : M unit :=
  modify (fun c => set_operands (update_nth r x (operands c)) c).

(** [code.vars[i]]: indexing panics out of range. *)
Definition getVar (i : nat) : M varState :=
  c <- get ;;
  match nth_error (vars c) i with
  | Some v => ret v
  | None => panic "index out of range"
  end.

Definition setVar (i : nat) (v : varState) : M unit :=
  modify (fun c => set_vars (update_nth i v (vars c)) c).

(** [v.init(x, dirty)] and [v.reset()] leave the reference count alone. *)
Definition varState_init (x : values.Operand) (d : bool) (v : varState) : varState :=
  {| refCount := refCount v; cache := x; dirty := d |}.

Definition varState_reset (v : varState) : varState :=
  varState_init values.NoOperand false v.

Definition with_refCount (n : Z) (v : varState) : varState :=
  {| refCount := n; cache := cache v; dirty := dirty v |}.

Definition with_dirty (d : bool) (v : varState) : varState :=
  {| refCount := refCount v; cache := cache v; dirty := d |}.

Definition with_cache (x : values.Operand) (v : varState) : varState :=
  {| refCount := refCount v; cache := x; dirty := dirty v |}.

(** ** Call sites (the callbacks the backend uses when it emits a call) *)

(** [AddIndirectCallSite]: append the pair (return address, stack offset) to
    the call map as one little-endian 64-bit word. *)
Definition AddIndirectCallSite (c : coder) : coder :=
  let retAddr := textLen c in
  let stackOffset_ := stackOffset c + gen.WordSize in
  let entry := Z.lor (shl64 (uint64 stackOffset_) 32) (uint64 retAddr) in
  set_callMap (binary.WriteUint64 (callMap c) (uint64 entry)) c.

(** [AddCallSite(l)]: record the site, and remember it in the label when the
    callee has no address yet. *)
Definition AddCallSite (l : nat) (c : coder) : Res coder :=
  let c1 := AddIndirectCallSite c in
  match nth_error (labels c1) l with
  | None => Panic "nil label pointer"
  | Some x =>
      if links.Address x =? 0
      then OK (set_labels (update_nth l (links.AddSite (textLen c1) x) (labels c1)) c1)
      else OK c1
  end.

(** [AddStackUsage(size)] *)
Definition AddStackUsage (size : Z) (c : coder) : coder :=
  let n := stackOffset c + size in
  if n >? maxStackOffset c then set_maxStackOffset n c else c.

(** ** Package strconv (Go library) and values.ParseI32 *)

Module strconv.

(** Modelled: the numerals of Go's strconv with base 0 which code.go passes
    on, namely decimal and 0x-prefixed hexadecimal ones with an optional
    sign; [None] stands for a parse error. *)
Definition digit (base : Z) (a : Ascii.ascii) : option Z :=
  let n := Z.of_nat (Ascii.nat_of_ascii a) in
  let d :=
    if (48 <=? n) && (n <=? 57) then n - 48
    else if (97 <=? n) && (n <=? 102) then n - 87
    else if (65 <=? n) && (n <=? 70) then n - 55
    else 99 in
  if d <? base then Some d else None.

Fixpoint digits (base : Z) (acc : Z) (s : string) : option Z :=
  match s with
  | EmptyString => Some acc
  | String a rest =>
      match digit base a with
      | Some d => digits base (acc * base + d) rest
      | None => None
      end
  end.

Definition magnitude (s : string) : option Z :=
  match s with
  | EmptyString => None
  | String "0"%char (String "x"%char (String a rest)) => digits 16 0 (String a rest)
  | String "0"%char (String "X"%char (String a rest)) => digits 16 0 (String a rest)
  | _ => digits 10 0 s
  end.

Definition ParseUint (s : string) (bitSize : Z) : option Z :=
  match magnitude s with
  | Some v => if v <? 2 ^ bitSize then Some v else None
  | None => None
  end.

Definition ParseInt (s : string) (bitSize : Z) : option Z :=
  let signed :=
    match s with
    | String "-"%char rest => match magnitude rest with Some v => Some (- v) | None => None end
    | String "+"%char rest => magnitude rest
    | _ => magnitude s
    end in
  match signed with
  | Some v => if (- 2 ^ (bitSize - 1) <=? v) && (v <? 2 ^ (bitSize - 1)) then Some v else None
  | None => None
  end.

End strconv.

(** [nonOctalize]: strip leading zeros unless the numeral is hexadecimal. *)
Fixpoint nonOctalize (s : string) : string :=
  match s with
  | String "0"%char (String "x"%char _) => s
  | String "0"%char (String _ _ as tl) => nonOctalize tl
  | _ => s
  end.

(** [values.ParseI32(x)] for a string token. *)
Definition ParseI32 (x : string) : Res Z :=
  let s := nonOctalize x in
  match strconv.ParseInt s 32 with
  | Some signed64 => OK (uint64 signed64)
  | None =>
      match strconv.ParseUint s 32 with
      | Some unsigned64 => OK unsigned64
      | None => Panic "ParseI32: invalid syntax"
      end
  end.

(** ** Constants and interfaces of the program coder *)

Definition roTableAddr : nat := 0.

Module traps.
(** Modelled from the spec: the traps package is not among the sources.
    Traps are numbered from MissingFunction (NoFunction) = 0 and Exit = 1;
    the spec names eleven. *)
Definition MissingFunction : nat := 0.
Definition Exit : nat := 1.
Definition NumTraps : nat := 11.
End traps.

Module imports.
(** Modelled from the spec: an import implementation carries its absolute
    address and its parameter types, and decides which signatures it
    implements. *)
Record Function : Type := {
  Address : Z;
  Args : list types.T;
  Implements : Signature -> bool
}.
End imports.

(** What [Code] returns, and what is visible when the start trigger fires. *)
Record CodeResult : Type := {
  text : list mop.t;
  roDataOut : list byte;
  funcMap : list byte;
  callMapOut : list byte;
  atTrigger : option coder;
  final : coder
}.

(** ** The per-function coder *)

Section Coder.

(** The backend, and the expression evaluator which the functions below call
    back into (the recursion of [coder.expr] is left open here). *)
Variable mach_ : Mach.
Variable expr : sexp -> types.T -> bool -> list liveOperand -> M (values.Operand * bool).

(** A call of a backend operation: it acts on the coder and joins the text. *)
Definition mach (op : mop.t) : M mret :=
  fun c tr =>
    match machOp mach_ op c with
    | OK (r, c') => OK (r, c', tr ++ [op])
    | Panic msg => Panic msg
    end.

Definition Len : M Z := gets textLen.

(** [code.Align(alignment, padding)] *)
Definition Align (alignment padding : Z) : M unit :=
  c <- get ;;
  let n := Z.land (alignment - Z.land (textLen c) (alignment - 1)) (alignment - 1) in
  modify (set_textLen (textLen c + Z.max 0 n)) ;;;
  emit (mop.Pad n padding).

(** [code.regs(t)] and the assignment through the pointer it returns. *)
Definition coder_regs (t : types.T) : M regAllocator.t :=
  c <- get ;;
  match types.category t with
  | types.Int => ret (regsInt c)
  | types.Float => ret (regsFloat c)
  | types.NoCategory => panic "regs: type has no category"
  end.

Definition set_coder_regs (t : types.T) (ra : regAllocator.t) : M unit :=
  match types.category t with
  | types.Int => modify (set_regsInt ra)
  | types.Float => modify (set_regsFloat ra)
  | types.NoCategory => panic "regs: type has no category"
  end.

Definition TryAllocReg (t : types.T) : M (option regs.R) :=
  ra <- coder_regs t ;;
  match regAllocator.alloc ra with
  | Some (r, ra') => set_coder_regs t ra' ;;; ret (Some r)
  | None => ret None
  end.

Definition AllocSpecificReg (t : types.T) (reg : regs.R) : M unit :=
  ra <- coder_regs t ;;
  ra' <- lift (regAllocator.allocSpecific reg ra) ;;
  set_coder_regs t ra'.

Definition FreeReg (t : types.T) (reg : regs.R) : M unit :=
  ra <- coder_regs t ;;
  ra' <- lift (regAllocator.free reg ra) ;;
  set_coder_regs t ra'.

Definition RegAllocated (t : types.T) (reg : regs.R) : M bool :=
  ra <- coder_regs t ;;
  ret (regAllocator.allocated reg ra).

Definition incrementStackOffset : M unit :=
  modify (fun c =>
    let c1 := set_stackOffset (stackOffset c + gen.WordSize) c in
    if stackOffset c1 >? maxStackOffset c1 then set_maxStackOffset (stackOffset c1) c1 else c1).

Definition opAddImmToStackPtr (offset : Z) : M unit :=
  modify (fun c => set_stackOffset (stackOffset c - offset) c) ;;;
  mach (mop.OpAddImmToStackPtr offset) ;;;
  ret tt.

Definition varType (index : nat) : M types.T :=
  c <- get ;;
  let f := function c in
  let t :=
    if (index <? List.length (Params f))%nat
    then nth_error (Params f) index
    else nth_error (Locals f) (index - List.length (Params f)) in
  match t with
  | Some t => ret t
  | None => panic "index out of range"
  end.

Definition effectiveVarStackOffset (index : nat) : M Z :=
  c <- get ;;
  let nparams := List.length (Params (function c)) in
  let offset :=
    if (index <? nparams)%nat
    then
      let pos := Z.of_nat nparams - Z.of_nat index - 1 in
      (* account for the function return address *)
      stackOffset c + gen.WordSize + pos * gen.WordSize
    else
      let index' := Z.of_nat index - Z.of_nat nparams in
      stackOffset c - (index' + 1) * gen.WordSize in
  if offset <? 0 then panic "effective stack offset is negative" else ret offset.

Definition effectiveOperand (x : values.Operand) : M values.Operand :=
  match x with
  | values.VarOperand i =>
      v <- getVar i ;;
      match cache v with
      | values.NoOperand =>
          offset <- effectiveVarStackOffset i ;;
          ret (values.VarMemOperand i offset)
      | cached => ret cached
      end
  | _ => ret x
  end.

Definition virtualOperand (x : values.Operand) : M values.Operand :=
  match x with
  | values.VarMemOperand _ _ | values.VarRegOperand _ _ _ => lift (values.toVarOperand x)
  | _ => ret x
  end.

Definition Consumed (t : types.T) (x : values.Operand) : M unit :=
  match x with
  | values.TempRegOperand reg _ => FreeReg t reg
  | values.StackOperand => modify (fun c => set_stackOffset (stackOffset c - gen.WordSize) c)
  | _ => ret tt
  end.

Definition Discard (t : types.T) (x : values.Operand) : M unit :=
  match x with
  | values.TempRegOperand reg _ => FreeReg t reg
  | values.StackOperand => opAddImmToStackPtr gen.WordSize
  | _ => ret tt
  end.

(** opMove must not allocate registers. *)
Definition opMove (t : types.T) (target : regs.R) (x : values.Operand) (preserveFlags : bool) : M bool :=
  match t, x with
  | types.Void, values.NoOperand
  | (types.I32 | types.I64 | types.F32 | types.F64),
    (values.ImmBits _ | values.VarOperand _ | values.VarRegOperand _ _ _ | values.VarMemOperand _ _
     | values.TempRegOperand _ _ | values.StackOperand | values.ConditionFlagsOperand _
     | values.RODataOperand _) =>
      x' <- effectiveOperand x ;;
      r <- mach (mop.OpMove t target x' preserveFlags) ;;
      ret (r_bool r)
  | types.Void, _ => panic "opMove: operand for a void value"
  | _, values.NoOperand => panic "opMove: no operand for a value"
  end.

(** The loop of [opInitLocalsUntil], over the locals not pushed so far. *)
Fixpoint opInitLocalsLoop (locals : list types.T) (local lastLocal : nat) (lastValue : values.Operand) : M unit :=
  match locals with
  | [] => ret tt
  | t :: rest =>
      if (local <=? lastLocal)%nat then
        c <- get ;;
        let index := (List.length (Params (function c)) + local)%nat in
        v <- getVar index ;;
        match cache v with
        | values.NoOperand => panic "variable without cached value during locals initialization"
        | x0 =>
            if negb (dirty v) then panic "variable not dirty during locals initialization" else
            let x := if (local =? lastLocal)%nat then lastValue else x0 in
            value <- lift (values.CheckImmValue x types.I64) ;;
            match value with
            | Some 0 =>
                zero <- lift (values.ImmOperand types.I64 0) ;;
                mach (mop.OpPush types.I64 zero)
            | _ => mach (mop.OpPush t x)
            end ;;;
            incrementStackOffset ;;;
            v1 <- getVar index ;;
            setVar index (with_dirty false v1) ;;;
            modify (fun c => set_pushedLocals (S (pushedLocals c)) c) ;;;
            opInitLocalsLoop rest (S local) lastLocal lastValue
        end
      else ret tt
  end.

Definition opInitLocalsUntil (lastLocal : nat) (lastValue : values.Operand) : M unit :=
  c <- get ;;
  opInitLocalsLoop (skipn (pushedLocals c) (Locals (function c))) (pushedLocals c) lastLocal lastValue.

Definition opInitLocals : M unit :=
  c <- get ;;
  opInitLocalsUntil (List.length (Locals (function c))) values.NoOperand.

Definition opStoreVar (t : types.T) (index : nat) (x : values.Operand) : M unit :=
  x' <- effectiveOperand x ;;
  c <- get ;;
  let local := Z.of_nat index - Z.of_nat (List.length (Params (function c))) in
  if local >=? Z.of_nat (pushedLocals c)
  then opInitLocalsUntil (Z.to_nat local) x'
  else
    offset <- effectiveVarStackOffset index ;;
    mach (mop.OpStoreStack t offset x') ;;;
    ret tt.

Definition isVarReg (x : values.Operand) : bool :=
  match x with values.VarRegOperand _ _ _ => true | _ => false end.

(** The search loop of [opTryStealUnusedVarReg] over [range code.vars]. *)
Fixpoint findUnusedVarReg (indexes : list nat) (needType : types.T) : M (option (nat * types.T)) :=
  match indexes with
  | [] => ret None
  | i :: rest =>
      v <- getVar i ;;
      if (refCount v =? 0) && isVarReg (cache v) then
        t <- varType i ;;
        if types.Category_eqb (types.category t) (types.category needType)
        then ret (Some (i, t))
        else findUnusedVarReg rest needType
      else findUnusedVarReg rest needType
  end.

(** opTryStealUnusedVarReg doesn't change the allocation state of the
    register.  Locals must have been pushed already. *)
Definition opTryStealUnusedVarReg (needType : types.T) : M (option regs.R) :=
  c <- get ;;
  found <- findUnusedVarReg (seq 0 (List.length (vars c))) needType ;;
  match found with
  | None => ret None
  | Some (i, t) =>
      v <- getVar i ;;
      when (dirty v) (opStoreVar t i (values.VarOperand i)) ;;;
      v1 <- getVar i ;;
      reg <- lift (values.Reg (cache v1)) ;;
      setVar i (varState_reset v1) ;;;
      ret (Some reg)
  end.

(** [code.liveOperands[code.immutableLiveOperands:]] *)
Definition mutableLiveOperands : M (list liveOperand) :=
  c <- get ;;
  if (immutableLiveOperands c <=? List.length (liveOperands c))%nat
  then ret (skipn (immutableLiveOperands c) (liveOperands c))
  else panic "slice bounds out of range".

Definition decrementRefCount (index : nat) (msg : string) : M unit :=
  v <- getVar index ;;
  setVar index (with_refCount (refCount v - 1) v) ;;;
  if refCount v - 1 <? 0 then panic msg else ret tt.

(** The loop of [opStealReg] over the mutable live operands. *)
Fixpoint opStealRegLoop (lives : list liveOperand) (needType : types.T) : M regs.R :=
  match lives with
  | [] => panic "no registers to steal"
  | live :: rest =>
      let typeMatch := types.Category_eqb (types.category (typ live)) (types.category needType) in
      x <- loadOperand (ref live) ;;
      '(found, reg) <-
        match x with
        | values.ImmBits _ => ret (false, O)
        | values.VarOperand index =>
            v <- getVar index ;;
            let found := typeMatch && isVarReg (cache v) && (refCount v =? 1) in
            reg <-
              (if found then
                 when (dirty v) (opStoreVar (typ live) index (values.VarOperand index)) ;;;
                 v1 <- getVar index ;;
                 reg <- lift (values.Reg (cache v1)) ;;
                 setVar index (varState_reset v1) ;;;
                 ret reg
               else
                 opInitLocals ;;;
                 y <- loadOperand (ref live) ;;
                 y' <- effectiveOperand y ;;
                 mach (mop.OpPush (typ live) y') ;;;
                 incrementStackOffset ;;;
                 storeOperand (ref live) values.StackOperand ;;;
                 ret O) ;;
            decrementRefCount index "negative reference count" ;;;
            ret (found, reg)
        | values.TempRegOperand _ _ =>
            opInitLocals ;;;
            y <- loadOperand (ref live) ;;
            reg <- lift (values.Reg y) ;;
            mach (mop.OpPushIntReg reg) ;;;
            incrementStackOffset ;;;
            storeOperand (ref live) values.StackOperand ;;;
            ret (typeMatch, reg)
        | _ => panic "opStealReg: live operand"
        end ;;
      modify (fun c => set_immutableLiveOperands (S (immutableLiveOperands c)) c) ;;;
      if found then ret reg else opStealRegLoop rest needType
  end.

(** opStealReg doesn't change the allocation state of the register. *)
Definition opStealReg (needType : types.T) : M regs.R :=
  (* first, try to commit unreferenced variable from register to stack *)
  stolen <- opTryStealUnusedVarReg needType ;;
  match stolen with
  | Some reg => ret reg
  | None =>
      (* second, push variables and registers to stack until we find the
         correct type *)
      lives <- mutableLiveOperands ;;
      opStealRegLoop lives needType
  end.

(** The loop of [opTryStealVarReg] over the mutable live operands. *)
Fixpoint opTryStealVarRegLoop (lives : list liveOperand) (needType : types.T) : M (option regs.R) :=
  match lives with
  | [] => ret None
  | live :: rest =>
      x <- loadOperand (ref live) ;;
      match x with
      | values.ImmBits _ =>
          modify (fun c => set_immutableLiveOperands (S (immutableLiveOperands c)) c) ;;;
          opTryStealVarRegLoop rest needType
      | values.VarOperand index =>
          if negb (types.Category_eqb (types.category (typ live)) (types.category needType))
          then ret None (* nope *)
          else
            v <- getVar index ;;
            if refCount v >? 1 then ret None (* nope *)
            else if negb (isVarReg (cache v)) then ret None (* nope *)
            else
              when (dirty v) (opStoreVar (typ live) index (values.VarOperand index)) ;;;
              v1 <- getVar index ;;
              reg <- lift (values.Reg (cache v1)) ;;
              setVar index (varState_reset v1) ;;;
              decrementRefCount index "negative reference count" ;;;
              modify (fun c => set_immutableLiveOperands (S (immutableLiveOperands c)) c) ;;;
              ret (Some reg)
      | values.TempRegOperand _ _ => ret None (* nope *)
      | _ => panic "opTryStealVarReg: live operand"
      end
  end.

(** opTryStealVarReg doesn't change the allocation state of the register. *)
Definition opTryStealVarReg (needType : types.T) : M (option regs.R) :=
  stolen <- opTryStealUnusedVarReg needType ;;
  match stolen with
  | Some reg => ret (Some reg)
  | None =>
      lives <- mutableLiveOperands ;;
      opTryStealVarRegLoop lives needType
  end.

Definition opTryAllocVarReg (t : types.T) : M (option regs.R) :=
  reg <- TryAllocReg t ;;
  match reg with
  | Some r => ret (Some r)
  | None => opTryStealVarReg t
  end.

(** [opAllocReg(t)] without operands to save. *)
Definition opAllocReg0 (t : types.T) : M regs.R :=
  reg <- TryAllocReg t ;;
  match reg with
  | Some r => ret r
  | None => opStealReg t
  end.

Definition appendLiveOperand (t : types.T) (r : nat) : M unit :=
  modify (fun c => set_liveOperands (liveOperands c ++ [{| typ := t; ref := r |}]) c).

Definition opPushLiveOperand (t : types.T) (r : nat) : M unit :=
  let toRegister :=
    reg <- opAllocReg0 t ;;
    x <- loadOperand r ;;
    zeroExt <- opMove t reg x false ;;
    storeOperand r (values.TempRegOperand reg zeroExt) in
  x <- loadOperand r ;;
  match x with
  | values.NoOperand | values.ImmBits _ => ret tt
  | values.VarOperand i =>
      v <- getVar i ;;
      setVar i (with_refCount (refCount v + 1) v) ;;;
      appendLiveOperand t r
  | values.TempRegOperand reg _ =>
      ok <- RegAllocated t reg ;;
      if ok then appendLiveOperand t r (* ok *)
      else toRegister ;;; appendLiveOperand t r (* can't keep the transient register *)
  | values.ConditionFlagsOperand _ =>
      toRegister ;;; appendLiveOperand t r
  | _ => panic "opPushLiveOperand: operand"
  end.

Definition popTopLiveOperand (r : nat) : M unit :=
  c <- get ;;
  let i := (List.length (liveOperands c) - 1)%nat in
  match nth_error (liveOperands c) i with
  | None => panic "index out of range"
  | Some live =>
      if negb (Nat.eqb (ref live) r)
      then panic "popLiveOperand argument does not match topmost item of liveOperands"
      else
        modify (fun c => set_liveOperands (firstn i (liveOperands c)) c) ;;;
        modify (fun c =>
          if (i <? immutableLiveOperands c)%nat then set_immutableLiveOperands i c else c)
  end.

Definition popLiveOperand (r : nat) : M unit :=
  x <- loadOperand r ;;
  match x with
  | values.NoOperand | values.ImmBits _ => ret tt
  | values.VarOperand i =>
      decrementRefCount i "negative reference count" ;;;
      popTopLiveOperand r
  | values.TempRegOperand _ _ | values.StackOperand => popTopLiveOperand r
  | _ => panic "popLiveOperand: operand"
  end.

(** Pushing the operands to save, and the deferred pops in reverse order. *)
Fixpoint pushLiveOperands (save : list liveOperand) : M unit :=
  match save with
  | [] => ret tt
  | live :: rest => opPushLiveOperand (typ live) (ref live) ;;; pushLiveOperands rest
  end.

Fixpoint popLiveOperands (saveReversed : list liveOperand) : M unit :=
  match saveReversed with
  | [] => ret tt
  | live :: rest => popLiveOperand (ref live) ;;; popLiveOperands rest
  end.

Definition opAllocReg (t : types.T) (save : list liveOperand) : M regs.R :=
  reg <- TryAllocReg t ;;
  match reg with
  | Some r => ret r
  | None =>
      pushLiveOperands save ;;;
      r <- opStealReg t ;;
      popLiveOperands (rev save) ;;;
      ret r
  end.

(** The loop of [opSaveTempRegOperands]. *)
Fixpoint opSaveTempRegOperandsLoop (lives : list liveOperand) (pushed : bool) : M unit :=
  match lives with
  | [] => ret tt
  | live :: rest =>
      x <- loadOperand (ref live) ;;
      match x with
      | values.TempRegOperand _ _ =>
          opInitLocals ;;;
          y <- loadOperand (ref live) ;;
          y' <- effectiveOperand y ;;
          mach (mop.OpPush (typ live) y') ;;;
          incrementStackOffset ;;;
          storeOperand (ref live) values.StackOperand ;;;
          opSaveTempRegOperandsLoop rest true
      | values.StackOperand =>
          if pushed
          then panic "previously pushed operand found after newly pushed operand"
          else opSaveTempRegOperandsLoop rest pushed
      | _ => opSaveTempRegOperandsLoop rest pushed
      end
  end.

Definition opSaveTempRegOperands : M unit :=
  lives <- mutableLiveOperands ;;
  opSaveTempRegOperandsLoop lives false ;;;
  modify (fun c => set_immutableLiveOperands (List.length (liveOperands c)) c).

(** The loop of [opStoreRegVars] over [range code.vars]. *)
Fixpoint opStoreRegVarsLoop (indexes : list nat) (forget : bool) : M unit :=
  match indexes with
  | [] => ret tt
  | i :: rest =>
      v <- getVar i ;;
      t <- varType i ;;
      when (dirty v)
        (opStoreVar t i (values.VarOperand i) ;;;
         v1 <- getVar i ;;
         setVar i (with_dirty false v1)) ;;;
      when forget
        (v2 <- getVar i ;;
         match cache v2 with
         | values.VarRegOperand _ reg _ => FreeReg t reg
         | _ => ret tt
         end ;;;
         v3 <- getVar i ;;
         setVar i (varState_reset v3)) ;;;
      opStoreRegVarsLoop rest forget
  end.

(** opStoreRegVars is only safe when there are no live Var operands. *)
Definition opStoreRegVars (forget : bool) : M unit :=
  c <- get ;;
  opStoreRegVarsLoop (seq 0 (List.length (vars c))) forget.

Definition opLabel (l : nat) : M unit :=
  opSaveTempRegOperands ;;;
  opStoreRegVars true ;;;
  x <- getLabel l ;;
  addr <- Len ;;
  setLabel l (links.withAddress addr x).

Definition branchSites (l : nat) (sites : list Z) : M unit :=
  x <- getLabel l ;;
  if links.Address x =? 0
  then setLabel l (fold_left (fun acc addr => links.AddSite addr acc) sites x)
  else ret tt.

Definition opBranch (l : nat) : M unit :=
  x <- getLabel l ;;
  r <- mach (mop.OpBranch (links.Address x)) ;;
  branchSites l [r_int r].

Definition opBranchIf (x : values.Operand) (yes : bool) (l : nat) : M unit :=
  x' <- effectiveOperand x ;;
  lab <- getLabel l ;;
  r <- mach (mop.OpBranchIf x' yes (links.Address lab)) ;;
  branchSites l (r_sites r).

Definition opBranchIfEqualImm32 (reg : regs.R) (value : Z) (l : nat) : M unit :=
  lab <- getLabel l ;;
  r <- mach (mop.OpBranchIfEqualImm32 reg value (links.Address lab)) ;;
  branchSites l [r_int r].

Definition opBranchIfOutOfBounds (indexReg : regs.R) (upperBound : Z) (l : nat) : M unit :=
  lab <- getLabel l ;;
  r <- mach (mop.OpBranchIfOutOfBounds indexReg upperBound (links.Address lab)) ;;
  branchSites l [r_int r].

Definition opPreloadOperand (t : types.T) (x : values.Operand) : M values.Operand :=
  x1 <- effectiveOperand x ;;
  match x1 with
  | values.VarMemOperand i _ =>
      reg <- opTryAllocVarReg t ;;
      match reg with
      | Some r =>
          zeroExt <- opMove t r x1 false ;;
          let x2 := values.VarRegOperand i r zeroExt in
          v <- getVar i ;;
          setVar i (with_dirty false (with_cache x2 v)) ;;;
          ret x2
      | None => ret x1
      end
  | _ => ret x1
  end.

Definition opMaterializeOperand (t : types.T) (x : values.Operand) : M values.Operand :=
  x1 <- opPreloadOperand t x ;;
  match x1 with
  | values.StackOperand | values.ConditionFlagsOperand _ =>
      reg <- opAllocReg t [] ;;
      zeroExt <- opMove t reg x1 false ;;
      ret (values.TempRegOperand reg zeroExt)
  | _ => ret x1
  end.

Definition pushTarget (l : nat) (name : string) (valueType : types.T) (functionEnd : bool) : M unit :=
  modify (fun c =>
    let offset :=
      if (pushedLocals c <? List.length (Locals (function c)))%nat
      then
        (* init still in progress, but any branch expressions will have
           initialized all locals *)
        Z.of_nat (List.length (Locals (function c))) * gen.WordSize
      else stackOffset c in
    set_targetStack
      (targetStack c ++
       [{| branchTarget.label := l; branchTarget.name := name;
           branchTarget.expectType := valueType; branchTarget.stackOffset := offset;
           branchTarget.functionEnd := functionEnd |}]) c).

Definition popTarget : M bool :=
  c <- get ;;
  let n := List.length (targetStack c) in
  match nth_error (targetStack c) (n - 1) with
  | None => panic "index out of range"
  | Some target =>
      x <- getLabel (branchTarget.label target) ;;
      modify (fun c => set_targetStack (firstn (n - 1) (targetStack c)) c) ;;;
      ret (links.Live x)
  end.

(** The search by name of [findTarget], from the top of the target stack. *)
Fixpoint findTargetByName (reversed : list branchTarget.t) (name : string) : option branchTarget.t :=
  match reversed with
  | [] => None
  | target :: rest =>
      if negb (String.eqb (branchTarget.name target) "") && String.eqb (branchTarget.name target) name
      then Some target
      else findTargetByName rest name
  end.

Definition findTarget (token : sexp) : M branchTarget.t :=
  match token with
  | Lst _ => panic "interface conversion: not a string"
  | Str name =>
      c <- get ;;
      match findTargetByName (rev (targetStack c)) name with
      | Some target => ret target
      | None =>
          parsed <- lift (ParseI32 name) ;;
          let i := int64 parsed in
          let n := Z.of_nat (List.length (targetStack c)) in
          if (i >=? 0) && (i <? n)
          then
            match nth_error (targetStack c) (Z.to_nat (n - i - 1)) with
            | Some target => ret target
            | None => panic "index out of range"
            end
          else panic name
      end
  end.

(** *** Binary operators *)

Definition isImm (x : values.Operand) : bool :=
  match x with values.ImmBits _ => true | _ => false end.

Definition oneOf (s : string) (names : list string) : bool :=
  existsb (String.eqb s) names.

Definition exprBinaryOp (exprName opName : string) (t : types.T) (args : list sexp) : M (values.Operand * bool) :=
  match args with
  | [arg0; arg1] =>
      '(a0, deadend) <- expr arg0 t false [] ;;
      if deadend then
        mach mop.OpAbort ;;;
        ret (values.NoOperand, true)
      else
        pa <- newOperand a0 ;;
        '(b0, deadend) <- expr arg1 t false [{| typ := t; ref := pa |}] ;;
        a1 <- loadOperand pa ;;
        if deadend then
          Discard t a1 ;;;
          mach mop.OpAbort ;;;
          ret (values.NoOperand, true)
        else
          let '(a, b) :=
            if isImm a1 && negb (isImm b0) && oneOf opName ["add"; "and"; "or"; "xor"]
            then (b0, a1) else (a1, b0) in
          value <- lift (values.CheckImmValue b t) ;;
          let generic :=
            a' <- opMaterializeOperand t a ;;
            b' <- opPreloadOperand t b ;;
            r <- mach (mop.BinaryOp opName t a' b') ;;
            if r_bool r then
              mach mop.OpAbort ;;;
              ret (r_operand r, true)
            else
              result <- virtualOperand (r_operand r) ;;
              ret (result, false) in
          let zero :=
            Discard t a ;;;
            result <- lift (values.ImmOperand t 0) ;;
            ret (result, false) in
          match value with
          | Some value =>
              if oneOf opName ["add"; "or"; "sub"; "xor"] then
                if value =? 0 then ret (a, false) else generic
              else if String.eqb opName "mul" then
                if value =? 0 then zero
                else if value =? 1 then ret (a, false)
                else generic
              else if String.eqb opName "div_s" then
                if (value =? -1) || (value =? 1) then zero else generic
              else if String.eqb opName "div_u" then
                if value =? 1 then zero else generic
              else generic
          | None => generic
          end
  | _ => panic (exprName ++ ": wrong number of operands")
  end.

(** *** Branches *)

(** The operands of a branch expression as [exprBr] takes them apart. *)
Record brArgs : Type := {
  br_exprName : string;
  tableIndexes : list sexp;
  defaultIndex : sexp;
  valueExpr : option sexp;
  condExpr : option sexp
}.

Definition isList (x : sexp) : bool :=
  match x with Lst _ => true | Str _ => false end.

Definition exprBrArgs (exprName : string) (args : list sexp) : Res brArgs :=
  if String.eqb exprName "br" then
    match args with
    | [d] => OK {| br_exprName := exprName; tableIndexes := []; defaultIndex := d;
                   valueExpr := None; condExpr := None |}
    | [d; v] => OK {| br_exprName := exprName; tableIndexes := []; defaultIndex := d;
                      valueExpr := Some v; condExpr := None |}
    | _ => Panic (exprName ++ ": wrong number of operands")
    end
  else if String.eqb exprName "br_if" then
    match args with
    | [d; c] => OK {| br_exprName := exprName; tableIndexes := []; defaultIndex := d;
                      valueExpr := None; condExpr := Some c |}
    | [d; v; c] => OK {| br_exprName := exprName; tableIndexes := []; defaultIndex := d;
                         valueExpr := Some v; condExpr := Some c |}
    | _ => Panic (exprName ++ ": wrong number of operands")
    end
  else if String.eqb exprName "br_table" then
    match rev args with
    | [] | [_] => Panic (exprName ++ ": too few operands")
    | c :: last :: rest =>
        let '(value, reversed) :=
          if isList last then (Some last, rest) else (None, last :: rest) in
        match reversed with
        | [] => Panic (exprName ++ ": too few operands")
        | d :: indexes =>
            OK {| br_exprName := match indexes with [] => "br" | _ => exprName end;
                  tableIndexes := rev indexes; defaultIndex := d;
                  valueExpr := value; condExpr := Some c |}
        end
    end
  else Panic "interface conversion: nil".

(** The loop of [exprBr] which resolves the table targets. *)
Fixpoint exprBrTargets (exprName : string) (indexes : list sexp) (valueType : types.T)
    (tableTargets : list branchTarget.t) : M (types.T * list branchTarget.t) :=
  match indexes with
  | [] => ret (valueType, tableTargets)
  | x :: rest =>
      target <- findTarget x ;;
      lab <- getLabel (branchTarget.label target) ;;
      setLabel (branchTarget.label target) (links.SetLive lab) ;;;
      valueType' <-
        (if negb (types.eqb (branchTarget.expectType target) types.Void) then
           if types.eqb valueType types.Void then ret (branchTarget.expectType target)
           else if negb (types.eqb valueType (branchTarget.expectType target))
           then panic (exprName ++ ": branch targets have inconsistent value types")
           else ret valueType
         else ret valueType) ;;
      exprBrTargets exprName rest valueType' (tableTargets ++ [target])
  end.

(** The common stack offset of the table targets, or -1. *)
Fixpoint commonOffset (commonStackOffset : Z) (rest : list branchTarget.t) : Z :=
  match rest with
  | [] => commonStackOffset
  | target :: rest' =>
      if negb (branchTarget.stackOffset target =? commonStackOffset) then -1
      else commonOffset commonStackOffset rest'
  end.

(** [case "br":] of [exprBr] *)
Definition exprBrBr (defaultTarget : branchTarget.t) : M bool :=
  (if branchTarget.functionEnd defaultTarget then
     c <- get ;;
     mach (mop.OpAddImmToStackPtr (stackOffset c)) ;;;
     mach mop.OpReturn ;;;
     ret tt
   else
     opSaveTempRegOperands ;;;
     opInitLocals ;;;
     opStoreRegVars true ;;;
     c <- get ;;
     let delta := stackOffset c - branchTarget.stackOffset defaultTarget in
     mach (mop.OpAddImmToStackPtr delta) ;;;
     opBranch (branchTarget.label defaultTarget)) ;;;
  ret true.

(** [case "br_if":] of [exprBr] *)
Definition exprBrIf (defaultTarget : branchTarget.t) (condOperand : values.Operand) : M bool :=
  opSaveTempRegOperands ;;;
  opInitLocals ;;;
  opStoreRegVars false ;;;
  c <- get ;;
  let delta := stackOffset c - branchTarget.stackOffset defaultTarget in
  mach (mop.OpAddImmToStackPtr delta) ;;;
  opBranchIf condOperand true (branchTarget.label defaultTarget) ;;;
  mach (mop.OpAddImmToStackPtr (- delta)) ;;;
  ret false.

(** [case "br_table":] of [exprBr]; [pcond] is the address of condOperand. *)
Definition exprBrTable (defaultTarget : branchTarget.t) (tableTargets : list branchTarget.t)
    (pcond : nat) : M bool :=
  match tableTargets with
  | [] => panic "index out of range"
  | first :: rest =>
      let commonStackOffset := commonOffset (branchTarget.stackOffset first) rest in
      let '(tableType, tableScale) :=
        if commonStackOffset >=? 0 then (types.I32, 2) else (types.I64, 3) in
      let tableSize := Z.shiftl (Z.of_nat (List.length tableTargets)) tableScale in
      c <- get ;;
      let '(tableAddr, arena) := dataArena.alloc tableSize (Z.shiftl 1 tableScale) (roData c) in
      modify (set_roData arena) ;;;
      opSaveTempRegOperands ;;;
      reg2 <-
        (if commonStackOffset <? 0
         then r <- opAllocReg types.I32 [{| typ := types.I32; ref := pcond |}] ;; ret (Some r)
         else ret None) ;;
      condOperand <- loadOperand pcond ;;
      '(found, freeReg) <-
        match values.CheckVar condOperand with
        | Some index =>
            v <- getVar index ;;
            match cache v with
            | values.VarRegOperand _ r _ => ret (Some (r, false), false)
            | _ => ret (None, false)
            end
        | None =>
            match values.CheckTempReg condOperand with
            | Some (r, z) => ret (Some (r, z), true)
            | None => ret (None, false)
            end
        end ;;
      '(reg, regZeroExt, freeReg) <-
        match found with
        | Some (r, z) => ret (r, z, freeReg)
        | None =>
            r <- opAllocReg types.I32 [{| typ := types.I32; ref := pcond |}] ;;
            x <- loadOperand pcond ;;
            z <- opMove types.I32 r x false ;;
            ret (r, z, true)
        end ;;
      opInitLocals ;;;
      opStoreRegVars true ;;;
      (* if condOperand yielded a var register, then it was just freed by the
         storing of vars, but the register retains its value.  don't call
         anything that allocates registers until the critical section ends. *)
      c1 <- get ;;
      let defaultDelta := stackOffset c1 - branchTarget.stackOffset defaultTarget in
      mach (mop.OpAddImmToStackPtr defaultDelta) ;;;
      c2 <- get ;;
      let tableStackOffset := stackOffset c2 - defaultDelta in
      opBranchIfOutOfBounds reg (Z.of_nat (List.length tableTargets)) (branchTarget.label defaultTarget) ;;;
      r <- mach (mop.OpLoadROIntIndex32ScaleDisp tableType reg regZeroExt tableScale tableAddr) ;;
      regZeroExt' <-
        (if commonStackOffset >=? 0 then
           mach (mop.OpAddImmToStackPtr (tableStackOffset - commonStackOffset)) ;;;
           ret (r_bool r)
         else
           match reg2 with
           | Some r2 =>
               mach (mop.OpMoveReg types.I64 r2 reg) ;;;
               mach (mop.OpShiftRightLogical32Bits r2) ;;;
               mach (mop.OpAddToStackPtr r2) ;;;
               ret false
           | None => panic "unreachable"
           end) ;;
      mach (mop.OpBranchIndirect32 reg regZeroExt') ;;;
      (* end of critical section. *)
      let t :=
        {| branchTable.roDataAddr := tableAddr;
           branchTable.targets := tableTargets;
           branchTable.codeStackOffset :=
             if commonStackOffset <? 0 then tableStackOffset (* no common offset *) else -1 |} in
      modify (fun c => set_branchTables (branchTables c ++ [t]) c) ;;;
      (* deferred calls, last first *)
      when freeReg (FreeReg types.I32 reg) ;;;
      match reg2 with
      | Some r2 => FreeReg types.I32 r2
      | None => ret tt
      end ;;;
      ret true
  end.

Definition exprBr (exprName : string) (args : list sexp) : M bool :=
  a <- lift (exprBrArgs exprName args) ;;
  defaultTarget <- findTarget (defaultIndex a) ;;
  '(valueType, tableTargets) <-
    exprBrTargets (br_exprName a) (tableIndexes a) (branchTarget.expectType defaultTarget) [] ;;
  evaluated <-
    match valueExpr a with
    | Some x =>
        '(valueOperand, deadend) <- expr x valueType false [] ;;
        if deadend then mach mop.OpAbort ;;; ret None else ret (Some valueOperand)
    | None =>
        if negb (types.eqb valueType types.Void)
        then panic "no value expression while expected value type is not void"
        else ret (Some values.NoOperand)
    end ;;
  match evaluated with
  | None => ret true
  | Some valueOperand0 =>
      pvalue <- newOperand valueOperand0 ;;
      pcond <- newOperand values.NoOperand ;;
      alive <-
        match condExpr a with
        | Some x =>
            '(condOperand, deadend) <- expr x types.I32 false [{| typ := valueType; ref := pvalue |}] ;;
            storeOperand pcond condOperand ;;;
            if deadend then
              valueOperand <- loadOperand pvalue ;;
              Discard valueType valueOperand ;;;
              mach mop.OpAbort ;;;
              ret false
            else ret true
        | None => ret true
        end ;;
      if negb alive then ret true else
      valueOperand <- loadOperand pvalue ;;
      when (negb (types.eqb valueType types.Void))
        (opMove valueType (ResultReg mach_) valueOperand true ;;; ret tt) ;;;
      if String.eqb (br_exprName a) "br" then exprBrBr defaultTarget
      else if String.eqb (br_exprName a) "br_if" then
        condOperand <- loadOperand pcond ;;
        exprBrIf defaultTarget condOperand
      else exprBrTable defaultTarget tableTargets pcond
  end.

(** *** Functions *)

Definition zeroVar : varState :=
  {| refCount := 0; cache := values.NoOperand; dirty := false |}.

(** The loop of [genFunction] which initialises the locals' variables. *)
Fixpoint initLocalVars (locals : list types.T) (index : nat) : M unit :=
  match locals with
  | [] => ret tt
  | t :: rest =>
      zero <- lift (values.ImmOperand t 0) ;;
      v <- getVar index ;;
      setVar index (varState_init zero true v) ;;;
      initLocalVars rest (S index)
  end.

(** The loop of [genFunction] over the body; the result is [deadend]. *)
Fixpoint genFunctionBody (result : types.T) (children : list sexp) : M bool :=
  match children with
  | [] => ret false
  | child :: rest =>
      let final := match rest with [] => true | _ => false end in
      let t := if final then result else types.Void in
      '(x, deadend) <- expr child t final [] ;;
      if deadend then
        mach mop.OpAbort ;;;
        ret true
      else
        when (negb (types.eqb t types.Void))
          (opMove t (ResultReg mach_) x false ;;; ret tt) ;;;
        match rest with
        | [] => ret false
        | _ => genFunctionBody result rest
        end
  end.

(** The loop of [genFunction] which checks and resets the variables. *)
Fixpoint checkVars (indexes : list nat) : M unit :=
  match indexes with
  | [] => ret tt
  | i :: rest =>
      v <- getVar i ;;
      if negb (refCount v =? 0)
      then panic "internal: variable reference count is non-zero at end of function"
      else
        match values.CheckVarReg (cache v) with
        | Some (reg, _) => t <- varType i ;; FreeReg t reg
        | None => ret tt
        end ;;;
        v1 <- getVar i ;;
        setVar i (varState_reset v1) ;;;
        checkVars rest
  end.

(** The checks of [genFunction] after the epilogue. *)
Definition postChecks : M unit :=
  c <- get ;;
  checkVars (seq 0 (List.length (vars c))) ;;;
  c1 <- get ;;
  lift (regAllocator.postCheck (regsInt c1)) ;;;
  lift (regAllocator.postCheck (regsFloat c1)) ;;;
  if negb (Nat.eqb (List.length (liveOperands c1)) 0)
  then panic "internal: live operands exist at end of function"
  else if negb (Nat.eqb (List.length (targetStack c1)) 0)
  then panic "internal: branch target stack is not empty at end of function"
  else ret tt.

(** The inner loop of [genFunction] which writes the entries of one branch
    table; [off] is the offset of [buf] within the read-only data. *)
Fixpoint patchBranchTable (table : branchTable.t) (targets : list branchTarget.t) (off : Z) : M unit :=
  match targets with
  | [] => ret tt
  | target :: rest =>
      lab <- getLabel (branchTarget.label target) ;;
      finalAddress <- lift (links.FinalAddress lab) ;;
      let targetAddr := uint32 finalAddress in
      c <- get ;;
      if off <? 0 then panic "slice bounds out of range" else
      if branchTable.codeStackOffset table <? 0 then
        (* common offset *)
        buf <- lift (binary.PutUint32 (dataArena.buf (roData c)) (Z.to_nat off) targetAddr) ;;
        modify (set_roData {| dataArena.buf := buf |}) ;;;
        patchBranchTable table rest (off + 4)
      else
        let delta := branchTable.codeStackOffset table - branchTarget.stackOffset target in
        let packed := Z.lor (shl64 (uint64 (uint32 delta)) 32) (uint64 targetAddr) in
        buf <- lift (binary.PutUint64 (dataArena.buf (roData c)) (Z.to_nat off) packed) ;;
        modify (set_roData {| dataArena.buf := buf |}) ;;;
        patchBranchTable table rest (off + 8)
  end.

Fixpoint patchBranchTables (tables : list branchTable.t) : M unit :=
  match tables with
  | [] => ret tt
  | table :: rest =>
      c <- get ;;
      if (branchTable.roDataAddr table <? 0)
         || (Z.of_nat (List.length (dataArena.buf (roData c))) <? branchTable.roDataAddr table)
      then panic "slice bounds out of range"
      else
        patchBranchTable table (branchTable.targets table) (branchTable.roDataAddr table) ;;;
        patchBranchTables rest
  end.

Fixpoint resetLabels (ls : list nat) : M unit :=
  match ls with
  | [] => ret tt
  | l :: rest =>
      x <- getLabel l ;;
      setLabel l (links.Reset x) ;;;
      resetLabels rest
  end.

(** [functionLinks[callable]] *)
Definition functionLink (callable : CallableRef) : M nat :=
  c <- get ;;
  match assoc callable (functionLinks c) with
  | Some l => ret l
  | None => panic "nil pointer dereference"
  end.

(** [genFunction(f)] for the function at index [funcIndex] of the module;
    the result is the address for the function map. *)
Definition genFunction (funcIndex : nat) (f : Function) : M Z :=
  modify (set_function f) ;;;
  c <- get ;;
  resetLabels (trapTrampolines c) ;;;
  let n := (List.length (Params f) + List.length (Locals f))%nat in
  modify (fun c => set_vars (firstn n (vars c) ++ repeat zeroVar (n - List.length (vars c))) c) ;;;
  initLocalVars (Locals f) (List.length (Params f)) ;;;
  modify (set_pushedLocals O) ;;;
  modify (set_stackOffset 0) ;;;
  modify (set_maxStackOffset 0) ;;;
  mapAddr <- Len ;;
  r <- mach mop.OpFunctionPrologue ;;
  let invokeAddr := r_int r in
  let stackUsageAddr := r_int2 r in
  stackCheckEndAddr <- Len ;;
  end_ <- newLabel ;;
  pushTarget end_ "" (Result (FuncSignature f)) true ;;;
  deadend <- genFunctionBody (Result (FuncSignature f)) (body f) ;;
  live <- popTarget ;;
  deadend' <-
    (if live then
       opLabel end_ ;;;
       mach (mop.UpdateBranches end_) ;;;
       ret false
     else ret deadend) ;;
  when (negb deadend')
    (c <- get ;;
     opAddImmToStackPtr (stackOffset c) ;;;
     mach mop.OpReturn ;;;
     ret tt) ;;;
  postChecks ;;;
  c <- get ;;
  invokeAddr' <-
    (if maxStackOffset c >? 0 then
       mach (mop.UpdateStackDisp stackUsageAddr (maxStackOffset c)) ;;;
       ret invokeAddr
     else
       let newAddr := Z.ldiff stackCheckEndAddr (FunctionAlignment mach_ - 1) in
       mach (mop.DeleteCode invokeAddr newAddr) ;;;
       mach (mop.DisableCode newAddr stackCheckEndAddr) ;;;
       ret newAddr) ;;
  c <- get ;;
  patchBranchTables (branchTables c) ;;;
  modify (set_branchTables []) ;;; (* all done *)
  l <- functionLink (FuncRef funcIndex) ;;
  x <- getLabel l ;;
  setLabel l (links.withAddress invokeAddr' x) ;;;
  ret mapAddr.

(** *** The program coder *)

Definition genTrapEntry (id : nat) : M unit :=
  c <- get ;;
  match nth_error (trapEntries c) id with
  | None => panic "index out of range"
  | Some l =>
      x <- getLabel l ;;
      addr <- Len ;;
      setLabel l (links.withAddress addr x) ;;;
      mach (mop.OpEnterTrapHandler id) ;;;
      ret tt
  end.

Definition genImportEntry (instance : Import) (impl : imports.Function) : M Z :=
  if negb (imports.Implements impl (ImportSignature instance)) then panic "import" else
  let varArgsCount :=
    Z.of_nat (List.length (Args (ImportSignature instance))) - Z.of_nat (List.length (imports.Args impl)) in
  Align (FunctionAlignment mach_) (PaddingByte mach_) ;;;
  addr <- Len ;;
  mach (mop.OpEnterImportFunction (imports.Address impl) (Index (ImportSignature instance)) varArgsCount) ;;;
  ret addr.

(** [f.Signature] for a pointer to a Callable. *)
Definition callableSignature (m : Module_) (f : CallableRef) : Res Signature :=
  match f with
  | ImportRef i =>
      match nth_error (Imports m) i with
      | Some im => OK (ImportSignature im)
      | None => Panic "nil pointer dereference"
      end
  | FuncRef i =>
      match nth_error (Functions m) i with
      | Some fn => OK (FuncSignature fn)
      | None => Panic "nil pointer dereference"
      end
  end.

Fixpoint newLabels (n : nat) : M (list nat) :=
  match n with
  | O => ret []
  | S n' => l <- newLabel ;; ls <- newLabels n' ;; ret (l :: ls)
  end.

(** The loop which creates a link per function. *)
Fixpoint initFunctionLinks (fs : list Function) (i : nat) : M unit :=
  match fs with
  | [] => ret tt
  | _ :: rest =>
      l <- newLabel ;;
      modify (fun c => set_functionLinks (assocSet (FuncRef i) l (functionLinks c)) c) ;;;
      initFunctionLinks rest (S i)
  end.

(** The loop over the trap ids from Exit on. *)
Fixpoint genTrapEntries (ids : list nat) : M unit :=
  match ids with
  | [] => ret tt
  | id :: rest =>
      when (negb (Nat.eqb id traps.MissingFunction)) (genTrapEntry id) ;;;
      genTrapEntries rest
  end.

Definition lookupImport (importImpls : list (string * list (string * imports.Function)))
    (im : Import) : option imports.Function :=
  match lookupString (Namespace im) importImpls with
  | Some names => lookupString (Name im) names
  | None => None
  end.

(** The loop over the imports. *)
Fixpoint genImports (importImpls : list (string * list (string * imports.Function)))
    (ims : list Import) (i : nat) (funcMapBuf : list byte) : M (list byte) :=
  match ims with
  | [] => ret funcMapBuf
  | im :: rest =>
      match lookupImport importImpls im with
      | None => panic "import not found"
      | Some impl =>
          addr <- genImportEntry im impl ;;
          let funcMapBuf' := binary.WriteUint32 funcMapBuf (uint32 addr) in
          l <- newLabel ;;
          setLabel l (links.withAddress addr links.new) ;;;
          modify (fun c => set_functionLinks (assocSet (ImportRef i) l (functionLinks c)) c) ;;;
          genImports importImpls rest (S i) funcMapBuf'
      end
  end.

(** The first loop over the functions: up to and including the start
    function.  The result is [funcIndex] and the function map so far. *)
Fixpoint genInitialFunctions (fs : list Function) (funcIndex : nat) (startCallable : option CallableRef)
    (funcMapBuf : list byte) : M (nat * list byte) :=
  match fs with
  | [] => ret (funcIndex, funcMapBuf)
  | f :: rest =>
      mapAddr <- genFunction funcIndex f ;;
      let funcMapBuf' := binary.WriteUint32 funcMapBuf (uint32 mapAddr) in
      l <- functionLink (FuncRef funcIndex) ;;
      mach (mop.UpdateCalls l) ;;;
      let isStart :=
        match startCallable with
        | Some s => CallableRef_eqb (FuncRef funcIndex) s
        | None => false
        end in
      if isStart then ret (S funcIndex, funcMapBuf')
      else genInitialFunctions rest (S funcIndex) startCallable funcMapBuf'
  end.

(** The loop which populates the function table. *)
Fixpoint populateTable (m : Module_) (table : list CallableRef) (off : nat) : M unit :=
  match table with
  | [] => ret tt
  | f :: rest =>
      sig <- lift (callableSignature m f) ;;
      if Index sig <? 0 then panic "function signature has no index while populating table" else
      let sigIndex := uint32 (Index sig) in
      l <- functionLink f ;;
      x <- getLabel l ;;
      let addr := uint32 (links.Address x) in (* missing if not generated yet *)
      c <- get ;;
      buf <- lift (binary.PutUint64 (dataArena.buf (roData c)) off
                     (Z.lor (shl64 (uint64 sigIndex) 32) (uint64 addr))) ;;
      modify (set_roData {| dataArena.buf := buf |}) ;;;
      populateTable m rest (off + 8)
  end.

(** The second loop over the functions. *)
Fixpoint genRemainingFunctions (fs : list Function) (funcIndex : nat) (funcMapBuf : list byte) : M (list byte) :=
  match fs with
  | [] => ret funcMapBuf
  | f :: rest =>
      mapAddr <- genFunction funcIndex f ;;
      genRemainingFunctions rest (S funcIndex) (binary.WriteUint32 funcMapBuf (uint32 mapAddr))
  end.

(** The inner loop of the fix-up: overwrite only the function address. *)
Fixpoint updateTableIndexes (indexes : list nat) (invokeAddr : Z) : M unit :=
  match indexes with
  | [] => ret tt
  | tableIndex :: rest =>
      c <- get ;;
      buf <- lift (binary.PutUint32 (dataArena.buf (roData c)) (roTableAddr + tableIndex * 8) invokeAddr) ;;
      modify (set_roData {| dataArena.buf := buf |}) ;;;
      updateTableIndexes rest invokeAddr
  end.

(** The fix-up loop over the functions generated after the start trigger. *)
Fixpoint updateRemainingFunctions (fs : list Function) (funcIndex : nat) : M unit :=
  match fs with
  | [] => ret tt
  | f :: rest =>
      link <- functionLink (FuncRef funcIndex) ;;
      x <- getLabel link ;;
      let invokeAddr := uint32 (links.Address x) in
      updateTableIndexes (TableIndexes f) invokeAddr ;;;
      mach (mop.UpdateCalls link) ;;;
      updateRemainingFunctions rest (S funcIndex)
  end.

Definition newCoder (m : Module_) (roDataAddr_ : Z) : coder :=
  {| module_ := m; textLen := 0; roDataAddr := roDataAddr_;
     roData := {| dataArena.buf := [] |}; callMap := [];
     functionLinks := []; trapEntries := [];
     regsInt := regAllocator.init 0; regsFloat := regAllocator.init 0;
     liveOperands := []; immutableLiveOperands := O;
     targetStack := []; branchTables := [];
     function := emptyFunction; trapTrampolines := [];
     vars := []; pushedLocals := O; stackOffset := 0; maxStackOffset := 0;
     labels := []; operands := [] |}.

(** [m.Code(importImpls, textBuf, roDataAddr, roDataBuf, startTrigger)];
    [startTrigger] tells whether a channel is given. *)
Definition CodeM (m : Module_) (importImpls : list (string * list (string * imports.Function)))
    (startTrigger : bool) : M CodeResult :=
  entries <- newLabels traps.NumTraps ;;
  modify (set_trapEntries entries) ;;;
  trampolines <- newLabels traps.NumTraps ;;
  modify (set_trapTrampolines trampolines) ;;;
  c <- get ;;
  let '(tableAddr, arena) := dataArena.alloc (Z.of_nat (List.length (Table m)) * 8) 8 (roData c) in
  modify (set_roData arena) ;;;
  if negb (tableAddr =? Z.of_nat roTableAddr)
  then panic "table could not be allocated at designated read-only memory offset" else
  initFunctionLinks (Functions m) 0 ;;;
  let startCallable := lookupString (Start m) (NamedCallables m) in
  genTrapEntry traps.MissingFunction ;;; (* at zero address *)
  c <- get ;;
  mach (mop.OpInit (match startCallable with
                    | Some s => assoc s (functionLinks c)
                    | None => None
                    end)) ;;;
  (* start function will return to init code, and will proceed to execute
     the exit trap *)
  genTrapEntries (seq traps.Exit (traps.NumTraps - traps.Exit)) ;;;
  funcMapBuf <- genImports importImpls (Imports m) 0 [] ;;
  modify (set_regsInt (regAllocator.init (AvailableIntRegs mach_))) ;;;
  modify (set_regsFloat (regAllocator.init (AvailableFloatRegs mach_))) ;;;
  '(funcIndex, funcMapBuf) <- genInitialFunctions (Functions m) 0 startCallable funcMapBuf ;;
  populateTable m (Table m) roTableAddr ;;;
  snapshot <-
    (if startTrigger
     then emit mop.CloseStartTrigger ;;; c <- get ;; ret (Some c)
     else ret None) ;;
  funcMapBuf <-
    (if (funcIndex <? List.length (Functions m))%nat then
       let remaining := skipn funcIndex (Functions m) in
       funcMapBuf' <- genRemainingFunctions remaining funcIndex funcMapBuf ;;
       when startTrigger (mach mop.ClearInsnCache ;;; ret tt) ;;;
       updateRemainingFunctions remaining funcIndex ;;;
       when startTrigger (mach mop.ClearInsnCache ;;; ret tt) ;;;
       ret funcMapBuf'
     else ret funcMapBuf) ;;
  fun c tr =>
    OK ({| text := tr; roDataOut := dataArena.buf (roData c); funcMap := funcMapBuf;
           callMapOut := callMap c; atTrigger := snapshot; final := c |}, c, tr).

Definition Code (m : Module_) (importImpls : list (string * list (string * imports.Function)))
    (roDataAddr_ : Z) (startTrigger : bool) : Res CodeResult :=
  match CodeM m importImpls startTrigger (newCoder m roDataAddr_) [] with
  | OK (r, _, _) => OK r
  | Panic msg => Panic msg
  end.

(** ** The expression dispatcher

    [coder.expr] for the expressions this development runs: constants,
    [get_local], the binary operators, [nop], [drop], [return], [call] and
    the branches.  The remaining expressions (unary operators, loads and
    stores, conversions, blocks, loops, [if], [select], the other local and
    memory operators) are not modelled: the dispatcher below answers them
    with the panic ["not modelled"], which the source does not raise. *)

(** [strings.SplitN(s, sep, 2)] for a separator of one character: [None]
    when [s] does not contain it. *)
Fixpoint cut (sep : ascii) (s : string) : option (string * string) :=
  match s with
  | EmptyString => None
  | String a rest =>
      if Ascii.eqb a sep then Some (EmptyString, rest)
      else match cut sep rest with
           | Some (x, y) => Some (String a x, y)
           | None => None
           end
  end.

(** [values.ParseI64(x)] for a string token. *)
Definition ParseI64 (x : string) : Res Z :=
  let s := nonOctalize x in
  match strconv.ParseInt s 64 with
  | Some signed64 => OK (uint64 signed64)
  | None =>
      match strconv.ParseUint s 64 with
      | Some unsigned64 => OK unsigned64
      | None => Panic "ParseI64: invalid syntax"
      end
  end.

(** [values.ParseImm(t, x)]; the float literals are not modelled. *)
Definition ParseImm (t : types.T) (x : sexp) : Res values.Operand :=
  match t, x with
  | types.I32, Str s =>
      match ParseI32 s with OK v => OK (values.ImmBits v) | Panic msg => Panic msg end
  | types.I64, Str s =>
      match ParseI64 s with OK v => OK (values.ImmBits v) | Panic msg => Panic msg end
  | types.F32, _ | types.F64, _ => Panic "not modelled"
  | types.Void, _ => Panic "ParseImm: type"
  | _, Lst _ => Panic "interface conversion: interface {} is not string"
  end.

Definition exprConst (exprName : string) (t : types.T) (args : list sexp) : M values.Operand :=
  match args with
  | [x] => lift (ParseImm t x)
  | _ => panic (exprName ++ ": wrong number of operands")
  end.

(** [code.lookupFunctionVar(name)] *)
Definition lookupFunctionVar (name : string) : M (option (nat * types.T)) :=
  c <- get ;;
  match lookupString name (Vars (function c)) with
  | None => ret None
  | Some v =>
      let index :=
        if Param v then VarIndex v
        else (List.length (Params (function c)) + VarIndex v)%nat in
      ret (Some (index, Type_ v))
  end.

Definition exprGetLocal (exprName : string) (args : list sexp) (getType : types.T) : M values.Operand :=
  match args with
  | [Str varName] =>
      found <- lookupFunctionVar varName ;;
      match found with
      | None => panic (exprName ++ ": variable not found: " ++ varName)
      | Some (index, varType_) =>
          if negb (types.eqb varType_ getType) then panic "getType" else
          v <- getVar index ;;
          match cache v with
          | values.NoOperand | values.VarRegOperand _ _ _ => ret (values.VarOperand index)
          | values.ImmBits _ => ret (cache v)
          | _ => panic "exprGetLocal: cache"
          end
      end
  | [Lst _] => panic "interface conversion: interface {} is not string"
  | _ => panic (exprName ++ ": wrong number of operands")
  end.

Definition exprNop (exprName : string) (args : list sexp) : M unit :=
  match args with
  | [] => ret tt
  | _ => panic (exprName ++ ": wrong number of operands")
  end.

Definition exprDrop (exprName : string) (args : list sexp) (final : bool) : M unit :=
  match args with
  | [x] =>
      '(_, deadend) <- expr x types.Void final [] ;;
      when deadend (mach mop.OpAbort ;;; ret tt)
  | _ => panic (exprName ++ ": wrong number of operands")
  end.

Definition exprReturn (exprName : string) (args : list sexp) : M unit :=
  match args with
  | _ :: _ :: _ => panic (exprName ++ ": too many operands")
  | _ =>
      c <- get ;;
      let expectType := Result (FuncSignature (function c)) in
      let finish :=
        c <- get ;;
        mach (mop.OpAddImmToStackPtr (stackOffset c)) ;;;
        mach mop.OpReturn ;;;
        ret tt in
      match args with
      | [] =>
          if negb (types.eqb expectType types.Void)
          then panic (exprName ++ ": too few operands")
          else finish
      | x :: _ =>
          '(result, deadend) <- expr x expectType true [] ;;
          if deadend then mach mop.OpAbort ;;; ret tt
          else
            when (negb (types.eqb expectType types.Void))
              (opMove expectType (ResultReg mach_) result false ;;; ret tt) ;;;
            finish
      end
  end.

(** The loop of [opPushCallArgs]; the result is [deadend]. *)
Fixpoint opPushCallArgsLoop (sigArgs : list types.T) (args : list sexp) : M bool :=
  match args, sigArgs with
  | [], _ => ret false
  | arg :: rest, t :: sigRest =>
      '(x, deadend) <- expr arg t false [] ;;
      if deadend then mach mop.OpAbort ;;; ret true
      else
        x' <- effectiveOperand x ;;
        mach (mop.OpPush t x') ;;;
        incrementStackOffset ;;;
        opPushCallArgsLoop sigRest rest
  | _ :: _, [] => panic "index out of range"
  end.

(** [opPushCallArgs]: the result is [deadend] and the size of the
    arguments on the stack. *)
Definition opPushCallArgs (exprName : string) (sig : Signature) (args : list sexp) : M (bool * Z) :=
  if negb (Nat.eqb (List.length (Args sig)) (List.length args))
  then panic (exprName ++ ": wrong number of arguments") else
  c <- get ;;
  let initialStackOffset := stackOffset c in
  deadend <- opPushCallArgsLoop (Args sig) args ;;
  (* account for the return address *)
  modify (fun c =>
    let n := stackOffset c + gen.WordSize in
    if n >? maxStackOffset c then set_maxStackOffset n c else c) ;;;
  if deadend then
    modify (set_stackOffset initialStackOffset) ;;;
    ret (true, 0)
  else
    c <- get ;;
    ret (false, stackOffset c - initialStackOffset).

(** [strconv.ParseUint(s, 10, 32)] *)
Definition ParseUint10 (s : string) : option Z :=
  match s with
  | EmptyString => None
  | _ =>
      match strconv.digits 10 0 s with
      | Some v => if v <? 2 ^ 32 then Some v else None
      | None => None
      end
  end.

Definition exprCall (exprName : string) (args : list sexp) (expectType : types.T)
    : M (values.Operand * bool) :=
  match args with
  | [] => panic (exprName ++ ": too few operands")
  | Lst _ :: _ => panic "interface conversion: interface {} is not string"
  | Str funcName :: callArgs =>
      c <- get ;;
      target <-
        match ParseUint10 funcName with
        | Some num =>
            if Z.of_nat (List.length (Functions (module_ c))) <=? num then panic funcName
            else ret (FuncRef (Z.to_nat num))
        | None =>
            match lookupString funcName (NamedCallables (module_ c)) with
            | Some target => ret target
            | None => panic (exprName ++ ": function not found: " ++ funcName)
            end
        end ;;
      sig <- lift (callableSignature (module_ c) target) ;;
      if negb (types.eqb expectType types.Void) && negb (types.eqb (Result sig) expectType)
      then panic "expectType" else
      opSaveTempRegOperands ;;;
      opInitLocals ;;;
      '(deadend, argsSize) <- opPushCallArgs exprName sig callArgs ;;
      if deadend then
        mach mop.OpAbort ;;;
        ret (values.NoOperand, true)
      else
        opStoreRegVars true ;;;
        l <- functionLink target ;;
        mach (mop.OpCall l) ;;;
        opAddImmToStackPtr argsSize ;;;
        if negb (types.eqb expectType types.Void)
        then ret (values.TempRegOperand (ResultReg mach_) false, false)
        else ret (values.NoOperand, false)
  end.

Definition comparisonNames : list string :=
  ["eq"; "ge"; "ge_s"; "ge_u"; "gt"; "gt_s"; "gt_u"; "le"; "le_s"; "le_u"; "lt"; "lt_s"; "lt_u"; "ne"].

Definition arithmeticNames : list string :=
  ["add"; "and"; "div"; "div_s"; "div_u"; "max"; "min"; "mul"; "or"; "rem_s"; "rem_u";
   "rotl"; "rotr"; "shl"; "shr_s"; "shr_u"; "sub"; "xor"].

(** The branch of [expr] for a name with a type prefix (it contains a
    dot). *)
Definition exprTyped (exprName typeName opName0 : string) (args : list sexp)
    (expectType : types.T) : M (values.Operand * bool) :=
  match types.ByString typeName with
  | None => panic ("unknown operand type: " ++ exprName)
  | Some outType0 =>
      '(inType, opName) <-
        match cut "/" exprName with
        | None => ret (outType0, opName0)
        | Some _ =>
            match cut "/" opName0 with
            | None => panic "index out of range"
            | Some (name, typeName') =>
                match types.ByString typeName' with
                | Some t => ret (t, name)
                | None => panic ("unknown target type: " ++ exprName)
                end
            end
        end ;;
      '(outType, (result, deadend)) <-
        (if oneOf opName comparisonNames then
           r <- exprBinaryOp exprName opName inType args ;; ret (types.I32, r)
         else if oneOf opName arithmeticNames then
           r <- exprBinaryOp exprName opName inType args ;; ret (outType0, r)
         else if String.eqb opName "const" then
           r <- exprConst exprName inType args ;; ret (outType0, (r, false))
         else panic "not modelled") ;;
      if types.eqb expectType types.Void then
        Discard outType result ;;;
        ret (values.NoOperand, deadend)
      else if negb (types.eqb outType expectType)
      then panic (exprName ++ ": parent expects another type")
      else ret (result, deadend)
  end.

Definition noSideEffects : list string :=
  ["i32.const"; "i64.const"; "f32.const"; "f64.const"; "get_local"; "nop"; "unreachable"].

(** [coder.expr], with the recursive calls left to [expr]. *)
Definition exprDispatch (x : sexp) (expectType : types.T) (final : bool)
    (save : list liveOperand) : M (values.Operand * bool) :=
  match x with
  | Lst (Str exprName :: args) =>
      let saves := negb (oneOf exprName noSideEffects) in
      when saves (pushLiveOperands save) ;;;
      '(result, deadend, voidResult) <-
        match cut "." exprName with
        | Some (typeName, opName) =>
            '(result, deadend) <- exprTyped exprName typeName opName args expectType ;;
            ret (result, deadend, false)
        | None =>
            if oneOf exprName ["br"; "br_if"; "br_table"] then
              deadend <- exprBr exprName args ;;
              ret (values.NoOperand, deadend, true)
            else if String.eqb exprName "call" then
              '(result, deadend) <- exprCall exprName args expectType ;;
              ret (result, deadend, false)
            else if String.eqb exprName "drop" then
              exprDrop exprName args final ;;;
              ret (values.NoOperand, false, true)
            else if String.eqb exprName "get_local" then
              result <- exprGetLocal exprName args expectType ;;
              ret (result, false, false)
            else if String.eqb exprName "nop" then
              exprNop exprName args ;;;
              ret (values.NoOperand, false, true)
            else if String.eqb exprName "return" then
              exprReturn exprName args ;;;
              ret (values.NoOperand, true, true)
            else panic "not modelled"
        end ;;
      r <-
        match result with
        | values.StackOperand => panic (exprName ++ ": result operand is on the stack")
        | _ =>
            if deadend then
              mach mop.OpAbort ;;;
              ret (values.NoOperand, true)
            else if voidResult && negb (types.eqb expectType types.Void) then
              panic (exprName ++ ": parent expects a value but expression does not yield value")
            else if negb (Bool.eqb (types.eqb expectType types.Void)
                                   (match result with values.NoOperand => true | _ => false end))
            then panic (exprName ++ ": expression type and result differ")
            else ret (result, false)
        end ;;
      when saves (popLiveOperands (rev save)) ;;;
      ret r
  | _ => panic "interface conversion"
  end.

End Coder.

(** * Properties *)

(** ** Packed words and byte buffers *)

Lemma land_shiftl_small (hi lo : Z) :
  0 <= lo < 2 ^ 32 -> Z.land (Z.shiftl hi 32) lo = 0.
Proof.
  intros Hlo. apply Z.bits_inj'. intros n Hn.
  rewrite Z.land_spec, Z.bits_0.
  destruct (Z.ltb_spec n 32).
  - rewrite Z.shiftl_spec by lia. rewrite Z.testbit_neg_r by lia. reflexivity.
  - replace lo with (lo mod 2 ^ 32) by (apply Z.mod_small; lia).
    rewrite Z.mod_pow2_bits_high by lia. apply andb_false_r.
Qed.

(** A packed pair of 32-bit halves is the sum of its halves. *)
Lemma pack_eq (hi lo : Z) :
  0 <= lo < 2 ^ 32 -> 0 <= hi < 2 ^ 32 ->
  Z.lor (shl64 (uint64 hi) 32) (uint64 lo) = hi * 2 ^ 32 + lo.
Proof.
  intros Hlo Hhi. unfold shl64, uint64.
  rewrite (Z.mod_small hi) by lia.
  rewrite (Z.mod_small lo) by lia.
  rewrite Z.shiftl_mul_pow2 by lia.
  rewrite (Z.mod_small (hi * 2 ^ 32)) by lia.
  rewrite <- Z.shiftl_mul_pow2 by lia.
  rewrite <- Z.lxor_lor by (apply land_shiftl_small; lia).
  rewrite <- Z.add_nocarry_lxor by (apply land_shiftl_small; lia).
  rewrite Z.shiftl_mul_pow2 by lia. reflexivity.
Qed.

Lemma uint32_range (x : Z) : 0 <= uint32 x < 2 ^ 32.
Proof. unfold uint32. apply Z.mod_pos_bound. lia. Qed.

Lemma uint32_small (x : Z) : 0 <= x < 2 ^ 32 -> uint32 x = x.
Proof. intros. unfold uint32. apply Z.mod_small. assumption. Qed.

Lemma uint64_small (x : Z) : 0 <= x < 2 ^ 64 -> uint64 x = x.
Proof. intros. unfold uint64. apply Z.mod_small. assumption. Qed.

(** Reading back the two halves of a little-endian 64-bit word. *)
Lemma le_low32 (e : Z) : le_combine (firstn 4 (le_split 8 e)) = e mod 2 ^ 32.
Proof.
  rewrite le_combine_firstn, le_combine_split.
  change (Z.of_nat 8 * 8) with 64. change (8 * Z.of_nat 4) with 32.
  apply Z.mod_mod_divide. exists (2 ^ 32). reflexivity.
Qed.

Lemma le_high32 (e : Z) :
  le_combine (firstn 4 (skipn 4 (le_split 8 e))) = (e / 2 ^ 32) mod 2 ^ 32.
Proof.
  rewrite skipn_le_split by lia.
  change (8 - 4)%nat with 4%nat.
  rewrite firstn_all2 by (rewrite length_le_split; lia).
  rewrite le_combine_split.
  change (8 * Z.of_nat 4) with 32. rewrite Z.shiftr_div_pow2 by lia.
  reflexivity.
Qed.

Lemma skipn_app_exact {A : Type} (a b : list A) : skipn (List.length a) (a ++ b) = b.
Proof. induction a; simpl; auto. Qed.

Lemma skipn_app_plus {A : Type} (a b : list A) (k : nat) :
  skipn (List.length a + k) (a ++ b) = skipn k b.
Proof. induction a; simpl; auto. Qed.

(** ** C1: the call-site map *)

(** The entry which [AddIndirectCallSite] appends holds the return address
    in its low half and the stack offset plus one word in its high half;
    the entries recorded before stay as they are. *)
Lemma AddIndirectCallSite_entry (c : coder) :
  0 <= textLen c < 2 ^ 32 ->
  0 <= stackOffset c + gen.WordSize < 2 ^ 32 ->
  let n := List.length (callMap c) in
  let m := callMap (AddIndirectCallSite c) in
  firstn n m = callMap c /\
  List.length m = (n + 8)%nat /\
  binary.Uint32 m n = textLen c /\
  binary.Uint32 m (n + 4) = stackOffset c + gen.WordSize.
Proof.
  intros Hlen Hoff n m. subst n m.
  unfold AddIndirectCallSite, binary.WriteUint64, binary.Uint32. simpl callMap.
  set (e := uint64 _).
  assert (He : e = (stackOffset c + gen.WordSize) * 2 ^ 32 + textLen c).
  { subst e. rewrite pack_eq by assumption. apply uint64_small. lia. }
  repeat split.
  - rewrite firstn_app, firstn_all, Nat.sub_diag. simpl. apply app_nil_r.
  - rewrite length_app, length_le_split. reflexivity.
  - rewrite skipn_app_exact, le_low32, He.
    rewrite Z.add_comm, Z.mod_add by lia. apply Z.mod_small. assumption.
  - rewrite skipn_app_plus, le_high32, He.
    rewrite Z.div_add_l by lia. rewrite (Z.div_small (textLen c)) by lia.
    rewrite Z.add_0_r. apply Z.mod_small. assumption.
Qed.

Definition emptyModule : Module_ :=
  {| Signatures := []; Imports := []; Functions := []; Table := []; Start := "";
     NamedCallables := []; MemoryMinSize := 0 |}.

(** A coder in the middle of a function: two words on the virtual stack,
    256 bytes of text. *)
Definition callSiteCoder : coder :=
  set_textLen 256 (set_stackOffset 16 (newCoder emptyModule 0)).

(** C1, as the claim states it, fails: with 16 bytes on the virtual stack the
    recorded depth is 24, the offset with the link word included. *)
Lemma C1_recorded_depth_is_not_the_stack_offset :
  binary.Uint32 (callMap (AddIndirectCallSite callSiteCoder)) 4 <> stackOffset callSiteCoder.
Proof. vm_compute. discriminate. Qed.

(** C1 (amended): for every call site recorded in the call-site map, by
    [AddIndirectCallSite] or by [AddCallSite], the recorded pair is the
    return address (the text address after the call instruction) and the
    virtual stack offset at the call plus one word: the link word pushed by
    the call instruction is included in the depth. *)
Theorem C1_call_site_depth_includes_link_word (c : coder) :
  0 <= textLen c < 2 ^ 32 ->
  0 <= stackOffset c + gen.WordSize < 2 ^ 32 ->
  let n := List.length (callMap c) in
  let m := callMap (AddIndirectCallSite c) in
  firstn n m = callMap c /\
  binary.Uint32 m n = textLen c /\
  binary.Uint32 m (n + 4) = stackOffset c + gen.WordSize /\
  forall l c', AddCallSite l c = OK c' -> callMap c' = m.
Proof.
  intros Hlen Hoff n m.
  destruct (AddIndirectCallSite_entry c Hlen Hoff) as (H1 & _ & H2 & H3).
  repeat split; try assumption.
  intros l c' H. unfold AddCallSite in H.
  destruct (nth_error _ l); [|discriminate].
  destruct (links.Address _ =? 0); inversion H; reflexivity.
Qed.

Lemma C1_call_site_depth_witness :
  binary.Uint32 (callMap (AddIndirectCallSite callSiteCoder)) (0 + 4) = 16 + 8.
Proof.
  assert (H1 : 0 <= textLen callSiteCoder < 2 ^ 32)
    by (vm_compute; split; [discriminate | reflexivity]).
  assert (H2 : 0 <= stackOffset callSiteCoder + gen.WordSize < 2 ^ 32)
    by (vm_compute; split; [discriminate | reflexivity]).
  exact (proj1 (proj2 (proj2 (C1_call_site_depth_includes_link_word callSiteCoder H1 H2)))).
Defined.

(** ** Runs of the coder monad *)

Lemma bind_inv {A B : Type} (m : M A) (k : A -> M B) c tr r :
  bind m k c tr = OK r ->
  exists a c1 tr1, m c tr = OK (a, c1, tr1) /\ k a c1 tr1 = OK r.
Proof.
  unfold bind. destruct (m c tr) as [[[a c1] tr1]|msg]; [|discriminate].
  intros H. exists a, c1, tr1. split; [reflexivity | assumption].
Qed.

Lemma ret_inv {A : Type} (a : A) c tr x c' tr' :
  ret a c tr = OK (x, c', tr') -> x = a /\ c' = c /\ tr' = tr.
Proof. unfold ret. intros H. inversion H. auto. Qed.

Lemma get_inv c tr x c' tr' : get c tr = OK (x, c', tr') -> x = c /\ c' = c /\ tr' = tr.
Proof. unfold get. intros H. inversion H. auto. Qed.

Lemma gets_inv {A : Type} (f : coder -> A) c tr x c' tr' :
  gets f c tr = OK (x, c', tr') -> x = f c /\ c' = c /\ tr' = tr.
Proof. unfold gets. intros H. inversion H. auto. Qed.

Lemma modify_inv f c tr x c' tr' : modify f c tr = OK (x, c', tr') -> c' = f c /\ tr' = tr.
Proof. unfold modify. intros H. inversion H. auto. Qed.

Lemma lift_inv {A : Type} (r : Res A) c tr x c' tr' :
  lift r c tr = OK (x, c', tr') -> r = OK x /\ c' = c /\ tr' = tr.
Proof. unfold lift. destruct r; intros H; inversion H. auto. Qed.

Lemma emit_inv op c tr x c' tr' : emit op c tr = OK (x, c', tr') -> c' = c /\ tr' = tr ++ [op].
Proof. unfold emit. intros H. inversion H. auto. Qed.

Lemma panic_inv {A : Type} msg c tr (r : A * coder * list mop.t) : panic msg c tr = OK r -> False.
Proof. unfold panic. discriminate. Qed.

Lemma mach_inv m op c tr x c' tr' :
  mach m op c tr = OK (x, c', tr') -> machOp m op c = OK (x, c') /\ tr' = tr ++ [op].
Proof.
  unfold mach. destruct (machOp m op c) as [[y c1]|]; intros H; inversion H. auto.
Qed.

Lemma getLabel_inv l c tr x c' tr' :
  getLabel l c tr = OK (x, c', tr') -> nth_error (labels c) l = Some x /\ c' = c /\ tr' = tr.
Proof.
  unfold getLabel, bind, get, ret, panic. destruct (nth_error (labels c) l); intros H; inversion H. auto.
Qed.

Lemma loadOperand_inv r c tr x c' tr' :
  loadOperand r c tr = OK (x, c', tr') -> nth_error (operands c) r = Some x /\ c' = c /\ tr' = tr.
Proof.
  unfold loadOperand, bind, get, ret, panic. destruct (nth_error (operands c) r); intros H; inversion H. auto.
Qed.

Lemma getVar_inv i c tr x c' tr' :
  getVar i c tr = OK (x, c', tr') -> nth_error (vars c) i = Some x /\ c' = c /\ tr' = tr.
Proof.
  unfold getVar, bind, get, ret, panic. destruct (nth_error (vars c) i); intros H; inversion H. auto.
Qed.

(** Decompose a successful run into the runs of its parts. *)
Ltac minv_ H :=
  lazymatch type of H with
  | bind _ _ _ _ = OK _ =>
      let a := fresh "a" in let c := fresh "c" in let tr := fresh "tr" in
      let H1 := fresh "H" in
      apply bind_inv in H; destruct H as (a & c & tr & H1 & H);
      minv_ H1; minv_ H
  | ret _ _ _ = OK (_, _, _) =>
      apply ret_inv in H; destruct H as (? & ? & ?); subst
  | get _ _ = OK (_, _, _) =>
      apply get_inv in H; destruct H as (? & ? & ?); subst
  | gets _ _ _ = OK (_, _, _) =>
      apply gets_inv in H; destruct H as (? & ? & ?); subst
  | modify _ _ _ = OK (_, _, _) =>
      apply modify_inv in H; destruct H as (? & ?); subst
  | emit _ _ _ = OK (_, _, _) =>
      apply emit_inv in H; destruct H as (? & ?); subst
  | lift _ _ _ = OK (_, _, _) =>
      apply lift_inv in H; destruct H as (H & ? & ?); subst
  | mach _ _ _ _ = OK (_, _, _) =>
      apply mach_inv in H; destruct H as (H & ?); subst
  | getLabel _ _ _ = OK (_, _, _) =>
      apply getLabel_inv in H; destruct H as (H & ? & ?); subst
  | loadOperand _ _ _ = OK (_, _, _) =>
      apply loadOperand_inv in H; destruct H as (H & ? & ?); subst
  | getVar _ _ _ = OK (_, _, _) =>
      apply getVar_inv in H; destruct H as (H & ? & ?); subst
  | setLabel _ _ _ _ = OK _ => unfold setLabel in H; minv_ H
  | storeOperand _ _ _ _ = OK _ => unfold storeOperand in H; minv_ H
  | setVar _ _ _ _ = OK _ => unfold setVar in H; minv_ H
  | opBranch _ _ _ _ = OK _ => unfold opBranch in H; minv_ H
  | panic _ _ _ = OK _ => apply panic_inv in H; contradiction
  | Len _ _ = OK _ => unfold Len in H; minv_ H
  | when _ _ _ _ = OK _ => unfold when in H
  | (match ?p with _ => _ end) _ _ = OK _ =>
      lazymatch type of p with
      | prod _ _ => first [is_var p; destruct p | destruct p eqn:?]; minv_ H
      | _ => idtac
      end
  | _ = OK ?r =>
      lazymatch r with
      | (_, _, _) => idtac
      | _ => let x := fresh "x" in let c := fresh "c" in let tr := fresh "tr" in
             destruct r as [[x c] tr]; minv_ H
      end
  | _ => idtac
  end.

Tactic Notation "minv" hyp(H) := minv_ H.

(** Case analysis on what the run in [H] branches on. *)
Ltac mcase_ H :=
  lazymatch type of H with
  | (match ?x with _ => _ end) _ _ = OK _ => destruct x eqn:?
  | (if ?x then _ else _) _ _ = OK _ => destruct x eqn:?
  end; minv_ H.

Tactic Notation "mcase" hyp(H) := mcase_ H.

(** ** C3 and C10: constant folding of binary operators *)

Section BinaryOpProperties.
Variable mach_ : Mach.
Variable expr : sexp -> types.T -> bool -> list liveOperand -> M (values.Operand * bool).

Lemma CheckImmValue_imm b t v : values.CheckImmValue b t = OK (Some v) -> isImm b = true.
Proof. destruct b; simpl; intros H; try discriminate; reflexivity. Qed.

Lemma CheckImmValue_ImmOperand b t v :
  values.CheckImmValue b t = OK (Some v) -> values.ImmOperand t 0 = OK (values.ImmBits 0).
Proof.
  destruct b; simpl; try discriminate.
  unfold values.ImmOperand.
  destruct (types.Size t =? types.Size32); [reflexivity|].
  destruct (types.Size t =? types.Size64); [reflexivity|discriminate].
Qed.

Lemma Discard_trace t x c tr y c' tr' :
  Discard mach_ t x c tr = OK (y, c', tr') ->
  tr' = tr \/ tr' = tr ++ [mop.OpAddImmToStackPtr gen.WordSize].
Proof.
  destruct x; simpl; intros H; try (minv H; auto; fail).
  - left. unfold FreeReg, coder_regs, set_coder_regs in H. minv H.
    destruct (types.category t); minv H0; minv H; reflexivity.
  - right. unfold opAddImmToStackPtr in H. minv H. reflexivity.
Qed.

(** C10: an add, or, sub or xor whose right operand evaluates to the
    immediate constant 0 yields the left operand (as it stands once the right
    operand has been evaluated) as its result; the coder and the text are
    those reached by evaluating the two operands: nothing is emitted for the
    operation. *)
Theorem C10_identity_operand_folds_to_left
    (exprName opName : string) (t : types.T) (arg0 arg1 : sexp)
    (c c1 c2 : coder) (tr tr1 tr2 : list mop.t) (a0 a b : values.Operand) :
  oneOf opName ["add"; "or"; "sub"; "xor"] = true ->
  expr arg0 t false [] c tr = OK ((a0, false), c1, tr1) ->
  expr arg1 t false [{| typ := t; ref := List.length (operands c1) |}]
       (set_operands (operands c1 ++ [a0]) c1) tr1 = OK ((b, false), c2, tr2) ->
  nth_error (operands c2) (List.length (operands c1)) = Some a ->
  values.CheckImmValue b t = OK (Some 0) ->
  exprBinaryOp mach_ expr exprName opName t [arg0; arg1] c tr = OK ((a, false), c2, tr2).
Proof.
  intros Hop H0 H1 Ha Hb.
  unfold exprBinaryOp, bind. rewrite H0. unfold newOperand. rewrite H1.
  unfold loadOperand, bind, get. rewrite Ha. unfold ret.
  rewrite (CheckImmValue_imm _ _ _ Hb). rewrite andb_false_r. cbn [andb].
  unfold lift. rewrite Hb. rewrite Hop. reflexivity.
Qed.

(** C3: a div_s whose divisor evaluates to the immediate 1 or -1, and a div_u
    whose divisor evaluates to the immediate 1, yield the immediate constant
    0: after the operands have been evaluated the coder only discards the
    dividend (frees its temporary register, or drops its stack word with one
    stack-pointer adjustment) and requests no division of the backend. *)
Theorem C3_division_by_one_folds_to_zero
    (exprName opName : string) (t : types.T) (arg0 arg1 : sexp)
    (c c1 c2 : coder) (tr tr1 tr2 : list mop.t) (a0 a b : values.Operand) (v : Z) :
  (opName = "div_s" /\ (v = 1 \/ v = -1)) \/ (opName = "div_u" /\ v = 1) ->
  expr arg0 t false [] c tr = OK ((a0, false), c1, tr1) ->
  expr arg1 t false [{| typ := t; ref := List.length (operands c1) |}]
       (set_operands (operands c1 ++ [a0]) c1) tr1 = OK ((b, false), c2, tr2) ->
  nth_error (operands c2) (List.length (operands c1)) = Some a ->
  values.CheckImmValue b t = OK (Some v) ->
  exprBinaryOp mach_ expr exprName opName t [arg0; arg1] c tr =
    (Discard mach_ t a ;;; ret (values.ImmBits 0, false)) c2 tr2 /\
  (forall x c3 tr3, Discard mach_ t a c2 tr2 = OK (x, c3, tr3) ->
     exprBinaryOp mach_ expr exprName opName t [arg0; arg1] c tr =
       OK ((values.ImmBits 0, false), c3, tr3) /\
     (tr3 = tr2 \/ tr3 = tr2 ++ [mop.OpAddImmToStackPtr gen.WordSize])).
Proof.
  intros Hop H0 H1 Ha Hb.
  assert (E : exprBinaryOp mach_ expr exprName opName t [arg0; arg1] c tr =
    (Discard mach_ t a ;;; ret (values.ImmBits 0, false)) c2 tr2).
  { unfold exprBinaryOp, bind. rewrite H0. unfold newOperand. rewrite H1.
    unfold loadOperand, bind, get. rewrite Ha. unfold ret.
    rewrite (CheckImmValue_imm _ _ _ Hb). rewrite andb_false_r. cbn [andb].
    unfold lift. rewrite Hb. rewrite (CheckImmValue_ImmOperand _ _ _ Hb).
    destruct Hop as [[-> Hv]|[-> ->]].
    - cbn [oneOf existsb String.eqb Ascii.eqb Bool.eqb orb].
      destruct Hv as [->| ->]; simpl; reflexivity.
    - cbn. reflexivity. }
  split; [exact E|].
  intros x c3 tr3 HD. split.
  - rewrite E. unfold bind. rewrite HD. reflexivity.
  - eapply Discard_trace. eassumption.
Qed.

End BinaryOpProperties.

(** ** C8: the stack-pointer adjustment of a branch *)

Section BranchProperties.
Variable mach_ : Mach.
Variable expr : sexp -> types.T -> bool -> list liveOperand -> M (values.Operand * bool).

(** What the coder does for a branch before it adjusts the stack pointer:
    temporaries are saved, pending locals pushed, register variables stored. *)
Definition brPrepare : M unit :=
  opSaveTempRegOperands mach_ ;;; opInitLocals mach_ ;;; opStoreRegVars mach_ true.

Lemma branchSites_trace l sites c tr x c' tr' :
  branchSites l sites c tr = OK (x, c', tr') -> tr' = tr.
Proof.
  unfold branchSites. intros H. minv H. mcase H; reflexivity.
Qed.

Lemma exprBrBr_emits target c tr r c' tr' :
  branchTarget.functionEnd target = false ->
  exprBrBr mach_ target c tr = OK (r, c', tr') ->
  exists c1 tr1 addr,
    brPrepare c tr = OK (tt, c1, tr1) /\
    tr' = tr1 ++ [mop.OpAddImmToStackPtr (stackOffset c1 - branchTarget.stackOffset target);
                  mop.OpBranch addr] /\
    r = true.
Proof.
  intros Hfe H. unfold exprBrBr in H. rewrite Hfe in H.
  minv H.
  match goal with H : branchSites _ _ _ _ = OK _ |- _ => apply branchSites_trace in H; subst end.
  repeat match goal with u : unit |- _ => destruct u end.
  eexists _, _, _. split; [|split; [|reflexivity]].
  - unfold brPrepare, bind.
    repeat match goal with H : _ = OK _ |- _ => rewrite H; clear H end. reflexivity.
  - rewrite <- app_assoc. reflexivity.
Qed.

Lemma exprBrArgs_br exprName args a :
  exprBrArgs exprName args = OK a -> br_exprName a = "br" -> tableIndexes a = [].
Proof.
  unfold exprBrArgs. intros H Hn.
  destruct (String.eqb exprName "br") eqn:E1.
  { destruct args as [|d [|v [|]]]; inversion H; reflexivity. }
  destruct (String.eqb exprName "br_if") eqn:E2.
  { destruct args as [|d [|v [|w [|]]]]; inversion H; subst; simpl in Hn;
      apply String.eqb_neq in E1; congruence. }
  destruct (String.eqb exprName "br_table") eqn:E3; [|discriminate].
  destruct (rev args) as [|x [|last rest]]; try discriminate.
  destruct (isList last).
  - destruct rest as [|d indexes]; [discriminate|]. inversion H; subst. simpl in *.
    destruct indexes; [reflexivity|]. apply String.eqb_neq in E1. congruence.
  - inversion H; subst. simpl in *.
    destruct rest; [reflexivity|]. apply String.eqb_neq in E1. congruence.
Qed.

(** C8: a br (also a br_table without table entries, which is lowered as a
    br) to a target which is not the function end, when its operands are no
    dead end, ends the text with the stack-pointer adjustment and the branch;
    the adjustment is the virtual stack offset at that point minus the stack
    offset recorded in the target when it was pushed. *)
Theorem C8_branch_adjusts_stack_pointer
    (exprName : string) (args : list sexp) (a : brArgs) (target : branchTarget.t)
    (c c' : coder) (tr tr' : list mop.t) (deadend : bool) :
  exprBrArgs exprName args = OK a ->
  br_exprName a = "br" ->
  findTarget (defaultIndex a) c tr = OK (target, c, tr) ->
  branchTarget.functionEnd target = false ->
  exprBr mach_ expr exprName args c tr = OK (deadend, c', tr') ->
  deadend = true /\
  ((exists c0 tr0 c1 tr1 addr,
      brPrepare c0 tr0 = OK (tt, c1, tr1) /\
      tr' = tr1 ++ [mop.OpAddImmToStackPtr (stackOffset c1 - branchTarget.stackOffset target);
                    mop.OpBranch addr])
   \/ (exists tr0, tr' = tr0 ++ [mop.OpAbort])).
Proof.
  intros Ha Hbr Hfind Hfe H.
  unfold exprBr in H. minv H.
  rewrite Ha in *. match goal with H : OK _ = OK _ |- _ => inversion H; subst; clear H end.
  rewrite Hfind in *. match goal with H : OK _ = OK _ |- _ => inversion H; subst; clear H end.
  rewrite (exprBrArgs_br _ _ _ Ha Hbr) in *. simpl exprBrTargets in *.
  match goal with H : ret _ _ _ = OK _ |- _ => minv H end.
  match goal with H : (_, _) = (_, _) |- _ => inversion H; subst; clear H end.
  destruct a2 as [valueOperand0|].
  2: { minv H. split; [reflexivity|]. right.
       destruct (valueExpr a0); [|mcase H3; discriminate].
       minv H3. mcase H3; [|discriminate]. eauto. }
  minv H. rewrite Hbr in H. simpl in H.
  match goal with H : (match condExpr _ with _ => _ end) _ _ = OK _ |- _ => rename H into Hc end.
  mcase H.
  { (* the condition is a dead end *)
    split; [reflexivity|]. right.
    destruct (condExpr a0); [|minv Hc; discriminate].
    minv Hc. mcase Hc; [|discriminate]. eauto. }
  match goal with H : exprBrBr _ _ _ _ = OK _ |- _ =>
    apply exprBrBr_emits in H; [|assumption];
    destruct H as (c1' & tr1' & addr & Hp & Htr & Hd)
  end.
  split; [assumption|]. left. eauto 10.
Qed.
End BranchProperties.

(** ** C9: the state at the end of a function *)

Definition cleanAtEnd (c : coder) : Prop :=
  regAllocator.fullyFree (regsInt c) /\
  regAllocator.fullyFree (regsFloat c) /\
  targetStack c = [] /\
  liveOperands c = [] /\
  Forall (fun v => refCount v = 0) (vars c).

Lemma FreeReg_frame t reg c tr x c' tr' :
  FreeReg t reg c tr = OK (x, c', tr') ->
  tr' = tr /\ vars c' = vars c /\ liveOperands c' = liveOperands c /\
  targetStack c' = targetStack c /\ function c' = function c.
Proof.
  unfold FreeReg, coder_regs, set_coder_regs. intros H. minv H.
  destruct (types.category t); minv H0; minv H; auto 6.
Qed.

Lemma varType_frame i c tr x c' tr' :
  varType i c tr = OK (x, c', tr') -> c' = c /\ tr' = tr.
Proof.
  unfold varType. intros H. minv H. mcase H; auto.
Qed.

Lemma nth_error_update_nth_eq {A : Type} (l : list A) i x :
  (i < List.length l)%nat -> nth_error (update_nth i x l) i = Some x.
Proof.
  revert i. induction l; intros [|i] Hi; simpl in *; try lia; auto. apply IHl. lia.
Qed.

Lemma nth_error_update_nth_ne {A : Type} (l : list A) i j x :
  i <> j -> nth_error (update_nth i x l) j = nth_error l j.
Proof.
  revert i j. induction l; intros [|i] [|j] Hij; simpl in *; auto; try congruence.
Qed.

Lemma length_update_nth {A : Type} (l : list A) i x :
  List.length (update_nth i x l) = List.length l.
Proof. revert i. induction l; intros [|i]; simpl; auto. Qed.

Lemma checkVars_ok indexes : forall c tr x c' tr',
  checkVars indexes c tr = OK (x, c', tr') ->
  tr' = tr /\ liveOperands c' = liveOperands c /\ targetStack c' = targetStack c /\
  List.length (vars c') = List.length (vars c) /\
  (forall i v, nth_error (vars c) i = Some v ->
     exists v', nth_error (vars c') i = Some v' /\ refCount v' = refCount v) /\
  (forall i, In i indexes -> exists v, nth_error (vars c) i = Some v /\ refCount v = 0).
Proof.
  induction indexes as [|i rest IH]; intros c tr x c' tr' H; simpl in H.
  - minv H. repeat split; auto. + intros i v Hv. eauto. + intros i [].
  - minv H. mcase H.
    assert (Hf : tr0 = tr /\ vars c0 = vars c /\ liveOperands c0 = liveOperands c /\
                 targetStack c0 = targetStack c).
    { destruct (values.CheckVarReg (cache a)) as [[reg z]|].
      - minv H1. apply varType_frame in H3. destruct H3; subst.
        apply FreeReg_frame in H1. tauto.
      - minv H1. auto. }
    destruct Hf as (-> & Hv & Hl & Ht).
    apply IH in H. simpl in H. destruct H as (-> & Hl' & Ht' & Hn & Hpres & Hzero).
    rewrite length_update_nth in Hn.
    assert (Hi : (i < List.length (vars c0))%nat) by (apply nth_error_Some; congruence).
    rewrite Hv in *.
    assert (Ha : a1 = a) by congruence. subst a1.
    assert (Hra : refCount a = 0) by (apply negb_false_iff in Heqb; lia).
    repeat split; try congruence.
    + intros j v Hj. destruct (Nat.eq_dec i j) as [->|Hne].
      * destruct (Hpres j (varState_reset a)) as (v' & Hv' & Hr).
        { apply nth_error_update_nth_eq. assumption. }
        exists v'. split; [assumption|]. simpl in Hr. congruence.
      * apply Hpres. rewrite nth_error_update_nth_ne by assumption. assumption.
    + intros j [<-|Hj]; [eauto|].
      destruct (Hzero j Hj) as (v & Hv' & Hr).
      destruct (Nat.eq_dec i j) as [->|Hne].
      * eauto.
      * rewrite nth_error_update_nth_ne in Hv' by assumption. eauto.
Qed.

(** C9: when the checks at the end of [genFunction] pass, both register
    pools are fully free, the branch target stack and the live operand list
    are empty and every variable's reference count is zero; the checks emit
    nothing.  Otherwise the coder panics: on a non-zero reference count, on a
    live operand, on a target left on the stack, and on a register still
    allocated once the registers caching variables have been released. *)
Theorem C9_end_of_function_checks (c : coder) (tr : list mop.t) :
  (forall x c' tr', postChecks c tr = OK (x, c', tr') ->
     cleanAtEnd c' /\ tr' = tr /\
     liveOperands c = [] /\ targetStack c = [] /\ Forall (fun v => refCount v = 0) (vars c)) /\
  (~ (liveOperands c = [] /\ targetStack c = [] /\ Forall (fun v => refCount v = 0) (vars c)) ->
     exists msg, postChecks c tr = Panic msg) /\
  (forall x c1 tr1, checkVars (seq 0 (List.length (vars c))) c tr = OK (x, c1, tr1) ->
     ~ (regAllocator.fullyFree (regsInt c1) /\ regAllocator.fullyFree (regsFloat c1)) ->
     exists msg, postChecks c tr = Panic msg).
Proof.
  assert (A : forall x c' tr', postChecks c tr = OK (x, c', tr') ->
     checkVars (seq 0 (List.length (vars c))) c tr = OK (tt, c', tr') /\
     cleanAtEnd c' /\ tr' = tr /\
     liveOperands c = [] /\ targetStack c = [] /\ Forall (fun v => refCount v = 0) (vars c)).
  { intros x c' tr' H. unfold postChecks in H. minv H.
    mcase H. mcase H. rename c0 into c', tr0 into tr'.
    apply negb_false_iff, Nat.eqb_eq, length_zero_iff_nil in Heqb.
    apply negb_false_iff, Nat.eqb_eq, length_zero_iff_nil in Heqb0.
    destruct a.
    pose proof (checkVars_ok _ _ _ _ _ _ H0) as (-> & Hl & Ht & Hn & Hpres & Hzero).
    assert (Hz : forall vs : list varState, 
               (forall i v, nth_error vs i = Some v -> refCount v = 0) ->
               Forall (fun v => refCount v = 0) vs).
    { intros vs Hvs. apply Forall_forall. intros v Hin.
      apply In_nth_error in Hin. destruct Hin as (i & Hi). eauto. }
    assert (Hc : Forall (fun v => refCount v = 0) (vars c)).
    { apply Hz. intros i v Hv.
      destruct (Hzero i) as (v0 & Hv0 & Hr).
      - apply in_seq. split; [lia|]. simpl. apply nth_error_Some. congruence.
      - congruence. }
    assert (Hc' : Forall (fun v => refCount v = 0) (vars c')).
    { apply Hz. intros i v Hv.
      assert (Hi : (i < List.length (vars c))%nat) by (rewrite <- Hn; apply nth_error_Some; congruence).
      destruct (nth_error (vars c) i) as [v0|] eqn:Hv0; [|apply nth_error_None in Hv0; lia].
      destruct (Hpres i v0 Hv0) as (v' & Hv' & Hr).
      rewrite Forall_forall in Hc. apply nth_error_In in Hv0. apply Hc in Hv0. congruence. }
    unfold regAllocator.postCheck in H1, H2.
    destruct (Z.eqb_spec (regAllocator.freed (regsInt c')) (regAllocator.avail (regsInt c'))); [|discriminate].
    destruct (Z.eqb_spec (regAllocator.freed (regsFloat c')) (regAllocator.avail (regsFloat c'))); [|discriminate].
    unfold cleanAtEnd, regAllocator.fullyFree.
    repeat split; try assumption; congruence. }
  split; [|split].
  - intros x c' tr' H. apply A in H. tauto.
  - intros Hnot. destruct (postChecks c tr) as [[[x c'] tr']|msg]; [|eauto].
    exfalso. apply Hnot. destruct (A _ _ _ eq_refl). tauto.
  - intros x c1 tr1 Hcv Hnot.
    destruct (postChecks c tr) as [[[y c'] tr']|msg]; [|eauto].
    exfalso. apply Hnot. destruct (A _ _ _ eq_refl) as (E & (Hi & Hf & _) & _).
    destruct x. rewrite Hcv in E. inversion E; subst. auto.
Qed.

(** ** C5: the function map *)

Section FunctionProperties.
Variable mach_ : Mach.
Variable expr : sexp -> types.T -> bool -> list liveOperand -> M (values.Operand * bool).

Lemma resetLabels_textLen ls : forall c tr x c' tr',
  resetLabels ls c tr = OK (x, c', tr') -> textLen c' = textLen c /\ tr' = tr.
Proof.
  induction ls as [|l rest IH]; intros c tr x c' tr' H; simpl in H; minv H; auto.
  apply IH in H. simpl in H. assumption.
Qed.

Lemma initLocalVars_textLen locals : forall index c tr x c' tr',
  initLocalVars locals index c tr = OK (x, c', tr') -> textLen c' = textLen c /\ tr' = tr.
Proof.
  induction locals as [|t rest IH]; intros index c tr x c' tr' H; simpl in H; minv H; auto.
  apply IH in H. simpl in H. assumption.
Qed.

Lemma genRemainingFunctions_appends fs : forall i buf c tr buf' c' tr',
  genRemainingFunctions mach_ expr fs i buf c tr = OK (buf', c', tr') ->
  exists suffix, buf' = buf ++ suffix.
Proof.
  induction fs as [|f rest IH]; intros i buf c tr buf' c' tr' H; simpl in H; minv H.
  - exists []. symmetry. apply app_nil_r.
  - apply IH in H. destruct H as (suffix & ->).
    unfold binary.WriteUint32. rewrite <- app_assoc. eauto.
Qed.

Lemma genInitialFunctions_appends fs : forall i start buf c tr n buf' c' tr',
  genInitialFunctions mach_ expr fs i start buf c tr = OK ((n, buf'), c', tr') ->
  exists suffix, buf' = buf ++ suffix.
Proof.
  induction fs as [|f rest IH]; intros i start buf c tr n buf' c' tr' H; simpl in H; minv H.
  - inversion H. exists []. symmetry. apply app_nil_r.
  - mcase H.
    + inversion H. unfold binary.WriteUint32. eauto.
    + apply IH in H. destruct H as (suffix & ->).
      unfold binary.WriteUint32. rewrite <- app_assoc. eauto.
Qed.

Lemma Uint32_written buf v suffix :
  binary.Uint32 ((binary.WriteUint32 buf v) ++ suffix) (List.length buf) = uint32 v.
Proof.
  unfold binary.Uint32, binary.WriteUint32. rewrite <- app_assoc, skipn_app_exact.
  rewrite firstn_app, length_le_split, Nat.sub_diag. simpl firstn at 2. rewrite app_nil_r.
  rewrite firstn_all2 by (rewrite length_le_split; lia).
  apply le_combine_split.
Qed.

Lemma uint32_idem (x : Z) : uint32 (uint32 x) = uint32 x.
Proof. unfold uint32. apply Z.mod_mod. lia. Qed.

Lemma genFunction_mapAddr funcIndex f c tr mapAddr c' tr' :
  genFunction mach_ expr funcIndex f c tr = OK (mapAddr, c', tr') -> mapAddr = textLen c.
Proof.
  intros H. unfold genFunction in H. minv H.
  match goal with H : resetLabels _ _ _ = OK _ |- _ =>
    apply resetLabels_textLen in H; destruct H as (Hr & _) end.
  match goal with H : initLocalVars _ _ _ _ = OK _ |- _ =>
    apply initLocalVars_textLen in H; destruct H as (Hi & _) end.
  simpl in *. congruence.
Qed.

(** C5 (amended): the address [genFunction] returns for the function map is
    the text offset at which the function's code begins, that is the text
    length when [genFunction] is entered, before the prologue; both loops of
    [Code] append it to the function map as a little-endian u32.  The entry
    address bound to the function's link is the address the prologue
    returns when the function used stack, and otherwise the end of the stack
    check rounded down to the function alignment. *)
Theorem C5_function_map_holds_start_of_code
    (funcIndex : nat) (f : Function) (c : coder) (tr : list mop.t) :
  (forall mapAddr c' tr',
     genFunction mach_ expr funcIndex f c tr = OK (mapAddr, c', tr') ->
     mapAddr = textLen c /\
     exists c0 r c1 cv l x,
       textLen c0 = textLen c /\
       machOp mach_ mop.OpFunctionPrologue c0 = OK (r, c1) /\
       assoc (FuncRef funcIndex) (functionLinks c') = Some l /\
       nth_error (labels c') l = Some x /\
       links.Address x =
         if maxStackOffset cv >? 0 then r_int r
         else Z.ldiff (textLen c1) (FunctionAlignment mach_ - 1)) /\
  (forall rest start buf n buf' c' tr',
     genInitialFunctions mach_ expr (f :: rest) funcIndex start buf c tr = OK ((n, buf'), c', tr') ->
     binary.Uint32 buf' (List.length buf) = uint32 (textLen c)) /\
  (forall rest buf buf' c' tr',
     genRemainingFunctions mach_ expr (f :: rest) funcIndex buf c tr = OK (buf', c', tr') ->
     binary.Uint32 buf' (List.length buf) = uint32 (textLen c)).
Proof.
  split; [|split].
  - intros mapAddr c' tr' H. split; [eapply genFunction_mapAddr; eassumption|].
    unfold genFunction in H. minv H.
    match goal with H : resetLabels _ _ _ = OK _ |- _ =>
      apply resetLabels_textLen in H; destruct H as (Hr & _) end.
    match goal with H : initLocalVars _ _ _ _ = OK _ |- _ =>
      apply initLocalVars_textLen in H; destruct H as (Hi & _) end.
    simpl in Hr, Hi.
    match goal with H : functionLink _ _ _ = OK _ |- _ =>
      unfold functionLink in H; minv H; mcase H end.
    match goal with
    | Hp : machOp mach_ mop.OpFunctionPrologue ?c0 = OK (?r, ?c1),
      H : (if maxStackOffset ?cv >? 0 then _ else _) _ _ = OK (?a, _, _) |- _ =>
        assert (Hentry : a = if maxStackOffset cv >? 0 then r_int r
                             else Z.ldiff (textLen c1) (FunctionAlignment mach_ - 1))
          by (mcase H; reflexivity);
        exists c0, r, c1, cv
    end.
    simpl.
    match goal with Hl : assoc _ _ = Some ?l |- _ => exists l end.
    eexists. split; [congruence|split; [assumption|split; [assumption|split]]].
    + apply nth_error_update_nth_eq. apply nth_error_Some. simpl in *. congruence.
    + simpl. assumption.
  - intros rest start buf n buf' c' tr' H. simpl in H. minv H.
    match goal with H : genFunction _ _ _ _ _ _ = OK _ |- _ =>
      apply genFunction_mapAddr in H; subst end.
    mcase H.
    + inversion H. rewrite <- (app_nil_r (binary.WriteUint32 _ _)).
      rewrite Uint32_written. apply uint32_idem.
    + apply genInitialFunctions_appends in H. destruct H as (suffix & ->).
      rewrite Uint32_written. apply uint32_idem.
  - intros rest buf buf' c' tr' H. simpl in H. minv H.
    match goal with H : genFunction _ _ _ _ _ _ = OK _ |- _ =>
      apply genFunction_mapAddr in H; subst end.
    apply genRemainingFunctions_appends in H. destruct H as (suffix & ->).
    rewrite Uint32_written. apply uint32_idem.
Qed.
End FunctionProperties.

(** ** Writes into byte buffers *)

Lemma put_nth_error buf off bs buf' i :
  binary.put buf off bs = OK buf' ->
  nth_error buf' i =
    if ((off <=? i) && (i <? off + List.length bs))%nat then nth_error bs (i - off)
    else nth_error buf i.
Proof.
  unfold binary.put. destruct (Nat.leb_spec (off + List.length bs) (List.length buf)); [|discriminate].
  intros E. inversion E; subst; clear E.
  destruct (Nat.leb_spec off i); simpl.
  - rewrite nth_error_app2 by (rewrite length_firstn; lia).
    rewrite length_firstn, Nat.min_l by lia.
    destruct (Nat.ltb_spec i (off + List.length bs)).
    + rewrite nth_error_app1 by lia. reflexivity.
    + rewrite nth_error_app2 by lia. rewrite nth_error_skipn. f_equal. lia.
  - rewrite nth_error_app1 by (rewrite length_firstn; lia).
    rewrite nth_error_firstn. destruct (Nat.ltb_spec i off); [reflexivity|lia].
Qed.

Lemma put_length buf off bs buf' :
  binary.put buf off bs = OK buf' -> List.length buf' = List.length buf.
Proof.
  unfold binary.put. destruct (Nat.leb_spec (off + List.length bs) (List.length buf)); [|discriminate].
  intros E. inversion E; subst; clear E.
  rewrite !length_app, length_firstn, length_skipn. lia.
Qed.

Lemma window_ext (a b : list byte) o n :
  List.length a = List.length b ->
  (forall k, (k < n)%nat -> nth_error a (o + k) = nth_error b (o + k)) ->
  firstn n (skipn o a) = firstn n (skipn o b).
Proof.
  intros Hl H. apply nth_error_ext. intros k.
  rewrite !nth_error_firstn. destruct (Nat.ltb_spec k n); [|reflexivity].
  rewrite !nth_error_skipn. apply H. assumption.
Qed.

Lemma put_window_same buf off bs buf' :
  binary.put buf off bs = OK buf' -> firstn (List.length bs) (skipn off buf') = bs.
Proof.
  intros H. apply nth_error_ext. intros k.
  rewrite nth_error_firstn. destruct (Nat.ltb_spec k (List.length bs)).
  - rewrite nth_error_skipn, (put_nth_error _ _ _ _ _ H).
    destruct (Nat.leb_spec off (off + k)); [|lia].
    destruct (Nat.ltb_spec (off + k) (off + List.length bs)); [|lia].
    simpl. f_equal. lia.
  - symmetry. apply nth_error_None. lia.
Qed.

Lemma put_window_other buf off bs buf' o n :
  binary.put buf off bs = OK buf' ->
  (o + n <= off \/ off + List.length bs <= o)%nat ->
  firstn n (skipn o buf') = firstn n (skipn o buf).
Proof.
  intros H Hd. apply window_ext.
  - eapply put_length. eassumption.
  - intros k Hk. rewrite (put_nth_error _ _ _ _ _ H).
    destruct (Nat.leb_spec off (o + k)); simpl; [|reflexivity].
    destruct (Nat.ltb_spec (o + k) (off + List.length bs)); [lia|reflexivity].
Qed.

(** ** C6: branch tables *)

Lemma uint64_pack_range (hi lo : Z) :
  0 <= lo < 2 ^ 32 -> 0 <= hi < 2 ^ 32 -> 0 <= hi * 2 ^ 32 + lo < 2 ^ 64.
Proof. intros. change (2 ^ 64) with (2 ^ 32 * 2 ^ 32). nia. Qed.

(** The two halves of a packed table entry as its readers see them. *)
Lemma packed_entry_halves (delta addr : Z) (bs : list byte) :
  bs = le_split 8 (Z.lor (shl64 (uint64 (uint32 delta)) 32) (uint64 (uint32 addr))) ->
  le_combine (firstn 4 bs) = uint32 addr /\
  le_combine (firstn 4 (skipn 4 bs)) = uint32 delta.
Proof.
  intros ->.
  pose proof (uint32_range delta). pose proof (uint32_range addr).
  rewrite pack_eq by assumption.
  rewrite le_low32, le_high32. split.
  - rewrite Z.add_comm, Z.mod_add by lia. apply Z.mod_small. assumption.
  - rewrite Z.div_add_l by lia. rewrite (Z.div_small (uint32 addr)) by lia.
    rewrite Z.add_0_r. apply Z.mod_small. assumption.
Qed.

(** The size and the bytes of an entry as [genFunction] writes it. *)
Definition entrySize (table : branchTable.t) : nat :=
  if branchTable.codeStackOffset table <? 0 then 4%nat else 8%nat.

Definition entryBytes (table : branchTable.t) (target : branchTarget.t) (finalAddress : Z) : list byte :=
  if branchTable.codeStackOffset table <? 0
  then le_split 4 (uint32 finalAddress)
  else le_split 8 (Z.lor (shl64 (uint64 (uint32 (branchTable.codeStackOffset table -
                                                  branchTarget.stackOffset target))) 32)
                         (uint64 (uint32 finalAddress))).

Lemma length_entryBytes table target addr :
  List.length (entryBytes table target addr) = entrySize table.
Proof.
  unfold entryBytes, entrySize. destruct (_ <? 0); apply length_le_split.
Qed.

Lemma FinalAddress_inv lab a : links.FinalAddress lab = OK a -> a = links.Address lab /\ a <> 0.
Proof.
  unfold links.FinalAddress. destruct (Z.eqb_spec (links.Address lab) 0); [discriminate|].
  intros H. inversion H. auto.
Qed.

Lemma patchBranchTable_step table target rest off c tr x c' tr' :
  0 <= off ->
  patchBranchTable table (target :: rest) off c tr = OK (x, c', tr') ->
  exists lab buf1,
    nth_error (labels c) (branchTarget.label target) = Some lab /\
    links.Address lab <> 0 /\
    binary.put (dataArena.buf (roData c)) (Z.to_nat off) (entryBytes table target (links.Address lab)) = OK buf1 /\
    patchBranchTable table rest (off + Z.of_nat (entrySize table))
      (set_roData {| dataArena.buf := buf1 |} c) tr = OK (x, c', tr').
Proof.
  intros Hoff H. simpl in H. minv H.
  match goal with H : links.FinalAddress _ = OK _ |- _ =>
    apply FinalAddress_inv in H; destruct H as (-> & Hnz) end.
  destruct (Z.ltb_spec off 0); [lia|].
  unfold entryBytes, entrySize.
  destruct (branchTable.codeStackOffset table <? 0); minv H;
    unfold binary.PutUint32, binary.PutUint64 in *; eauto 10.
Qed.

Lemma patchBranchTable_entries (table : branchTable.t) :
  forall targets off c tr x c' tr',
    0 <= off ->
    patchBranchTable table targets off c tr = OK (x, c', tr') ->
    labels c' = labels c /\ tr' = tr /\
    List.length (dataArena.buf (roData c')) = List.length (dataArena.buf (roData c)) /\
    (forall o n, (o + n <= Z.to_nat off)%nat ->
       firstn n (skipn o (dataArena.buf (roData c'))) = firstn n (skipn o (dataArena.buf (roData c)))) /\
    (forall i target, nth_error targets i = Some target ->
       exists lab, nth_error (labels c) (branchTarget.label target) = Some lab /\
         links.Address lab <> 0 /\
         firstn (entrySize table) (skipn (Z.to_nat off + entrySize table * i) (dataArena.buf (roData c'))) =
           entryBytes table target (links.Address lab)).
Proof.
  induction targets as [|target rest IH]; intros off c tr x c' tr' Hoff H.
  - simpl in H. minv H. repeat split; auto. intros [|i] t Ht; discriminate.
  - apply patchBranchTable_step in H; [|assumption].
    destruct H as (lab & buf1 & Hlab & Hnz & Hput & H).
    apply IH in H; [|lia]. simpl in H.
    destruct H as (Hl & Htr & Hlen & Hbefore & Hentries).
    assert (Hto : Z.to_nat (off + Z.of_nat (entrySize table)) = (Z.to_nat off + entrySize table)%nat) by lia.
    rewrite Hto in *.
    repeat split; try assumption.
    + rewrite Hlen. eapply put_length. eassumption.
    + intros o n Hon. rewrite Hbefore by lia.
      eapply put_window_other; [eassumption|]. left. assumption.
    + intros [|i] t Ht; simpl in Ht.
      * inversion Ht; subst t. exists lab. repeat split; try assumption.
        rewrite Nat.mul_0_r, Nat.add_0_r. rewrite Hbefore by lia.
        rewrite <- (length_entryBytes table target (links.Address lab)).
        eapply put_window_same. eassumption.
      * destruct (Hentries i t Ht) as (lab' & Hlab' & Hnz' & Hw).
        exists lab'. repeat split; try assumption.
        rewrite <- Hw. f_equal. f_equal. lia.
Qed.

Lemma FreeReg_inv t reg c tr x c' tr' :
  FreeReg t reg c tr = OK (x, c', tr') ->
  tr' = tr /\ ((exists ra, c' = set_regsInt ra c) \/ (exists ra, c' = set_regsFloat ra c)).
Proof.
  unfold FreeReg, coder_regs, set_coder_regs. intros H. minv H.
  destruct (types.category t); minv H0; minv H; eauto.
Qed.

Lemma FreeReg_branchTables t reg c tr x c' tr' :
  FreeReg t reg c tr = OK (x, c', tr') -> branchTables c' = branchTables c.
Proof.
  intros H. apply FreeReg_inv in H. destruct H as (_ & [(ra & ->)|(ra & ->)]); reflexivity.
Qed.

Lemma commonOffset_spec (x : Z) (rest : list branchTarget.t) :
  0 <= x ->
  (commonOffset x rest = x /\ Forall (fun t => branchTarget.stackOffset t = x) rest) \/
  (commonOffset x rest = -1 /\ ~ Forall (fun t => branchTarget.stackOffset t = x) rest).
Proof.
  intros Hx. induction rest as [|t rest IH]; simpl.
  - left. auto.
  - destruct (Z.eqb_spec (branchTarget.stackOffset t) x) as [E|E]; simpl.
    + destruct IH as [(H1 & H2)|(H1 & H2)].
      * left. auto.
      * right. split; [assumption|]. intros HF. inversion HF; subst. contradiction.
    + right. split; [reflexivity|]. intros HF. inversion HF; subst. contradiction.
Qed.

Lemma alloc_addr_nonneg size alignment a :
  0 < alignment -> 0 <= fst (dataArena.alloc size alignment a).
Proof.
  intros Ha. unfold dataArena.alloc. simpl.
  pose proof (Z.mod_pos_bound (alignment - Z.of_nat (List.length (dataArena.buf a)) mod alignment) alignment Ha).
  lia.
Qed.

Section BranchTableProperties.
Variable mach_ : Mach.

(** The backend's OpAddImmToStackPtr only emits an instruction: the virtual
    stack offset is adjusted by [coder.opAddImmToStackPtr], not by it. *)
Definition emitsOnly : Prop :=
  forall off c0 r0 c1, machOp mach_ (mop.OpAddImmToStackPtr off) c0 = OK (r0, c1) ->
    stackOffset c1 = stackOffset c0.

Lemma opBranchIfOutOfBounds_trace reg n l c tr x c' tr' :
  opBranchIfOutOfBounds mach_ reg n l c tr = OK (x, c', tr') ->
  exists lab, nth_error (labels c) l = Some lab /\
    tr' = tr ++ [mop.OpBranchIfOutOfBounds reg n (links.Address lab)].
Proof.
  unfold opBranchIfOutOfBounds. intros H. minv H.
  match goal with H : branchSites _ _ _ _ = OK _ |- _ => apply branchSites_trace in H; subst end.
  eauto.
Qed.

(** The text [exprBrTable] ends with: the dispatch of the branch table. *)
Definition brTableDispatch (defaultDelta : Z) (reg : regs.R) (reg2 : option regs.R)
    (regZeroExt loadZeroExt : bool) (count defaultAddr tableAddr : Z)
    (tableStackOffset commonStackOffset : Z) : list mop.t :=
  [mop.OpAddImmToStackPtr defaultDelta;
   mop.OpBranchIfOutOfBounds reg count defaultAddr] ++
  match reg2 with
  | None =>
      [mop.OpLoadROIntIndex32ScaleDisp types.I32 reg regZeroExt 2 tableAddr;
       mop.OpAddImmToStackPtr (tableStackOffset - commonStackOffset);
       mop.OpBranchIndirect32 reg loadZeroExt]
  | Some r2 =>
      [mop.OpLoadROIntIndex32ScaleDisp types.I64 reg regZeroExt 3 tableAddr;
       mop.OpMoveReg types.I64 r2 reg;
       mop.OpShiftRightLogical32Bits r2;
       mop.OpAddToStackPtr r2;
       mop.OpBranchIndirect32 reg false]
  end.

(** What [exprBrTable] records for the table it lowers, and what it emits. *)
Lemma exprBrTable_inv defaultTarget first rest pcond c tr r c' tr' :
  emitsOnly ->
  exprBrTable mach_ defaultTarget (first :: rest) pcond c tr = OK (r, c', tr') ->
  let common := commonOffset (branchTarget.stackOffset first) rest in
  exists front table cp trp reg reg2 regZeroExt loadZeroExt cq lab,
    branchTables c' = front ++ [table] /\
    branchTable.targets table = first :: rest /\
    0 <= branchTable.roDataAddr table /\
    branchTable.codeStackOffset table =
      (if common <? 0 then branchTarget.stackOffset defaultTarget else -1) /\
    ((common <? 0) = true <-> exists r2, reg2 = Some r2) /\
    nth_error (labels cq) (branchTarget.label defaultTarget) = Some lab /\
    tr' = trp ++ brTableDispatch (stackOffset cp - branchTarget.stackOffset defaultTarget)
                   reg reg2 regZeroExt loadZeroExt
                   (Z.of_nat (List.length (first :: rest))) (links.Address lab)
                   (branchTable.roDataAddr table)
                   (branchTarget.stackOffset defaultTarget) common.
Proof.
  intros Hmach H common. unfold exprBrTable in H. fold common in H.
  assert (Hfree : forall (b : bool) t0 r0 c0 tr0 x c1 tr1,
            (if b then FreeReg t0 r0 else ret tt) c0 tr0 = OK (x, c1, tr1) ->
            branchTables c1 = branchTables c0 /\ tr1 = tr0).
  { intros [|] t0 r0 c0 tr0 x c1 tr1 HF.
    - split; [eapply FreeReg_branchTables; eassumption|].
      apply FreeReg_inv in HF. tauto.
    - minv HF. auto. }
  assert (Hfree2 : forall (o : option regs.R) c0 tr0 x c1 tr1,
            match o with Some r2 => FreeReg types.I32 r2 | None => ret tt end c0 tr0 = OK (x, c1, tr1) ->
            branchTables c1 = branchTables c0 /\ tr1 = tr0).
  { intros [r2|] c0 tr0 x c1 tr1 HF.
    - split; [eapply FreeReg_branchTables; eassumption|].
      apply FreeReg_inv in HF. tauto.
    - minv HF. auto. }
  pose proof (alloc_addr_nonneg) as Haddr.
  destruct (Z.ltb_spec common 0) as [Hneg|Hpos].
  - (* no common offset *)
    assert (Hge : (common >=? 0) = false) by lia. rewrite Hge in H.
    minv H.
    repeat match goal with
    | H : (if _ then FreeReg _ _ else ret tt) _ _ = OK _ |- _ =>
        apply Hfree in H; destruct H as (? & ?)
    | H : FreeReg _ _ _ _ = OK _ |- _ =>
        pose proof (FreeReg_branchTables _ _ _ _ _ _ _ H); apply FreeReg_inv in H; destruct H as (? & _)
    | H : opBranchIfOutOfBounds _ _ _ _ _ _ = OK _ |- _ =>
        apply opBranchIfOutOfBounds_trace in H; destruct H as (lab & Hlab & ?)
    end; subst.
    match goal with
    | Hp : machOp mach_ (mop.OpAddImmToStackPtr (stackOffset ?cp - _)) ?cp = OK (_, ?cq),
      Hm : machOp mach_ (mop.OpMoveReg _ ?r2 ?reg) _ = OK _,
      Hl : machOp mach_ (mop.OpLoadROIntIndex32ScaleDisp _ _ ?z _ _) _ = OK _,
      Hs : opStoreRegVars mach_ true _ _ = OK (_, _, ?trp),
      Ha : dataArena.alloc ?size ?al ?ar = (?addr, _) |- _ =>
        pose proof (Hmach _ _ _ _ Hp) as Hso;
        specialize (Haddr size al ar); rewrite Ha in Haddr; simpl in Haddr;
        eexists _, _, cp, trp, reg, (Some r2), z, false, cq, lab
    end.
    simpl in *.
    split; [match goal with
            | E1 : branchTables ?x = branchTables ?y, E2 : branchTables ?y = _ ++ [_]
              |- branchTables ?x = _ => rewrite E1, E2; reflexivity
            end|].
    simpl. split; [reflexivity|]. split; [apply Haddr; reflexivity|].
    split; [lia|]. split; [split; eauto|].
    split; [assumption|].
    unfold brTableDispatch. repeat rewrite <- app_assoc. reflexivity.
  - (* common offset *)
    assert (Hge : (common >=? 0) = true) by lia. rewrite Hge in H.
    assert (Hlt : (common <? 0) = false) by lia.
    minv H. try rewrite Hlt in *.
    repeat match goal with
    | H : ret _ _ _ = OK _ |- _ => minv H
    | H : (if _ then FreeReg _ _ else ret tt) _ _ = OK _ |- _ =>
        apply Hfree in H; destruct H as (? & ?)
    | H : FreeReg _ _ _ _ = OK _ |- _ =>
        pose proof (FreeReg_branchTables _ _ _ _ _ _ _ H); apply FreeReg_inv in H; destruct H as (? & _)
    | H : opBranchIfOutOfBounds _ _ _ _ _ _ = OK _ |- _ =>
        apply opBranchIfOutOfBounds_trace in H; destruct H as (lab & Hlab & ?)
    end; subst.
    match goal with
    | Hp : machOp mach_ (mop.OpAddImmToStackPtr (stackOffset ?cp - branchTarget.stackOffset defaultTarget)) ?cp = OK (_, ?cq),
      Hl : machOp mach_ (mop.OpLoadROIntIndex32ScaleDisp _ ?reg ?z _ _) _ = OK (?rl, _),
      Hs : opStoreRegVars mach_ true _ _ = OK (_, _, ?trp),
      Ha : dataArena.alloc ?size ?al ?ar = (?addr, _) |- _ =>
        pose proof (Hmach _ _ _ _ Hp) as Hso;
        specialize (Haddr size al ar); rewrite Ha in Haddr; simpl in Haddr;
        eexists _, _, cp, trp, reg, None, z, (r_bool rl), cq, lab
    end.
    simpl in *.
    split; [match goal with
            | E2 : branchTables ?y = _ ++ [_] |- branchTables ?y = _ => rewrite E2; reflexivity
            end|].
    simpl. split; [reflexivity|]. split; [apply Haddr; reflexivity|].
    split; [reflexivity|]. split; [split; [discriminate|intros (r2 & Hr2); discriminate]|].
    split; [assumption|].
    unfold brTableDispatch. repeat rewrite <- app_assoc. simpl.
    repeat f_equal. lia.
Qed.

(** C6: a lowered br_table gets a table whose entries, once genFunction has
    patched them, are 4 bytes holding the target address when every table
    target has the same stack offset, and otherwise 8 bytes holding the
    address in the low half and, in the high half, the stack offset at the
    table load (that of the default target, to which the stack pointer has
    been moved) minus the offset of the entry's target. *)
Theorem C6_branch_table_entry_layout defaultTarget first rest pcond c tr r c' tr' :
  emitsOnly ->
  0 <= branchTarget.stackOffset first ->
  0 <= branchTarget.stackOffset defaultTarget ->
  exprBrTable mach_ defaultTarget (first :: rest) pcond c tr = OK (r, c', tr') ->
  exists front table,
    branchTables c' = front ++ [table] /\
    branchTable.targets table = first :: rest /\
    forall cg trg x cg' trg',
      patchBranchTable table (branchTable.targets table) (branchTable.roDataAddr table) cg trg
        = OK (x, cg', trg') ->
      forall i target, nth_error (first :: rest) i = Some target ->
      exists lab,
        nth_error (labels cg) (branchTarget.label target) = Some lab /\
        let buf := dataArena.buf (roData cg') in
        let base := Z.to_nat (branchTable.roDataAddr table) in
        if forallb (fun t => branchTarget.stackOffset t =? branchTarget.stackOffset first) rest
        then
          entrySize table = 4%nat /\
          firstn 4 (skipn (base + 4 * i) buf) = le_split 4 (uint32 (links.Address lab))
        else
          entrySize table = 8%nat /\
          binary.Uint32 buf (base + 8 * i) = uint32 (links.Address lab) /\
          binary.Uint32 buf (base + 8 * i + 4) =
            uint32 (branchTarget.stackOffset defaultTarget - branchTarget.stackOffset target).
Proof.
  intros Hmach Hfirst Hdef H.
  apply exprBrTable_inv in H; [|assumption].
  destruct H as (front & table & cp & trp & reg & reg2 & rz & lz & cq & lab0 &
                 Hbt & Htg & Haddr & Hcso & _ & _ & _).
  exists front, table. split; [assumption|]. split; [assumption|].
  intros cg trg x cg' trg' Hpatch i target Hi.
  apply patchBranchTable_entries in Hpatch; [|assumption].
  destruct Hpatch as (_ & _ & _ & _ & Hentries).
  rewrite Htg in Hentries. destruct (Hentries i target Hi) as (lab & Hlab & _ & Hw).
  exists lab. split; [assumption|]. cbv zeta.
  assert (Hall : forallb (fun t => branchTarget.stackOffset t =? branchTarget.stackOffset first) rest = true
                 <-> Forall (fun t => branchTarget.stackOffset t = branchTarget.stackOffset first) rest).
  { rewrite forallb_forall, Forall_forall. split; intros HA t Ht; specialize (HA t Ht); lia. }
  destruct (commonOffset_spec (branchTarget.stackOffset first) rest Hfirst) as [(Hc & HF)|(Hc & HF)];
    rewrite Hc in Hcso.
  - apply Hall in HF. rewrite HF.
    destruct (Z.ltb_spec (branchTarget.stackOffset first) 0); [lia|].
    unfold entrySize, entryBytes in *. rewrite Hcso in *. simpl in *.
    split; [reflexivity|]. assumption.
  - destruct (forallb _ rest) eqn:E; [exfalso; apply HF, Hall; reflexivity|].
    change (-1 <? 0) with true in Hcso. cbv iota in Hcso.
    unfold entrySize, entryBytes in *. rewrite Hcso in *.
    destruct (Z.ltb_spec (branchTarget.stackOffset defaultTarget) 0); [lia|].
    split; [reflexivity|].
    destruct (packed_entry_halves _ _ _ Hw) as (Hlo & Hhi).
    unfold binary.Uint32. split.
    + rewrite <- Hlo. rewrite firstn_firstn. reflexivity.
    + rewrite <- Hhi. rewrite skipn_firstn_comm.
      change (8 - 4)%nat with 4%nat. rewrite firstn_firstn, skipn_skipn.
      change (Nat.min 4 4) with 4%nat. do 3 f_equal. lia.
Qed.

End BranchTableProperties.

(** * The x86-64 backend: the instructions of the branch-table dispatch

    The operations of the backend (part_002) that [exprBr] uses for a
    br_table, as the instruction sequences they emit, and what those
    instructions do to the registers and the condition flags. *)

Module x86.

Definition RegResult : regs.R := 0%nat.
Definition RegScratch : regs.R := 2%nat.   (* rdx *)
Definition RegStackPtr : regs.R := 4%nat.  (* rsp *)
Definition RegTextBase : regs.R := 12%nat. (* r12 *)

(** [availRegs]: rcx, rbx, rbp, rsi, rdi, r8, r10, r11. *)
Definition availRegs : list regs.R := [1; 3; 5; 6; 7; 8; 10; 11]%nat.

(** A register that can hold an integer operand: an allocated one, or the
    result register. *)
Definition operandReg (r : regs.R) : bool :=
  Nat.eqb r RegResult || existsb (Nat.eqb r) availRegs.

(** Modelled from the spec: the instruction encoders ([mov], [test], [cmp],
    [add], ...) are not among the sources; an instruction is named by its
    mnemonic, the operand type it is given and its operands, in the order of
    the encoder's arguments (target first). *)
Inductive insn : Type :=
| movImm (t : types.T) (target : regs.R) (imm : Z)
| mov (t : types.T) (target source : regs.R)
| movFromAddr (t : types.T) (target : regs.R) (scale : Z) (index : regs.R) (disp : Z)
| test (t : types.T) (target source : regs.R)
| cmovl (t : types.T) (target source : regs.R)
| cmp (t : types.T) (target source : regs.R)
| add (t : types.T) (target source : regs.R)
| addImm (t : types.T) (target : regs.R) (imm : Z)
| shrImm (t : types.T) (target : regs.R) (count : Z)
| jle (addr : Z)
| jmp (target : regs.R).

Definition opCompareBounds (indexReg : regs.R) (upperBound : Z) : list insn :=
  [movImm types.I32 RegScratch upperBound;
   test types.I32 indexReg indexReg;
   cmovl types.I32 indexReg RegScratch; (* negative index -> upper bound *)
   cmp types.I32 RegScratch indexReg].

(** The instructions of an operation; [RODataAddr] is where the read-only
    data is mapped.  [None] for a panic ([OpMoveReg] on one register) and
    for the operations the dispatch does not use. *)
Definition assemble (RODataAddr : Z) (op : mop.t) : option (list insn) :=
  match op with
  | mop.OpAddImmToStackPtr offset =>
      Some (if offset =? 0 then [] else [addImm types.I64 RegStackPtr offset])
  | mop.OpAddToStackPtr source =>
      Some [add types.I64 RegStackPtr source]
  | mop.OpBranchIfOutOfBounds indexReg upperBound addr =>
      Some (opCompareBounds indexReg upperBound ++ [jle addr])
  | mop.OpBranchIndirect32 reg regZeroExt =>
      Some ((if regZeroExt then [] else [mov types.I32 reg reg]) ++
            [add types.I64 reg RegTextBase; jmp reg])
  | mop.OpLoadROIntIndex32ScaleDisp t reg regZeroExt scale addr =>
      Some ((if regZeroExt then [] else [mov types.I32 reg reg]) ++
            [movFromAddr t reg scale reg (RODataAddr + addr)])
  | mop.OpMoveReg t targetReg sourceReg =>
      if Nat.eqb targetReg sourceReg then None
      else match types.category t with
           | types.Int => Some [mov t targetReg sourceReg]
           | _ => None
           end
  | mop.OpShiftRightLogical32Bits subject =>
      Some [shrImm types.I64 subject 32]
  | _ => None
  end.

(** ** The processor *)

Definition width (t : types.T) : Z := 8 * types.Size t.
Definition trunc (w x : Z) : Z := x mod 2 ^ w.
Definition signed (w x : Z) : Z :=
  let u := trunc w x in if u <? 2 ^ (w - 1) then u else u - 2 ^ w.

Record flags : Type := { ZF : bool; SF : bool; OF : bool }.

(** The flags of a result [res] (not yet truncated) of width [w]. *)
Definition flagsOf (w res : Z) (overflow : bool) : flags :=
  {| ZF := trunc w res =? 0; SF := signed w res <? 0; OF := overflow |}.

(** Conditions l (SF <> OF) and le (ZF or SF <> OF). *)
Definition condL (f : flags) : bool := negb (Bool.eqb (SF f) (OF f)).
Definition condLE (f : flags) : bool := ZF f || condL f.

(** General-purpose registers hold 64 bits; a 32-bit write clears the upper
    half.  The flags that [add] and [shr] leave are not tracked ([None]):
    reading them is a fault of the model. *)
Record cpu : Type := { gpr : regs.R -> Z; eflags : option flags }.

Definition setReg (r : regs.R) (v : Z) (m : cpu) : cpu :=
  {| gpr := fun r' => if Nat.eqb r' r then v else gpr m r'; eflags := eflags m |}.
Definition setFlags (f : option flags) (m : cpu) : cpu :=
  {| gpr := gpr m; eflags := f |}.

Inductive outcome : Type :=
| Next (m : cpu)                 (* execution continues after the code *)
| Branch (addr : Z) (m : cpu)    (* a taken branch to a text address *)
| Jump (target : Z) (m : cpu)    (* an indirect jump to an absolute address *)
| Fault.

Section Image.
Variable RODataAddr : Z.
Variable rodata : list byte.

Definition load (n : nat) (addr : Z) : option Z :=
  let off := addr - RODataAddr in
  if (0 <=? off) && (off + Z.of_nat n <=? Z.of_nat (List.length rodata))
  then Some (le_combine (firstn n (skipn (Z.to_nat off) rodata)))
  else None.

Definition step (i : insn) (m : cpu) : outcome :=
  match i with
  | movImm t target imm => Next (setReg target (trunc (width t) imm) m)
  | mov t target source => Next (setReg target (trunc (width t) (gpr m source)) m)
  | movFromAddr t target scale index disp =>
      match load (Z.to_nat (types.Size t)) (trunc 64 (disp + gpr m index * 2 ^ scale)) with
      | Some v => Next (setReg target v m)
      | None => Fault
      end
  | test t target source =>
      let w := width t in
      let res := Z.land (trunc w (gpr m target)) (trunc w (gpr m source)) in
      Next (setFlags (Some (flagsOf w res false)) m)
  | cmovl t target source =>
      match eflags m with
      | Some f =>
          Next (setReg target (trunc (width t) (gpr m (if condL f then source else target))) m)
      | None => Fault
      end
  | cmp t target source =>
      let w := width t in
      let res := signed w (gpr m target) - signed w (gpr m source) in
      Next (setFlags (Some (flagsOf w res (negb (res =? signed w res)))) m)
  | add t target source =>
      Next (setFlags None (setReg target (trunc (width t) (gpr m target + gpr m source)) m))
  | addImm t target imm =>
      Next (setFlags None (setReg target (trunc (width t) (gpr m target + imm)) m))
  | shrImm t target count =>
      Next (setFlags None (setReg target (Z.shiftr (trunc (width t) (gpr m target)) count) m))
  | jle addr =>
      match eflags m with
      | Some f => if condLE f then Branch addr m else Next m
      | None => Fault
      end
  | jmp target => Jump (gpr m target) m
  end.

Fixpoint exec (code : list insn) (m : cpu) : outcome :=
  match code with
  | [] => Next m
  | i :: rest =>
      match step i m with
      | Next m' => exec rest m'
      | o => o
      end
  end.

(** Running the text of a sequence of backend operations. *)
Fixpoint run (ops : list mop.t) (m : cpu) : outcome :=
  match ops with
  | [] => Next m
  | op :: rest =>
      match assemble RODataAddr op with
      | Some code =>
          match exec code m with
          | Next m' => run rest m'
          | o => o
          end
      | None => Fault
      end
  end.

End Image.
End x86.

(** ** C7: the dispatch of a branch table on the x86-64 backend *)

Lemma signed32_int32 (x : Z) : x86.signed 32 x = int32 x.
Proof. reflexivity. Qed.

Lemma int32_range (x : Z) : - 2 ^ 31 <= int32 x < 2 ^ 31.
Proof.
  unfold int32. pose proof (uint32_range x).
  destruct (Z.ltb_spec (uint32 x) (2 ^ 31)); lia.
Qed.

Lemma int32_small (x : Z) : - 2 ^ 31 <= x < 2 ^ 31 -> int32 x = x.
Proof.
  intros H. unfold int32, uint32.
  destruct (Z.ltb_spec (x mod 2 ^ 32) (2 ^ 31)); Z.div_mod_to_equations; lia.
Qed.

Lemma int32_uint32 (x : Z) : int32 (uint32 x) = int32 x.
Proof. unfold int32. rewrite uint32_idem. reflexivity. Qed.

Lemma int32_nonneg (x : Z) : 0 <= int32 x -> uint32 x = int32 x.
Proof.
  unfold int32. pose proof (uint32_range x).
  destruct (Z.ltb_spec (uint32 x) (2 ^ 31)); lia.
Qed.

(** [cmp a, b] followed by a branch on le compares as signed numbers. *)
Lemma condLE_cmp32 (a b : Z) :
  - 2 ^ 31 <= a < 2 ^ 31 -> - 2 ^ 31 <= b < 2 ^ 31 ->
  x86.condLE (x86.flagsOf 32 (a - b) (negb (a - b =? x86.signed 32 (a - b)))) = (a <=? b).
Proof.
  intros Ha Hb. rewrite signed32_int32.
  unfold x86.condLE, x86.condL, x86.flagsOf. simpl x86.ZF. simpl x86.SF. simpl x86.OF.
  rewrite signed32_int32. unfold x86.trunc, int32, uint32.
  destruct (Z.ltb_spec ((a - b) mod 2 ^ 32) (2 ^ 31));
    repeat match goal with
    | |- context [Z.eqb ?x ?y] => destruct (Z.eqb_spec x y)
    | |- context [Z.ltb ?x ?y] => destruct (Z.ltb_spec x y)
    | |- context [Z.leb ?x ?y] => destruct (Z.leb_spec x y)
    end; simpl; try reflexivity; exfalso; Z.div_mod_to_equations; lia.
Qed.

Lemma gpr_setReg_same r v m : x86.gpr (x86.setReg r v m) r = v.
Proof. simpl. rewrite Nat.eqb_refl. reflexivity. Qed.

Lemma gpr_setReg_other r r' v m : r' <> r -> x86.gpr (x86.setReg r v m) r' = x86.gpr m r'.
Proof. intros H. simpl. apply Nat.eqb_neq in H. rewrite H. reflexivity. Qed.

Lemma operandReg_reserved r :
  x86.operandReg r = true ->
  r <> x86.RegScratch /\ r <> x86.RegStackPtr /\ r <> x86.RegTextBase.
Proof.
  intros H. repeat split; intros ->; discriminate.
Qed.

Section Dispatch.
Variable RODataAddr : Z.
Variable rodata : list byte.

Local Abbreviation run := (x86.run RODataAddr rodata).

Lemma run_app ops1 ops2 m :
  run (ops1 ++ ops2) m =
    match run ops1 m with
    | x86.Next m' => run ops2 m'
    | o => o
    end.
Proof.
  revert m. induction ops1 as [|op ops1 IH]; intros m; simpl; [reflexivity|].
  destruct (x86.assemble RODataAddr op); [|reflexivity].
  destruct (x86.exec RODataAddr rodata l m); auto.
Qed.

Lemma run_OpAddImmToStackPtr d m :
  exists m',
    run [mop.OpAddImmToStackPtr d] m = x86.Next m' /\
    uint64 (x86.gpr m' x86.RegStackPtr) = uint64 (x86.gpr m x86.RegStackPtr + d) /\
    forall r, r <> x86.RegStackPtr -> x86.gpr m' r = x86.gpr m r.
Proof.
  simpl. destruct (Z.eqb_spec d 0) as [->|Hd]; simpl.
  - exists m. rewrite Z.add_0_r. auto.
  - eexists. split; [reflexivity|]. split.
    + simpl. unfold x86.trunc, uint64. change (x86.width types.I64) with 64.
      apply Z.mod_mod. lia.
    + intros r Hr. simpl. apply Nat.eqb_neq in Hr. rewrite Hr. reflexivity.
Qed.

Lemma run_OpBranchIfOutOfBounds reg count addr m :
  reg <> x86.RegScratch -> 0 <= count < 2 ^ 31 ->
  let v := int32 (x86.gpr m reg) in
  exists m',
    run [mop.OpBranchIfOutOfBounds reg count addr] m =
      (if (v <? 0) || (count <=? v) then x86.Branch addr m' else x86.Next m') /\
    (forall r, r <> reg -> r <> x86.RegScratch -> x86.gpr m' r = x86.gpr m r) /\
    x86.gpr m' reg = (if v <? 0 then count else v).
Proof.
  intros Hreg Hcount v.
  assert (Hne : Nat.eqb reg x86.RegScratch = false) by (apply Nat.eqb_neq; assumption).
  assert (Hne' : Nat.eqb x86.RegScratch reg = false)
    by (apply Nat.eqb_neq; intros E; apply Hreg; symmetry; exact E).
  assert (Hc32 : x86.trunc 32 count = count) by (apply Z.mod_small; lia).
  assert (Hcl : x86.condL (x86.flagsOf 32 (uint32 (x86.gpr m reg)) false) = (v <? 0)).
  { unfold x86.condL. cbn [x86.SF x86.OF x86.flagsOf].
    rewrite signed32_int32, int32_uint32. fold v. destruct (v <? 0); reflexivity. }
  pose proof (int32_range (x86.gpr m reg)) as Hrange. fold v in Hrange.
  cbn [x86.run x86.assemble x86.opCompareBounds app x86.exec x86.step].
  change (x86.width types.I32) with 32.
  cbn [x86.gpr x86.setReg x86.setFlags x86.eflags].
  rewrite ?Hne, ?Hne', ?Nat.eqb_refl.
  rewrite Z.land_diag.
  change (x86.trunc 32 (x86.gpr m reg)) with (uint32 (x86.gpr m reg)).
  rewrite !Hcl.
  assert (Hsc : x86.signed 32 count = count)
    by (rewrite signed32_int32; apply int32_small; lia).
  destruct (Z.ltb_spec v 0) as [Hv|Hv]; cbn [orb];
    rewrite ?Hne, ?Hne', ?Nat.eqb_refl, ?Hc32, ?Hsc.
  - rewrite condLE_cmp32 by lia. rewrite Z.leb_refl.
    eexists. split; [reflexivity|]. split.
    + intros r Hr Hs. cbn [x86.gpr x86.setReg x86.setFlags].
      apply Nat.eqb_neq in Hr, Hs. rewrite Hr, Hs. reflexivity.
    + cbn [x86.gpr x86.setReg x86.setFlags]. rewrite Nat.eqb_refl. reflexivity.
  - change (x86.trunc 32 (x86.gpr m reg)) with (uint32 (x86.gpr m reg)).
    rewrite (int32_nonneg (x86.gpr m reg)) by (fold v; lia). fold v.
    assert (Hsv : x86.signed 32 v = v)
      by (rewrite signed32_int32; apply int32_small; lia).
    rewrite ?Hsv.
    rewrite condLE_cmp32 by lia.
    eexists. split; [destruct (count <=? v); reflexivity|]. split.
    + intros r Hr Hs. cbn [x86.gpr x86.setReg x86.setFlags].
      apply Nat.eqb_neq in Hr, Hs. rewrite Hr, Hs. reflexivity.
    + cbn [x86.gpr x86.setReg x86.setFlags]. rewrite Nat.eqb_refl. reflexivity.
Qed.

Lemma load_table (n : nat) (off : Z) :
  0 <= off -> off + Z.of_nat n <= Z.of_nat (List.length rodata) ->
  x86.load RODataAddr rodata n (RODataAddr + off) =
    Some (le_combine (firstn n (skipn (Z.to_nat off) rodata))).
Proof.
  intros H0 H1. unfold x86.load.
  replace (RODataAddr + off - RODataAddr) with off by lia.
  destruct (Z.leb_spec 0 off); [|lia].
  destruct (Z.leb_spec (off + Z.of_nat n) (Z.of_nat (List.length rodata))); [|lia].
  reflexivity.
Qed.

Lemma run_OpLoadRO t reg rz scale addr m :
  0 <= x86.gpr m reg < 2 ^ 32 ->
  0 <= RODataAddr -> 0 <= addr ->
  RODataAddr + Z.of_nat (List.length rodata) <= 2 ^ 31 ->
  0 <= x86.gpr m reg * 2 ^ scale ->
  addr + x86.gpr m reg * 2 ^ scale + types.Size t <= Z.of_nat (List.length rodata) ->
  0 <= types.Size t ->
  exists m',
    run [mop.OpLoadROIntIndex32ScaleDisp t reg rz scale addr] m = x86.Next m' /\
    x86.gpr m' reg =
      le_combine (firstn (Z.to_nat (types.Size t))
                         (skipn (Z.to_nat (addr + x86.gpr m reg * 2 ^ scale)) rodata)) /\
    forall r, r <> reg -> x86.gpr m' r = x86.gpr m r.
Proof.
  intros Hv HR Ha Hlen Hs Hfit Hsz.
  assert (Hmov : x86.trunc (x86.width types.I32) (x86.gpr m reg) = x86.gpr m reg)
    by (apply Z.mod_small; exact Hv).
  assert (Hea : x86.trunc 64 (RODataAddr + addr + x86.gpr m reg * 2 ^ scale) =
                RODataAddr + (addr + x86.gpr m reg * 2 ^ scale))
    by (unfold x86.trunc; rewrite Z.mod_small; lia).
  assert (Hload : x86.load RODataAddr rodata (Z.to_nat (types.Size t))
                    (RODataAddr + (addr + x86.gpr m reg * 2 ^ scale)) =
                  Some (le_combine (firstn (Z.to_nat (types.Size t))
                         (skipn (Z.to_nat (addr + x86.gpr m reg * 2 ^ scale)) rodata))))
    by (apply load_table; lia).
  destruct rz; cbn [x86.run x86.assemble app x86.exec x86.step];
    cbn [x86.gpr x86.setReg]; rewrite ?Nat.eqb_refl, ?Hmov, ?Hea, ?Hload;
    (eexists; split; [reflexivity|]; split;
     [cbn [x86.gpr x86.setReg]; rewrite Nat.eqb_refl; reflexivity
     |intros r Hr; cbn [x86.gpr x86.setReg]; apply Nat.eqb_neq in Hr; rewrite ?Hr; reflexivity]).
Qed.

Lemma run_OpBranchIndirect32 reg rz m :
  reg <> x86.RegTextBase ->
  0 <= x86.gpr m reg ->
  (rz = true -> x86.gpr m reg < 2 ^ 32) ->
  exists m',
    run [mop.OpBranchIndirect32 reg rz] m =
      x86.Jump (uint64 (uint32 (x86.gpr m reg) + x86.gpr m x86.RegTextBase)) m' /\
    forall r, r <> reg -> x86.gpr m' r = x86.gpr m r.
Proof.
  intros Hreg H0 Hz.
  assert (Hne : Nat.eqb x86.RegTextBase reg = false)
    by (apply Nat.eqb_neq; intros E; apply Hreg; symmetry; exact E).
  destruct rz; cbn [x86.run x86.assemble app x86.exec x86.step];
    cbn [x86.gpr x86.setReg x86.setFlags]; rewrite ?Nat.eqb_refl, ?Hne.
  - rewrite (uint32_small (x86.gpr m reg)) by (specialize (Hz eq_refl); lia).
    eexists. split; [reflexivity|].
    intros r Hr. cbn [x86.gpr x86.setReg x86.setFlags].
    apply Nat.eqb_neq in Hr. rewrite Hr. reflexivity.
  - eexists. split; [reflexivity|].
    intros r Hr. cbn [x86.gpr x86.setReg x86.setFlags].
    apply Nat.eqb_neq in Hr. rewrite ?Hr. reflexivity.
Qed.

(** The stack adjustment which a packed entry in [reg] carries. *)
Lemma run_adjust_by_entry reg r2 m :
  r2 <> reg -> r2 <> x86.RegStackPtr -> r2 <> x86.RegTextBase ->
  reg <> x86.RegStackPtr ->
  0 <= x86.gpr m reg < 2 ^ 64 ->
  exists m',
    run [mop.OpMoveReg types.I64 r2 reg; mop.OpShiftRightLogical32Bits r2;
         mop.OpAddToStackPtr r2] m = x86.Next m' /\
    uint64 (x86.gpr m' x86.RegStackPtr) =
      uint64 (x86.gpr m x86.RegStackPtr + x86.gpr m reg / 2 ^ 32) /\
    x86.gpr m' reg = x86.gpr m reg /\
    x86.gpr m' x86.RegTextBase = x86.gpr m x86.RegTextBase.
Proof.
  intros H2 Hsp Htb Hrsp Hv.
  assert (E6 : Nat.eqb x86.RegTextBase r2 = false)
    by (apply Nat.eqb_neq; intros E; apply Htb; symmetry; exact E).
  assert (E1 : Nat.eqb r2 reg = false) by (apply Nat.eqb_neq; assumption).
  assert (E2 : Nat.eqb reg r2 = false)
    by (apply Nat.eqb_neq; intros E; apply H2; symmetry; exact E).
  assert (E3 : Nat.eqb x86.RegStackPtr r2 = false)
    by (apply Nat.eqb_neq; intros E; apply Hsp; symmetry; exact E).
  assert (E4 : Nat.eqb r2 x86.RegStackPtr = false) by (apply Nat.eqb_neq; assumption).
  assert (E5 : Nat.eqb reg x86.RegStackPtr = false) by (apply Nat.eqb_neq; assumption).
  assert (Ht : x86.trunc (x86.width types.I64) (x86.gpr m reg) = x86.gpr m reg)
    by (apply Z.mod_small; exact Hv).
  cbn [x86.run x86.assemble app x86.exec x86.step types.category].
  rewrite E1.
  cbn [x86.run x86.assemble app x86.exec x86.step types.category].
  cbn [x86.gpr x86.setReg x86.setFlags].
  rewrite ?Nat.eqb_refl, ?E1, ?E2, ?E3, ?E4, ?E5, ?Ht. rewrite ?Ht.
  eexists. split; [reflexivity|].
  cbn [x86.gpr x86.setReg x86.setFlags].
  rewrite ?Nat.eqb_refl, ?E1, ?E2, ?E3, ?E4, ?E5, ?E6.
  split.
  - rewrite Z.shiftr_div_pow2 by lia.
    unfold x86.trunc, uint64. change (x86.width types.I64) with 64.
    apply Z.mod_mod. lia.
  - split; reflexivity.
Qed.

Lemma uint64_add_congr (a b x : Z) : uint64 a = uint64 b -> uint64 (a + x) = uint64 (b + x).
Proof.
  unfold uint64. intros H. rewrite (Z.add_mod a), (Z.add_mod b) by lia.
  rewrite H. reflexivity.
Qed.

Lemma window_length (n o : nat) (buf : list byte) :
  (o + n <= List.length buf)%nat -> List.length (firstn n (skipn o buf)) = n.
Proof. intros H. rewrite length_firstn, length_skipn. lia. Qed.

Lemma Uint32_range (buf : list byte) (o : nat) : 0 <= binary.Uint32 buf o < 2 ^ 32.
Proof.
  unfold binary.Uint32.
  pose proof (le_combine_bound (firstn 4 (skipn o buf))) as H.
  assert (List.length (firstn 4 (skipn o buf)) <= 4)%nat by (rewrite length_firstn; lia).
  assert (2 ^ (8 * Z.of_nat (List.length (firstn 4 (skipn o buf)))) <= 2 ^ 32)
    by (apply Z.pow_le_mono_r; lia).
  lia.
Qed.

Lemma Uint64_halves (buf : list byte) (o : nat) :
  (o + 8 <= List.length buf)%nat ->
  uint32 (binary.Uint64 buf o) = binary.Uint32 buf o /\
  binary.Uint64 buf o / 2 ^ 32 = binary.Uint32 buf (o + 4) /\
  0 <= binary.Uint64 buf o < 2 ^ 64.
Proof.
  intros Hfit. unfold binary.Uint64, binary.Uint32, uint32.
  set (w := firstn 8 (skipn o buf)).
  assert (Hlen : List.length w = 8%nat) by (apply window_length; assumption).
  pose proof (le_combine_bound w) as Hb. rewrite Hlen in Hb.
  change (2 ^ (8 * Z.of_nat 8)) with (2 ^ 64) in Hb.
  pose proof (split_le_combine w) as Hw. rewrite Hlen in Hw.
  pose proof (le_low32 (le_combine w)) as Hlo.
  pose proof (le_high32 (le_combine w)) as Hhi.
  rewrite Hw in Hlo, Hhi.
  assert (Hq : 0 <= le_combine w / 2 ^ 32 < 2 ^ 32).
  { split; [apply Z.div_pos; lia|]. apply Z.div_lt_upper_bound; [lia|].
    change (2 ^ 32 * 2 ^ 32) with (2 ^ 64). lia. }
  rewrite (Z.mod_small (le_combine w / 2 ^ 32)) in Hhi by assumption.
  split; [|split; [|assumption]].
  - rewrite <- Hlo. unfold w. rewrite firstn_firstn. reflexivity.
  - rewrite <- Hhi. unfold w. rewrite skipn_firstn_comm.
    change (8 - 4)%nat with 4%nat. rewrite firstn_firstn, skipn_skipn.
    change (Nat.min 4 4) with 4%nat. do 3 f_equal. lia.
Qed.

Lemma run_brTableDispatch defaultDelta reg reg2 rz lz count defaultAddr tableAddr tso common m :
  x86.operandReg reg = true ->
  (forall r2, reg2 = Some r2 -> x86.operandReg r2 = true /\ r2 <> reg) ->
  0 < count < 2 ^ 31 ->
  0 <= RODataAddr -> 0 <= tableAddr ->
  RODataAddr + Z.of_nat (List.length rodata) <= 2 ^ 31 ->
  tableAddr + (match reg2 with None => 4 | Some _ => 8 end) * count
    <= Z.of_nat (List.length rodata) ->
  let v := int32 (x86.gpr m reg) in
  exists m',
    run (brTableDispatch defaultDelta reg reg2 rz lz count defaultAddr tableAddr tso common) m =
      (if (v <? 0) || (count <=? v) then x86.Branch defaultAddr m'
       else x86.Jump
              (uint64 (binary.Uint32 rodata
                         (Z.to_nat (tableAddr + (match reg2 with None => 4 | Some _ => 8 end) * v))
                       + x86.gpr m x86.RegTextBase)) m') /\
    uint64 (x86.gpr m' x86.RegStackPtr) =
      uint64 (x86.gpr m x86.RegStackPtr + defaultDelta +
              (if (v <? 0) || (count <=? v) then 0
               else match reg2 with
                    | None => tso - common
                    | Some _ => binary.Uint32 rodata (Z.to_nat (tableAddr + 8 * v + 4))
                    end)).
Proof.
  intros Hreg Hreg2 Hcount HR Ha Hlen Hfit v.
  destruct (operandReg_reserved _ Hreg) as (Hrs & Hrsp & Hrtb).
  unfold brTableDispatch.
  change [mop.OpAddImmToStackPtr defaultDelta; mop.OpBranchIfOutOfBounds reg count defaultAddr]
    with ([mop.OpAddImmToStackPtr defaultDelta] ++ [mop.OpBranchIfOutOfBounds reg count defaultAddr]).
  rewrite !run_app.
  destruct (run_OpAddImmToStackPtr defaultDelta m) as (m1 & H1 & Hsp1 & Hfr1). rewrite H1.
  destruct (run_OpBranchIfOutOfBounds reg count defaultAddr m1 Hrs) as (m2 & H2 & Hfr2 & Hidx); [lia|].
  rewrite (Hfr1 reg Hrsp) in H2, Hidx. fold v in H2, Hidx. rewrite H2.
  assert (Hsp2 : uint64 (x86.gpr m2 x86.RegStackPtr) = uint64 (x86.gpr m x86.RegStackPtr + defaultDelta)).
  { rewrite Hfr2; [assumption| |discriminate]. intros E. apply Hrsp. symmetry. exact E. }
  assert (Htb2 : x86.gpr m2 x86.RegTextBase = x86.gpr m x86.RegTextBase).
  { rewrite Hfr2; [apply Hfr1; discriminate| |discriminate].
    intros E. apply Hrtb. symmetry. exact E. }
  destruct (Z.ltb_spec v 0) as [Hneg|Hnn]; cbn [orb].
  { exists m2. split; [reflexivity|]. rewrite Z.add_0_r. assumption. }
  destruct (Z.leb_spec count v) as [Hge|Hlt].
  { exists m2. split; [reflexivity|]. rewrite Z.add_0_r. assumption. }
  destruct reg2 as [r2|].
  - (* packed entries *)
    destruct (Hreg2 r2 eq_refl) as (Hr2 & Hr2reg).
    destruct (operandReg_reserved _ Hr2) as (_ & Hr2sp & Hr2tb).
    change [mop.OpLoadROIntIndex32ScaleDisp types.I64 reg rz 3 tableAddr;
            mop.OpMoveReg types.I64 r2 reg; mop.OpShiftRightLogical32Bits r2;
            mop.OpAddToStackPtr r2; mop.OpBranchIndirect32 reg false]
      with ([mop.OpLoadROIntIndex32ScaleDisp types.I64 reg rz 3 tableAddr] ++
            [mop.OpMoveReg types.I64 r2 reg; mop.OpShiftRightLogical32Bits r2;
             mop.OpAddToStackPtr r2] ++ [mop.OpBranchIndirect32 reg false]).
    rewrite !run_app.
    destruct (run_OpLoadRO types.I64 reg rz 3 tableAddr m2) as (m3 & H3 & Hld & Hfr3);
      try rewrite Hidx; try (change (types.Size types.I64) with 8); try lia.
    rewrite H3. rewrite ?run_app. rewrite Hidx in Hld.
    change (Z.to_nat (types.Size types.I64)) with 8%nat in Hld.
    fold (binary.Uint64 rodata (Z.to_nat (tableAddr + v * 2 ^ 3))) in Hld.
    destruct (Uint64_halves rodata (Z.to_nat (tableAddr + v * 2 ^ 3))) as (Hlo & Hhi & Hrg); [lia|].
    destruct (run_adjust_by_entry reg r2 m3 Hr2reg Hr2sp Hr2tb Hrsp) as (m4 & H4 & Hsp4 & Hreg4 & Htb4);
      [rewrite Hld; assumption|].
    rewrite H4.
    destruct (run_OpBranchIndirect32 reg false m4 Hrtb) as (m5 & H5 & Hfr5);
      [rewrite Hreg4, Hld; lia|discriminate|].
    rewrite H5. exists m5. split.
    + rewrite Hreg4, Hld, Hlo, Htb4. rewrite (Hfr3 x86.RegTextBase), Htb2.
      2:{ intros E. apply Hrtb. symmetry. exact E. }
      do 4 f_equal. lia.
    + rewrite Hfr5 by (intros E; apply Hrsp; symmetry; exact E).
      rewrite Hsp4, Hld, Hhi.
      rewrite (Hfr3 x86.RegStackPtr) by (intros E; apply Hrsp; symmetry; exact E).
      rewrite (uint64_add_congr _ _ _ Hsp2). do 3 f_equal. lia.
  - (* addresses only *)
    change [mop.OpLoadROIntIndex32ScaleDisp types.I32 reg rz 2 tableAddr;
            mop.OpAddImmToStackPtr (tso - common); mop.OpBranchIndirect32 reg lz]
      with ([mop.OpLoadROIntIndex32ScaleDisp types.I32 reg rz 2 tableAddr] ++
            [mop.OpAddImmToStackPtr (tso - common)] ++ [mop.OpBranchIndirect32 reg lz]).
    rewrite !run_app.
    destruct (run_OpLoadRO types.I32 reg rz 2 tableAddr m2) as (m3 & H3 & Hld & Hfr3);
      try rewrite Hidx; try (change (types.Size types.I32) with 4); try lia.
    rewrite H3. rewrite ?run_app. rewrite Hidx in Hld.
    change (Z.to_nat (types.Size types.I32)) with 4%nat in Hld.
    fold (binary.Uint32 rodata (Z.to_nat (tableAddr + v * 2 ^ 2))) in Hld.
    pose proof (Uint32_range rodata (Z.to_nat (tableAddr + v * 2 ^ 2))) as Hrg.
    destruct (run_OpAddImmToStackPtr (tso - common) m3) as (m4 & H4 & Hsp4 & Hfr4). rewrite H4.
    destruct (run_OpBranchIndirect32 reg lz m4 Hrtb) as (m5 & H5 & Hfr5);
      [rewrite (Hfr4 reg Hrsp), Hld; lia|intros _; rewrite (Hfr4 reg Hrsp), Hld; lia|].
    rewrite H5. exists m5. split.
    + rewrite (Hfr4 reg Hrsp), Hld, (uint32_small _ Hrg).
      rewrite (Hfr4 x86.RegTextBase) by discriminate.
      rewrite (Hfr3 x86.RegTextBase), Htb2.
      2:{ intros E. apply Hrtb. symmetry. exact E. }
      do 4 f_equal. lia.
    + rewrite Hfr5 by (intros E; apply Hrsp; symmetry; exact E).
      rewrite Hsp4.
      rewrite (Hfr3 x86.RegStackPtr) by (intros E; apply Hrsp; symmetry; exact E).
      apply uint64_add_congr. assumption.
Qed.

End Dispatch.

Section BranchTableDispatch.
Variable mach_ : Mach.

(** C7: the text which a lowered br_table ends with, run on the processor
    with the I32 condition value [v] in the index register: when [v] is
    negative or not less than the number of table targets, the branch of
    the bounds check is taken, to the address of the default target's label,
    with the stack pointer moved by the default target's delta; otherwise
    the code jumps to the text base plus the address in entry [v] of the
    table, after moving the stack pointer by the delta of the table (the
    common one, or the one in the high half of the entry). *)
Theorem C7_branch_table_dispatch defaultTarget first rest pcond c tr r c' tr' :
  emitsOnly mach_ ->
  0 <= branchTarget.stackOffset first ->
  0 <= branchTarget.stackOffset defaultTarget ->
  exprBrTable mach_ defaultTarget (first :: rest) pcond c tr = OK (r, c', tr') ->
  exists front table trp dispatch reg reg2 cp cq lab,
    branchTables c' = front ++ [table] /\
    tr' = trp ++ dispatch /\
    nth_error (labels cq) (branchTarget.label defaultTarget) = Some lab /\
    forall (RODataAddr : Z) (rodata : list byte) (m : x86.cpu),
      x86.operandReg reg = true ->
      (forall r2, reg2 = Some r2 -> x86.operandReg r2 = true /\ r2 <> reg) ->
      let count := Z.of_nat (List.length (first :: rest)) in
      let base := Z.to_nat (branchTable.roDataAddr table) in
      count < 2 ^ 31 ->
      0 <= RODataAddr ->
      RODataAddr + Z.of_nat (List.length rodata) <= 2 ^ 31 ->
      (base + entrySize table * List.length (first :: rest) <= List.length rodata)%nat ->
      let v := int32 (x86.gpr m reg) in
      exists m',
        x86.run RODataAddr rodata dispatch m =
          (if (v <? 0) || (count <=? v)
           then x86.Branch (links.Address lab) m'
           else x86.Jump (uint64 (binary.Uint32 rodata (base + entrySize table * Z.to_nat v)
                                  + x86.gpr m x86.RegTextBase)) m') /\
        uint64 (x86.gpr m' x86.RegStackPtr) =
          uint64 (x86.gpr m x86.RegStackPtr +
                  (stackOffset cp - branchTarget.stackOffset defaultTarget) +
                  (if (v <? 0) || (count <=? v) then 0
                   else if Nat.eqb (entrySize table) 4
                        then branchTarget.stackOffset defaultTarget - branchTarget.stackOffset first
                        else binary.Uint32 rodata (base + 8 * Z.to_nat v + 4))).
Proof.
  intros Hmach Hfirst Hdef H.
  apply exprBrTable_inv in H; [|assumption].
  destruct H as (front & table & cp & trp & reg & reg2 & rz & lz & cq & lab &
                 Hbt & Htg & Haddr & Hcso & Hreg2 & Hlab & Htr).
  exists front, table, trp,
    (brTableDispatch (stackOffset cp - branchTarget.stackOffset defaultTarget)
       reg reg2 rz lz (Z.of_nat (List.length (first :: rest)))
       (links.Address lab) (branchTable.roDataAddr table)
       (branchTarget.stackOffset defaultTarget)
       (commonOffset (branchTarget.stackOffset first) rest)),
    reg, reg2, cp, cq, lab.
  split; [assumption|]. split; [exact Htr|]. split; [assumption|].
  intros RODataAddr rodata m Hreg Hr2 count base Hcount HR Hlen Hfit v.
  assert (Hpos : 0 < Z.of_nat (List.length (first :: rest))) by (cbn [List.length]; lia).
  subst count base.
  assert (Hsize : entrySize table = match reg2 with None => 4%nat | Some _ => 8%nat end /\
                  (reg2 = None -> commonOffset (branchTarget.stackOffset first) rest =
                                  branchTarget.stackOffset first)).
  { unfold entrySize. rewrite Hcso.
    destruct (commonOffset_spec (branchTarget.stackOffset first) rest Hfirst) as [(Hc & _)|(Hc & _)];
      rewrite Hc in *.
    - destruct (Z.ltb_spec (branchTarget.stackOffset first) 0); [lia|].
      destruct reg2 as [r2|]; [|split; reflexivity].
      destruct Hreg2 as (_ & Hx). specialize (Hx (ex_intro _ r2 eq_refl)). discriminate.
    - change (-1 <? 0) with true in *. cbv iota.
      destruct (Z.ltb_spec (branchTarget.stackOffset defaultTarget) 0); [lia|].
      destruct Hreg2 as (Hx & _). destruct (Hx eq_refl) as (r2 & ->).
      split; [reflexivity|discriminate]. }
  destruct Hsize as (Hsize & Hcommon).
  destruct (run_brTableDispatch RODataAddr rodata
              (stackOffset cp - branchTarget.stackOffset defaultTarget) reg reg2 rz lz
              (Z.of_nat (List.length (first :: rest))) (links.Address lab)
              (branchTable.roDataAddr table)
              (branchTarget.stackOffset defaultTarget)
              (commonOffset (branchTarget.stackOffset first) rest) m Hreg Hr2)
    as (m' & Hrun & Hsp); try assumption.
  - lia.
  - rewrite Hsize in Hfit. destruct reg2; lia.
  - fold v in Hrun, Hsp. exists m'. split.
    + rewrite Hrun.
      destruct ((v <? 0) || (Z.of_nat (List.length (first :: rest)) <=? v)) eqn:E; [reflexivity|].
      apply orb_false_elim in E. destruct E as (E1 & E2).
      apply Z.ltb_ge in E1. rewrite Hsize.
      destruct reg2 as [r2|].
      * replace (Z.to_nat (branchTable.roDataAddr table + 8 * v))
          with (Z.to_nat (branchTable.roDataAddr table) + 8 * Z.to_nat v)%nat by lia.
        reflexivity.
      * replace (Z.to_nat (branchTable.roDataAddr table + 4 * v))
          with (Z.to_nat (branchTable.roDataAddr table) + 4 * Z.to_nat v)%nat by lia.
        reflexivity.
    + rewrite Hsp.
      destruct ((v <? 0) || (Z.of_nat (List.length (first :: rest)) <=? v)) eqn:E; [reflexivity|].
      apply orb_false_elim in E. destruct E as (E1 & E2).
      apply Z.ltb_ge in E1. rewrite Hsize.
      destruct reg2 as [r2|]; cbn [Nat.eqb].
      * replace (Z.to_nat (branchTable.roDataAddr table + 8 * v + 4))
          with (Z.to_nat (branchTable.roDataAddr table) + 8 * Z.to_nat v + 4)%nat by lia.
        reflexivity.
      * rewrite (Hcommon eq_refl). reflexivity.
Qed.

End BranchTableDispatch.

(** * A backend to run the coder with

    Modelled from the spec: the backend of this revision of code.go is not
    among the sources.  The backend below follows the newer x86-64 backend
    (part_002) for the operations that one has, and the spec for the others
    (the prologue: function alignment, then the stack check with its
    placeholder displacement).  Of the text only the length is kept, so an
    operation acts on the coder by the size of its instructions, by the
    addresses it returns and by the call sites it records.  Operations the
    runs below do not reach answer with the panic ["not modelled"]. *)

Module backend.

Definition CallStackExhausted : nat := 3.

Definition advance (n : Z) (c : coder) : coder := set_textLen (textLen c + n) c.

(** [putRexSize]: one byte for a 64-bit operand or a register from r8 on. *)
Definition rex (t : types.T) (rs : list regs.R) : Z :=
  if (types.Size t =? types.Size64) || existsb (fun r => 8 <=? r)%nat rs then 1 else 0.

(** [insnAddr.op]: the short form when the target is known and near. *)
Definition insnAddrSize (size8 size32 : Z) (pos addr : Z) : Z :=
  let offset := addr - (pos + size8) in
  if negb (addr =? 0) && (-128 <=? offset) && (offset <? 128) then size8 else size32.

Definition immSize (imm : Z) : Z := if (-128 <=? imm) && (imm <? 128) then 1 else 4.

(** The encoded size of an instruction at text position [pos]. *)
Definition insnSize (pos : Z) (i : x86.insn) : Z :=
  match i with
  | x86.movImm t r _ => rex t [r] + 6
  | x86.mov t a b | x86.test t a b | x86.cmp t a b | x86.add t a b => rex t [a; b] + 2
  | x86.movFromAddr t target _ index _ => rex t [target; index] + 7
  | x86.cmovl t a b => rex t [a; b] + 3
  | x86.addImm t r imm => rex t [r] + 2 + immSize imm
  | x86.shrImm t r _ => rex t [r] + 3
  | x86.jle addr => insnAddrSize 2 6 pos addr
  | x86.jmp r => rex types.I32 [r] + 2
  end.

Fixpoint codeSize (pos : Z) (code : list x86.insn) : Z :=
  match code with
  | [] => 0
  | i :: rest => insnSize pos i + codeSize (pos + insnSize pos i) rest
  end.

(** [alignFunc] *)
Definition alignFunc (c : coder) : coder :=
  advance (Z.land (16 - textLen c) 15) c.

Definition returns (r : mret) (c : coder) : Res (mret * coder) := OK (r, c).

Definition addr (c : coder) : mret :=
  {| r_bool := false; r_int := textLen c; r_int2 := 0;
     r_operand := values.NoOperand; r_sites := [] |}.

(** [OpCall]: the call instruction (after the padding which aligns the
    address slot of a call to a function without address), then the call
    site. *)
Definition OpCall (l : nat) (c : coder) : Res (mret * coder) :=
  match nth_error (labels c) l with
  | None => Panic "nil label pointer"
  | Some x =>
      let pad :=
        if links.Address x =? 0 then
          let relPos := Z.land (textLen c + 5) 3 in
          if relPos >? 0 then 4 - relPos else 0
        else 0 in
      match AddCallSite l (advance (pad + 5) c) with
      | OK c' => returns (addr c') c'
      | Panic msg => Panic msg
      end
  end.

(** [code.OpTrapCall(id)] *)
Definition OpTrapCall (id : nat) (c : coder) : Res (mret * coder) :=
  match nth_error (trapTrampolines c) id, nth_error (trapEntries c) id with
  | Some trampoline, Some entry =>
      match nth_error (labels c) trampoline with
      | Some x =>
          OpCall entry
            (set_labels (update_nth trampoline (links.withAddress (textLen c) x) (labels c)) c)
      | None => Panic "nil label pointer"
      end
  | _, _ => Panic "index out of range"
  end.

Definition perform (op : mop.t) (c : coder) : Res (mret * coder) :=
  match op with
  | mop.OpAbort => returns mret0 (advance 1 c)
  | mop.OpReturn => returns mret0 (advance 1 c)
  | mop.OpBranch target =>
      let c' := advance (insnAddrSize 2 5 (textLen c) target) c in
      returns (addr c') c'
  | mop.OpCall l => OpCall l c
  | mop.OpEnterTrapHandler _ => returns mret0 (advance 12 c)
  | mop.OpInit start =>
      if (textLen c =? 0) || (textLen c >? 16) then Panic "inconsistency" else
      let c1 := advance 13 (alignFunc c) in
      match start with
      | Some l => OpCall l c1
      | None => returns mret0 c1
      end
  | mop.OpFunctionPrologue =>
      let c1 := alignFunc c in
      let invokeAddr := textLen c1 in
      let c2 := advance 8 c1 in
      let stackUsageAddr := textLen c2 in
      match OpTrapCall CallStackExhausted (advance 5 c2) with
      | OK (_, c3) =>
          returns {| r_bool := false; r_int := invokeAddr; r_int2 := stackUsageAddr;
                     r_operand := values.NoOperand; r_sites := [] |} c3
      | Panic msg => Panic msg
      end
  | mop.UpdateBranches l | mop.UpdateCalls l =>
      match nth_error (labels c) l with
      | Some x =>
          match links.FinalAddress x with
          | OK _ => returns mret0 c
          | Panic msg => Panic msg
          end
      | None => Panic "nil label pointer"
      end
  | mop.UpdateStackDisp _ _ | mop.DeleteCode _ _ | mop.DisableCode _ _
  | mop.ClearInsnCache => returns mret0 c
  | mop.OpAddImmToStackPtr _ | mop.OpAddToStackPtr _ | mop.OpBranchIfOutOfBounds _ _ _
  | mop.OpBranchIndirect32 _ _ | mop.OpLoadROIntIndex32ScaleDisp _ _ _ _ _
  | mop.OpMoveReg _ _ _ | mop.OpShiftRightLogical32Bits _ =>
      match x86.assemble (roDataAddr c) op with
      | Some code =>
          let c' := advance (codeSize (textLen c) code) c in
          returns {| r_bool := true; r_int := textLen c'; r_int2 := 0;
                     r_operand := values.NoOperand; r_sites := [] |} c'
      | None => Panic "target and source registers are the same"
      end
  | _ => Panic "not modelled"
  end.

Definition bitmap (rs : list regs.R) : Z :=
  fold_right (fun r acc => Z.setbit acc (Z.of_nat r)) 0 rs.

Definition X86 : Mach :=
  {| ResultReg := x86.RegResult;
     FunctionAlignment := 16;
     PaddingByte := 204;
     AvailableIntRegs := bitmap x86.availRegs;
     AvailableFloatRegs := bitmap [1; 3; 4; 5; 6; 7; 8; 9; 10; 11; 12; 13; 14; 15]%nat;
     machOp := perform |}.

End backend.

(** The expression evaluator: [coder.expr] with its recursion unfolded
    [fuel] times. *)
Fixpoint exprN (mach_ : Mach) (fuel : nat) (x : sexp) (expectType : types.T) (final : bool)
    (save : list liveOperand) : M (values.Operand * bool) :=
  match fuel with
  | O => panic "out of fuel"
  | S fuel' => exprDispatch mach_ (exprN mach_ fuel') x expectType final save
  end.


(** ** C4: the function table *)

Lemma length_le_split_nat (n : nat) (v : Z) : List.length (le_split n v) = n.
Proof. apply length_le_split. Qed.

Lemma populateTable_step m f rest off c tr x c' tr' :
  populateTable m (f :: rest) off c tr = OK (x, c', tr') ->
  exists sig l lab buf1,
    callableSignature m f = OK sig /\ 0 <= Index sig /\
    assoc f (functionLinks c) = Some l /\
    nth_error (labels c) l = Some lab /\
    binary.put (dataArena.buf (roData c)) off
      (le_split 8 (Z.lor (shl64 (uint64 (uint32 (Index sig))) 32)
                         (uint64 (uint32 (links.Address lab))))) = OK buf1 /\
    populateTable m rest (off + 8) (set_roData {| dataArena.buf := buf1 |} c) tr = OK (x, c', tr').
Proof.
  intros H. simpl in H. minv H.
  destruct (callableSignature m f) as [sig|] eqn:Hsig; [|discriminate].
  match goal with H : OK _ = OK _ |- _ => inversion H; subst; clear H end.
  destruct (Z.ltb_spec (Index a) 0); [minv H; contradiction|].
  minv H. unfold functionLink in *.
  repeat match goal with
  | H : bind _ _ _ _ = OK _ |- _ => minv H
  | H : (match assoc ?k ?l with _ => _ end) _ _ = OK _ |- _ => mcase H
  end.
  unfold binary.PutUint64 in *.
  exists a. eauto 10.
Qed.

(** What [populateTable] leaves in the read-only data. *)
Lemma populateTable_entries (m : Module_) :
  forall table off c tr x c' tr',
    populateTable m table off c tr = OK (x, c', tr') ->
    labels c' = labels c /\ functionLinks c' = functionLinks c /\ tr' = tr /\
    List.length (dataArena.buf (roData c')) = List.length (dataArena.buf (roData c)) /\
    (forall o n, (o + n <= off)%nat ->
       firstn n (skipn o (dataArena.buf (roData c'))) =
       firstn n (skipn o (dataArena.buf (roData c)))) /\
    (forall i f, nth_error table i = Some f ->
       exists sig l lab,
         callableSignature m f = OK sig /\ 0 <= Index sig /\
         assoc f (functionLinks c) = Some l /\
         nth_error (labels c) l = Some lab /\
         firstn 8 (skipn (off + 8 * i) (dataArena.buf (roData c'))) =
           le_split 8 (Z.lor (shl64 (uint64 (uint32 (Index sig))) 32)
                             (uint64 (uint32 (links.Address lab))))).
Proof.
  induction table as [|f rest IH]; intros off c tr x c' tr' H.
  - simpl in H. minv H. repeat split; auto. intros [|i] f Hf; discriminate.
  - apply populateTable_step in H.
    destruct H as (sig & l & lab & buf1 & Hsig & Hidx & Hl & Hlab & Hput & H).
    apply IH in H. cbn [labels functionLinks roData dataArena.buf set_roData] in H.
    destruct H as (Hls & Hfl & Htr & Hlen & Hbefore & Hentries).
    repeat split; try assumption.
    + rewrite Hlen. eapply put_length. eassumption.
    + intros o n Hon. rewrite Hbefore by lia.
      eapply put_window_other; [eassumption|]. left. assumption.
    + intros [|i] g Hg; simpl in Hg.
      * inversion Hg; subst g. exists sig, l, lab. repeat split; try assumption.
        rewrite Nat.mul_0_r, Nat.add_0_r. rewrite Hbefore by lia.
        erewrite <- (length_le_split_nat 8) at 1.
        eapply put_window_same. eassumption.
      * destruct (Hentries i g Hg) as (sig' & l' & lab' & H1 & H2 & H3 & H4 & Hw).
        exists sig', l', lab'. repeat split; try assumption.
        rewrite <- Hw. f_equal. f_equal. lia.
Qed.

(** The bytes which the fix-up of a function's table entries leaves alone,
    and the ones it writes. *)
Lemma updateTableIndexes_bytes :
  forall indexes invokeAddr c tr x c' tr',
    updateTableIndexes indexes invokeAddr c tr = OK (x, c', tr') ->
    labels c' = labels c /\ tr' = tr /\
    List.length (dataArena.buf (roData c')) = List.length (dataArena.buf (roData c)) /\
    (forall p,
       (forall tableIndex, In tableIndex indexes ->
          (p < roTableAddr + tableIndex * 8 \/ roTableAddr + tableIndex * 8 + 4 <= p)%nat) ->
       nth_error (dataArena.buf (roData c')) p = nth_error (dataArena.buf (roData c)) p) /\
    (forall tableIndex, In tableIndex indexes ->
       firstn 4 (skipn (roTableAddr + tableIndex * 8) (dataArena.buf (roData c'))) =
       le_split 4 invokeAddr).
Proof.
  unfold roTableAddr. cbn [Nat.add].
  induction indexes as [|ti rest IH]; intros invokeAddr c tr x c' tr' H.
  - simpl in H. minv H. repeat split; auto. intros ti [].
  - simpl in H. minv H. unfold binary.PutUint32 in *.
    match goal with Hput : binary.put _ _ _ = OK ?b |- _ => rename Hput into Hp end.
    apply IH in H. cbn [labels roData dataArena.buf set_roData] in H.
    destruct H as (Hls & Htr & Hlen & Hother & Hwritten).
    repeat split; try assumption.
    + rewrite Hlen. eapply put_length. eassumption.
    + intros p Hp'. rewrite Hother by (intros t Ht; apply Hp'; right; assumption).
      rewrite (put_nth_error _ _ _ _ p Hp). rewrite length_le_split.
      destruct (Hp' ti (or_introl eq_refl)) as [Hlt|Hge].
      * destruct (Nat.leb_spec (ti * 8) p); [lia|]. reflexivity.
      * destruct (Nat.leb_spec (ti * 8) p); [|reflexivity].
        destruct (Nat.ltb_spec p (ti * 8 + 4)); [lia|]. reflexivity.
    + intros t [<-|Ht]; [|apply Hwritten; assumption].
      destruct (in_dec Nat.eq_dec ti rest) as [Hin|Hnin]; [apply Hwritten; assumption|].
      apply nth_error_ext. intros k.
      rewrite nth_error_firstn. destruct (Nat.ltb_spec k 4).
      * rewrite nth_error_skipn.
        rewrite Hother.
        -- rewrite (put_nth_error _ _ _ _ _ Hp). rewrite length_le_split.
           destruct (Nat.leb_spec (ti * 8) (ti * 8 + k)); [|lia].
           destruct (Nat.ltb_spec (ti * 8 + k) (ti * 8 + 4)); [|lia].
           simpl. f_equal. lia.
        -- intros t Ht. assert (t <> ti) by (intros ->; contradiction). lia.
      * symmetry. apply nth_error_None. rewrite length_le_split. lia.
Qed.

Lemma packed_value (hi lo : Z) :
  0 <= lo < 2 ^ 32 -> 0 <= hi < 2 ^ 32 ->
  Z.lor (shl64 (uint64 hi) 32) (uint64 lo) = Z.lor (Z.shiftl hi 32) lo /\
  0 <= Z.lor (Z.shiftl hi 32) lo < 2 ^ 64.
Proof.
  intros Hlo Hhi.
  assert (Hs : Z.shiftl hi 32 = hi * 2 ^ 32) by (apply Z.shiftl_mul_pow2; lia).
  assert (E : Z.lor (shl64 (uint64 hi) 32) (uint64 lo) = Z.lor (Z.shiftl hi 32) lo).
  { unfold shl64. rewrite (uint64_small hi) by lia. rewrite (uint64_small lo) by lia.
    rewrite uint64_small; [reflexivity|]. rewrite Hs. change (2 ^ 64) with (2 ^ 32 * 2 ^ 32). nia. }
  split; [exact E|]. rewrite <- E, pack_eq by assumption.
  apply uint64_pack_range; assumption.
Qed.

(** C4: [populateTable] writes at offset 8*i of the read-only data the
    little-endian u64 [(sigIndex << 32) | addr] for the i-th table entry,
    where [addr] is the address of the function's link at that time (0 for
    a function not generated yet, so that the entry is [sigIndex << 32]);
    the fix-up [updateTableIndexes] of a function generated later writes
    its address into the four bytes from offset 8*tableIndex on and leaves
    every other byte of the read-only data as it was, the signature half
    of the entry included. *)
Theorem C4_function_table_entries (m : Module_) (c : coder) (tr : list mop.t) :
  (forall table x c' tr',
     populateTable m table roTableAddr c tr = OK (x, c', tr') ->
     forall i f, nth_error table i = Some f ->
     exists sig l lab,
       callableSignature m f = OK sig /\
       assoc f (functionLinks c) = Some l /\
       nth_error (labels c) l = Some lab /\
       binary.Uint64 (dataArena.buf (roData c')) (8 * i) =
         Z.lor (Z.shiftl (uint32 (Index sig)) 32) (uint32 (links.Address lab)) /\
       (links.Address lab = 0 ->
        binary.Uint64 (dataArena.buf (roData c')) (8 * i) = Z.shiftl (uint32 (Index sig)) 32)) /\
  (forall indexes invokeAddr x c' tr',
     updateTableIndexes indexes (uint32 invokeAddr) c tr = OK (x, c', tr') ->
     (forall tableIndex, In tableIndex indexes ->
        binary.Uint32 (dataArena.buf (roData c')) (8 * tableIndex) = uint32 invokeAddr /\
        binary.Uint32 (dataArena.buf (roData c')) (8 * tableIndex + 4) =
          binary.Uint32 (dataArena.buf (roData c)) (8 * tableIndex + 4)) /\
     (forall p,
        (forall tableIndex, In tableIndex indexes ->
           (p < 8 * tableIndex \/ 8 * tableIndex + 4 <= p)%nat) ->
        nth_error (dataArena.buf (roData c')) p = nth_error (dataArena.buf (roData c)) p)).
Proof.
  split.
  - intros table x c' tr' H i f Hf.
    apply populateTable_entries in H. destruct H as (_ & _ & _ & _ & _ & Hentries).
    destruct (Hentries i f Hf) as (sig & l & lab & Hsig & Hidx & Hl & Hlab & Hw).
    exists sig, l, lab. repeat split; try assumption.
    + unfold binary.Uint64. change (roTableAddr + 8 * i)%nat with (8 * i)%nat in Hw. rewrite Hw.
      destruct (packed_value (uint32 (Index sig)) (uint32 (links.Address lab))) as (E & Hr);
        try apply uint32_range.
      rewrite E, le_combine_split. apply Z.mod_small. exact Hr.
    + intros Hz. unfold binary.Uint64.
      change (roTableAddr + 8 * i)%nat with (8 * i)%nat in Hw. rewrite Hw.
      destruct (packed_value (uint32 (Index sig)) (uint32 (links.Address lab))) as (E & Hr);
        try apply uint32_range.
      rewrite E, le_combine_split. rewrite Z.mod_small by exact Hr.
      rewrite Hz. change (uint32 0) with 0. apply Z.lor_0_r.
  - intros indexes invokeAddr x c' tr' H.
    apply updateTableIndexes_bytes in H.
    destruct H as (_ & _ & Hlen & Hother & Hwritten).
    assert (Hother' : forall p,
       (forall tableIndex, In tableIndex indexes ->
          (p < 8 * tableIndex \/ 8 * tableIndex + 4 <= p)%nat) ->
       nth_error (dataArena.buf (roData c')) p = nth_error (dataArena.buf (roData c)) p).
    { intros p Hp. apply Hother. intros t Ht. unfold roTableAddr.
      destruct (Hp t Ht); lia. }
    split; [|exact Hother'].
    intros t Ht. split.
    + unfold binary.Uint32. specialize (Hwritten t Ht).
      change (roTableAddr + t * 8)%nat with (t * 8)%nat in Hwritten.
      replace (8 * t)%nat with (t * 8)%nat by lia. rewrite Hwritten.
      rewrite le_combine_split. apply Z.mod_small. apply uint32_range.
    + unfold binary.Uint32. f_equal. apply window_ext; [assumption|].
      intros k Hk. apply Hother'. intros t' Ht'. lia.
Qed.

(** * Runs of the coder on concrete inputs *)

(** A function with one i32 parameter [x], and the coder at the start of
    its body. *)
Definition unaryFunction : Function :=
  {| Names := ["f"];
     FuncSignature := {| Index := 0; Args := [types.I32]; Result := types.I32 |};
     Params := [types.I32]; Locals := []; body := [];
     Vars := [("x", {| Param := true; VarIndex := 0; Type_ := types.I32 |})];
     TableIndexes := [] |}.

Definition bodyCoder : coder :=
  set_regsInt (regAllocator.init (AvailableIntRegs backend.X86))
    (set_vars [zeroVar] (set_function unaryFunction (newCoder emptyModule 0))).

Definition getX : sexp := Lst [Str "get_local"; Str "x"].
Definition const (s : string) : sexp := Lst [Str "i32.const"; Str s].


(** The coder inside a block [$exit] which was entered at stack offset 8,
    with 24 bytes on the stack. *)
Definition exitTarget : branchTarget.t :=
  {| branchTarget.label := 1; branchTarget.name := "$exit";
     branchTarget.expectType := types.Void; branchTarget.stackOffset := 8;
     branchTarget.functionEnd := false |}.

Definition endTarget : branchTarget.t :=
  {| branchTarget.label := 0; branchTarget.name := "";
     branchTarget.expectType := types.I32; branchTarget.stackOffset := 0;
     branchTarget.functionEnd := true |}.

Definition blockCoder : coder :=
  set_textLen 256
    (set_stackOffset 24
       (set_maxStackOffset 24
          (set_targetStack [endTarget; exitTarget]
             (set_labels [links.new; links.new] bodyCoder)))).


(** The coder about to lower a br_table whose condition is in a temporary
    register: inside the block [$exit] and an inner block [$inner] entered
    at stack offset 16. *)
Definition innerTarget : branchTarget.t :=
  {| branchTarget.label := 2; branchTarget.name := "$inner";
     branchTarget.expectType := types.Void; branchTarget.stackOffset := 16;
     branchTarget.functionEnd := false |}.

Definition tableCoder : coder :=
  match regAllocator.alloc (regsInt blockCoder) with
  | Some (reg, ra) =>
      set_operands [values.TempRegOperand reg false]
        (set_regsInt ra
           (set_targetStack [endTarget; exitTarget; innerTarget]
              (set_labels [links.new; links.new; links.new] blockCoder)))
  | None => blockCoder
  end.


Lemma backend_emitsOnly : emitsOnly backend.X86.
Proof.
  intros off c0 r0 c1 H. cbn in H.
  destruct (off =? 0); inversion H; reflexivity.
Qed.

(** The coder after the branch, and after the table dispatch. *)
Definition afterBr : coder :=
  match exprBr backend.X86 (exprN backend.X86 1) "br" [Str "$exit"] blockCoder [] with
  | OK (_, c, _) => c
  | Panic _ => blockCoder
  end.

Definition afterBrTable : coder :=
  match exprBrTable backend.X86 exitTarget [exitTarget; innerTarget] 0 tableCoder [] with
  | OK (_, c, _) => c
  | Panic _ => tableCoder
  end.

Definition mixedDispatch : list mop.t :=
  [mop.OpAddImmToStackPtr 16; mop.OpBranchIfOutOfBounds 1%nat 2 0;
   mop.OpLoadROIntIndex32ScaleDisp types.I64 1%nat false 3 0;
   mop.OpMoveReg types.I64 3%nat 1%nat;
   mop.OpShiftRightLogical32Bits 3%nat; mop.OpAddToStackPtr 3%nat;
   mop.OpBranchIndirect32 1%nat false].

Lemma C10_identity_operand_witness :
  exprBinaryOp backend.X86 (exprN backend.X86 1) "i32.add" "add" types.I32
    [getX; const "0"] bodyCoder []
  = OK ((values.VarOperand 0, false), set_operands [values.VarOperand 0] bodyCoder, []).
Proof.
  apply (C10_identity_operand_folds_to_left backend.X86 (exprN backend.X86 1)
           "i32.add" "add" types.I32 getX (const "0")
           bodyCoder bodyCoder (set_operands [values.VarOperand 0] bodyCoder) [] [] []
           (values.VarOperand 0) (values.VarOperand 0) (values.ImmBits 0));
    vm_compute; reflexivity.
Defined.

Lemma C3_division_by_one_witness :
  exprBinaryOp backend.X86 (exprN backend.X86 1) "i32.div_s" "div_s" types.I32
    [getX; const "-1"] bodyCoder []
  = OK ((values.ImmBits 0, false), set_operands [values.VarOperand 0] bodyCoder, []).
Proof.
  apply (proj2 (C3_division_by_one_folds_to_zero backend.X86 (exprN backend.X86 1)
           "i32.div_s" "div_s" types.I32 getX (const "-1")
           bodyCoder bodyCoder (set_operands [values.VarOperand 0] bodyCoder) [] [] []
           (values.VarOperand 0) (values.VarOperand 0) (values.ImmBits (2 ^ 64 - 1)) (-1)
           (or_introl (conj eq_refl (or_intror eq_refl)))
           eq_refl eq_refl eq_refl eq_refl) tt).
  reflexivity.
Defined.

Lemma C8_branch_witness :
  true = true /\
  ((exists c0 tr0 c1 tr1 addr,
      brPrepare backend.X86 c0 tr0 = OK (tt, c1, tr1) /\
      [mop.OpAddImmToStackPtr 16; mop.OpBranch 0] =
        tr1 ++ [mop.OpAddImmToStackPtr (stackOffset c1 - branchTarget.stackOffset exitTarget);
                mop.OpBranch addr])
   \/ (exists tr0, [mop.OpAddImmToStackPtr 16; mop.OpBranch 0] = tr0 ++ [mop.OpAbort])).
Proof.
  apply (C8_branch_adjusts_stack_pointer backend.X86 (exprN backend.X86 1)
           "br" [Str "$exit"]
           {| br_exprName := "br"; tableIndexes := []; defaultIndex := Str "$exit";
              valueExpr := None; condExpr := None |}
           exitTarget blockCoder afterBr []
           [mop.OpAddImmToStackPtr 16; mop.OpBranch 0] true);
    vm_compute; reflexivity.
Defined.

Lemma C6_branch_table_witness :
  exists front table,
    branchTables afterBrTable = front ++ [table] /\
    branchTable.targets table = [exitTarget; innerTarget] /\
    forall cg trg x cg' trg',
      patchBranchTable table (branchTable.targets table) (branchTable.roDataAddr table) cg trg
        = OK (x, cg', trg') ->
      forall i target, nth_error [exitTarget; innerTarget] i = Some target ->
      exists lab,
        nth_error (labels cg) (branchTarget.label target) = Some lab /\
        let buf := dataArena.buf (roData cg') in
        let base := Z.to_nat (branchTable.roDataAddr table) in
        if forallb (fun t => branchTarget.stackOffset t =? branchTarget.stackOffset exitTarget)
                   [innerTarget]
        then
          entrySize table = 4%nat /\
          firstn 4 (skipn (base + 4 * i) buf) = le_split 4 (uint32 (links.Address lab))
        else
          entrySize table = 8%nat /\
          binary.Uint32 buf (base + 8 * i) = uint32 (links.Address lab) /\
          binary.Uint32 buf (base + 8 * i + 4) =
            uint32 (branchTarget.stackOffset exitTarget - branchTarget.stackOffset target).
Proof.
  apply (C6_branch_table_entry_layout backend.X86 exitTarget exitTarget [innerTarget] 0%nat
           tableCoder [] true afterBrTable mixedDispatch backend_emitsOnly);
    [simpl; lia | simpl; lia | vm_compute; reflexivity].
Defined.

Lemma C7_branch_table_dispatch_witness :
  exists front table trp dispatch reg reg2 cp cq lab,
    branchTables afterBrTable = front ++ [table] /\
    mixedDispatch = trp ++ dispatch /\
    nth_error (labels cq) (branchTarget.label exitTarget) = Some lab /\
    forall (RODataAddr : Z) (rodata : list byte) (m : x86.cpu),
      x86.operandReg reg = true ->
      (forall r2, reg2 = Some r2 -> x86.operandReg r2 = true /\ r2 <> reg) ->
      let count := Z.of_nat (List.length [exitTarget; innerTarget]) in
      let base := Z.to_nat (branchTable.roDataAddr table) in
      count < 2 ^ 31 ->
      0 <= RODataAddr ->
      RODataAddr + Z.of_nat (List.length rodata) <= 2 ^ 31 ->
      (base + entrySize table * List.length [exitTarget; innerTarget] <= List.length rodata)%nat ->
      let v := int32 (x86.gpr m reg) in
      exists m',
        x86.run RODataAddr rodata dispatch m =
          (if (v <? 0) || (count <=? v)
           then x86.Branch (links.Address lab) m'
           else x86.Jump (uint64 (binary.Uint32 rodata (base + entrySize table * Z.to_nat v)
                                  + x86.gpr m x86.RegTextBase)) m') /\
        uint64 (x86.gpr m' x86.RegStackPtr) =
          uint64 (x86.gpr m x86.RegStackPtr +
                  (stackOffset cp - branchTarget.stackOffset exitTarget) +
                  (if (v <? 0) || (count <=? v) then 0
                   else if Nat.eqb (entrySize table) 4
                        then branchTarget.stackOffset exitTarget - branchTarget.stackOffset exitTarget
                        else binary.Uint32 rodata (base + 8 * Z.to_nat v + 4))).
Proof.
  apply (C7_branch_table_dispatch backend.X86 exitTarget exitTarget [innerTarget] 0%nat
           tableCoder [] true afterBrTable mixedDispatch backend_emitsOnly);
    [simpl; lia | simpl; lia | vm_compute; reflexivity].
Defined.

(** The dispatch of that table on the processor, with the table patched for
    [$exit] at text address 320 and [$inner] at 300: the index 1 leads to
    [$inner], the index 2 (out of bounds) and the index -1 to the default. *)
Definition patchedTable : list byte :=
  match patchBranchTable
          {| branchTable.roDataAddr := 0; branchTable.targets := [exitTarget; innerTarget];
             branchTable.codeStackOffset := 8 |}
          [exitTarget; innerTarget] 0
          (set_labels [links.new; links.withAddress 320 links.new; links.withAddress 300 links.new]
                      afterBrTable) [] with
  | OK (_, c, _) => dataArena.buf (roData c)
  | Panic _ => []
  end.

Definition cpuWith (index : Z) : x86.cpu :=
  {| x86.gpr := fun r =>
       if Nat.eqb r 1 then index
       else if Nat.eqb r x86.RegStackPtr then 65536
       else if Nat.eqb r x86.RegTextBase then 4194304
       else 0;
     x86.eflags := None |}.

Definition outcomeOf (o : x86.outcome) : string * Z * Z :=
  match o with
  | x86.Next m => ("next", 0, x86.gpr m x86.RegStackPtr)
  | x86.Branch a m => ("branch", a, x86.gpr m x86.RegStackPtr)
  | x86.Jump a m => ("jump", a, x86.gpr m x86.RegStackPtr)
  | x86.Fault => ("fault", 0, 0)
  end.


(** A packed entry's delta is added to the stack pointer zero-extended: for
    [$inner], which lies 8 bytes deeper than the default target, the entry
    holds 2^32 - 8 and the stack pointer ends 2^32 - 8 above the default
    target's, not 8 below. *)
Example dispatch_runs :
  patchedTable =
    [Byte.x40; Byte.x01; Byte.x00; Byte.x00; Byte.x00; Byte.x00; Byte.x00; Byte.x00;
     Byte.x2c; Byte.x01; Byte.x00; Byte.x00; Byte.xf8; Byte.xff; Byte.xff; Byte.xff] /\
  outcomeOf (x86.run 4096 patchedTable mixedDispatch (cpuWith 0)) = ("jump", 4194624, 65552) /\
  outcomeOf (x86.run 4096 patchedTable mixedDispatch (cpuWith 1)) = ("jump", 4194604, 4295032840) /\
  outcomeOf (x86.run 4096 patchedTable mixedDispatch (cpuWith 2)) = ("branch", 0, 65552) /\
  outcomeOf (x86.run 4096 patchedTable mixedDispatch (cpuWith (2 ^ 32 - 1))) = ("branch", 0, 65552).
Proof. repeat split; vm_compute; reflexivity. Qed.

(** * The x86-64 instruction encoders (part_001)

    The encoders append the bytes of one instruction to the text.
    Modelled from the spec: [gen.Text] is not among the sources; it is the
    text buffer, a byte sequence which grows at its end, and [Pos] is its
    length.  Register numbers, opcodes and the fields of a byte are Go
    [byte]s, here numbers which the buffer takes modulo 256.  The operand
    type [abi.Type] of the encoders is [types.T], with the sizes
    [types.Size32] and [types.Size64]. *)

Module insn.

Definition Text : Type := list byte.

Definition Pos (text : Text) : Z := Z.of_nat (List.length text).
Definition PutByte (text : Text) (b : Z) : Text := text ++ [byte.of_Z b].
Definition PutBytes (text : Text) (bs : list Z) : Text := text ++ map byte.of_Z bs.
Definition PutInt8 (text : Text) (v : Z) : Text := text ++ le_split 1 v.
Definition PutInt16 (text : Text) (v : Z) : Text := text ++ le_split 2 v.
Definition PutInt32 (text : Text) (v : Z) : Text := text ++ le_split 4 v.
Definition PutInt64 (text : Text) (v : Z) : Text := text ++ le_split 8 v.

Definition Rex : Z := Z.shiftl 1 6.
Definition RexW : Z := Z.lor Rex (Z.shiftl 1 3).
Definition RexR : Z := Z.lor Rex (Z.shiftl 1 2).
Definition RexX : Z := Z.lor Rex (Z.shiftl 1 1).
Definition RexB : Z := Z.lor Rex (Z.shiftl 1 0).

Definition putRex (text : Text) (rex ro index rmOrBase : Z) : Text :=
  let rex := if ro >=? 8 then Z.lor rex RexR else rex in
  let rex := if index >=? 8 then Z.lor rex RexX else rex in
  let rex := if rmOrBase >=? 8 then Z.lor rex RexB else rex in
  if negb (rex =? 0) then PutByte text rex else text.

Definition putRexSize (text : Text) (t : types.T) (ro index rmOrBase : Z) : Res Text :=
  if types.Size t =? types.Size32 then OK (putRex text 0 ro index rmOrBase)
  else if types.Size t =? types.Size64 then OK (putRex text RexW ro index rmOrBase)
  else Panic "type".

Definition ModMem : Z := 0.
Definition ModMemDisp8 : Z := Z.lor (Z.shiftl 0 7) (Z.shiftl 1 6).
Definition ModMemDisp32 : Z := Z.lor (Z.shiftl 1 7) (Z.shiftl 0 6).
Definition ModReg : Z := Z.lor (Z.shiftl 1 7) (Z.shiftl 1 6).

Definition dispMod (baseReg : Z) (offset : Z) : Z :=
  if (offset =? 0) && negb (Z.land baseReg 7 =? 5) (* rbp and r13 need displacement *)
  then ModMem
  else if (offset >=? -128) && (offset <? 128) then ModMemDisp8
  else ModMemDisp32.

Definition putMod (text : Text) (mod_ ro rm : Z) : Text :=
  PutByte text (Z.lor (Z.lor mod_ (Z.shiftl (Z.land ro 7) 3)) (Z.land rm 7)).

Definition putDisp (text : Text) (mod_ : Z) (offset : Z) : Text :=
  if mod_ =? ModMemDisp8 then PutInt8 text (offset)
  else if mod_ =? ModMemDisp32 then PutInt32 text offset
  else text.

Definition MemSIB : Z := Z.shiftl 1 2.
Definition MemDisp32 : Z := Z.lor (Z.shiftl 1 2) (Z.shiftl 1 0).
Definition NoIndex : Z := Z.shiftl 1 2.
Definition NoBase : Z := Z.lor (Z.shiftl 1 2) (Z.shiftl 1 0).

Definition putSib (text : Text) (scale index base : Z) : Res Text :=
  if scale >=? 4 then Panic "scale factor out of bounds"
  else OK (PutByte text (Z.lor (Z.lor (Z.shiftl scale 6) (Z.shiftl (Z.land index 7) 3))
                               (Z.land base 7))).

(** [insnConst] *)
Definition insnConst_op (opcode : list Z) (text : Text) : Text := PutBytes text opcode.

(** [insnO] *)
Definition insnO_op (opbase : Z) (text : Text) (reg : Z) : Res Text :=
  if reg >=? 8 then Panic "register not supported by instruction"
  else OK (PutByte text (opbase + reg)).

(** [insnAddr8]: a branch with an 8-bit displacement; the result tells
    whether the instruction was written. *)
Definition insnAddr8_size (opcode : list Z) : Z := Z.of_nat (List.length opcode) + 1.

Definition insnAddr8_op (opcode : list Z) (text : Text) (addr : Z) : Text * bool :=
  let insnSize := Z.of_nat (List.length opcode) + 1 in
  let siteAddr := int32 (Pos text + insnSize) in
  let offset := int32 (addr - siteAddr) in
  if (offset >=? -128) && (offset <? 128)
  then (PutInt8 (PutBytes text opcode) offset, true)
  else (text, false).

Definition insnAddr8_opStub (opcode : list Z) (text : Text) : Text :=
  fst (insnAddr8_op opcode text (Pos text)). (* infinite loop as placeholder *)

(** [insnAddr32]: a branch or call with a 32-bit displacement. *)
Definition insnAddr32_size (opcode : list Z) : Z := Z.of_nat (List.length opcode) + 4.

Definition insnAddr32_put (opcode : list Z) (text : Text) (offset : Z) : Text :=
  PutInt32 (PutBytes text opcode) offset.

Definition insnAddr32_op (opcode : list Z) (text : Text) (addr : Z) : Text :=
  let offset :=
    if negb (addr =? 0) then
      let siteAddr := int32 (Pos text + insnAddr32_size opcode) in
      int32 (addr - siteAddr)
    else int32 (- insnAddr32_size opcode) (* infinite loop as placeholder *) in
  insnAddr32_put opcode text offset.

Definition insnAddr32_opMissingFunc (opcode : list Z) (text : Text) : Text :=
  let siteAddr := int32 (Pos text + insnAddr32_size opcode) in
  insnAddr32_put opcode text (int32 (- siteAddr)).

(** [insnAddr]: the short form when it reaches the address. *)
Definition insnAddr_op (rel8 rel32 : list Z) (text : Text) (addr : Z) : Text :=
  let '(text', ok) :=
    if negb (addr =? 0) then insnAddr8_op rel8 text addr else (text, false) in
  if negb ok then insnAddr32_op rel32 text' addr else text'.

(** [insnRexOM] *)
Definition insnRexOM_opReg (opcode : list Z) (ro : Z) (text : Text) (reg : Z) : Text :=
  putMod (PutBytes (putRex text 0 0 0 reg) opcode) ModReg ro reg.

(** [insnRexM] *)
Definition insnRexM_opReg (opcode : list Z) (ro : Z) (text : Text) (t : types.T) (reg : Z)
  : Res Text :=
  match putRexSize text t 0 0 reg with
  | OK text => OK (putMod (PutBytes text opcode) ModReg ro reg)
  | Panic e => Panic e
  end.

(** [insnPrefixMI]: an instruction with an immediate operand in one of
    three widths; an opcode 0 stands for a width the instruction lacks. *)
Definition immOpcode (opcode8 opcode16 opcode32 : Z) (value : Z) : Res Z :=
  if negb (opcode8 =? 0) && (value >=? -128) && (value <? 128) then OK opcode8
  else if negb (opcode16 =? 0) && (value >=? -32768) && (value <? 32768) then OK opcode16
  else if negb (opcode32 =? 0) then OK opcode32
  else Panic "immediate value out of range".

Definition putImm (opcode8 opcode16 : Z) (text : Text) (opcode : Z) (value : Z) : Text :=
  if opcode =? opcode8 then PutInt8 text value
  else if opcode =? opcode16 then PutInt16 text value
  else PutInt32 text value.

End insn.

(** * The x86-64 backend's text operations (part_002)

    The operations which write and patch branches and calls, on the bytes
    of the text.  [m.Text.Addr] is the position at which the next byte is
    written.  A label ([link.L], with [Addr], [Sites] and [FinalAddr]) is a
    [links.L]. *)

Module isa.

Definition FuncAlignment : Z := 16.
Definition PaddingByte : Z := 204. (* int3 instruction *)

Definition ret : list Z := [195].
Definition callRel : list Z := [232].
Definition jmpRel : list Z * list Z := ([235], [233]).

Definition nopSequences : list (list Z) :=
  [ [144];
    [102; 144];
    [15; 31; 0];
    [15; 31; 64; 0];
    [15; 31; 68; 0; 0];
    [102; 15; 31; 68; 0; 0];
    [15; 31; 128; 0; 0; 0; 0];
    [15; 31; 132; 0; 0; 0; 0; 0];
    [102; 15; 31; 132; 0; 0; 0; 0; 0] ].

(** [updateTextAddr]: slicing [text[addr-4:addr]] panics outside the text. *)
Definition updateTextAddr (text : insn.Text) (addr value : Z) : Res insn.Text :=
  if addr <? 4 then Panic "slice bounds out of range"
  else binary.PutUint32 text (Z.to_nat (addr - 4)) (uint32 value).

Fixpoint updateSites (text : insn.Text) (labelAddr : Z) (sites : list Z) : Res insn.Text :=
  match sites with
  | [] => OK text
  | retAddr :: rest =>
      match updateTextAddr text retAddr (int32 (labelAddr - retAddr)) with
      | OK text => updateSites text labelAddr rest
      | Panic e => Panic e
      end
  end.

(** [UpdateBranches] modifies 32-bit relocations of Jmp and Jcc
    instructions. *)
Definition UpdateBranches (text : insn.Text) (l : links.L) : Res insn.Text :=
  match links.FinalAddress l with
  | OK labelAddr => updateSites text labelAddr (links.Sites l)
  | Panic e => Panic e
  end.

(** [UpdateStackCheck] modifies the 32-bit displacement of a Lea
    instruction. *)
Definition UpdateStackCheck (text : insn.Text) (addr disp : Z) : Res insn.Text :=
  updateTextAddr text addr (int32 (- disp)).

(** [UpdateCalls] modifies CallRel instructions; the store is atomic in the
    source, which makes no difference to the bytes stored. *)
Definition UpdateCalls (text : insn.Text) (l : links.L) : Res insn.Text :=
  match links.FinalAddress l with
  | OK funcAddr => updateSites text funcAddr (links.Sites l)
  | Panic e => Panic e
  end.

Definition alignFunc (text : insn.Text) : insn.Text :=
  let n := Z.land (FuncAlignment - insn.Pos text) (FuncAlignment - 1) in
  text ++ repeat (byte.of_Z PaddingByte) (Z.to_nat n).

Definition OpInitCall (text : insn.Text) : insn.Text * Z :=
  (* no alignment since initial calls are always generated before execution *)
  let text := insn.insnAddr32_opMissingFunc callRel text in
  (text, insn.Pos text).

Definition OpCall (text : insn.Text) (addr : Z) : Res (insn.Text * Z) :=
  if addr =? 0 then
    (* address slot must be aligned *)
    let relPos := Z.land (int32 (insn.Pos text + insn.insnAddr32_size callRel)) 3 in
    let padded :=
      if relPos >? 0 then
        let padSize := 4 - relPos in
        match nth_error nopSequences (Z.to_nat (padSize - 1)) with
        | Some nop => OK (insn.PutBytes text nop)
        | None => Panic "index out of range"
        end
      else OK text in
    match padded with
    | OK text =>
        let text := insn.insnAddr32_opMissingFunc callRel text in
        OK (text, insn.Pos text)
    | Panic e => Panic e
    end
  else
    let text := insn.insnAddr32_op callRel text addr in
    OK (text, insn.Pos text).

Definition OpReturn (text : insn.Text) : insn.Text := insn.insnConst_op ret text.

Definition OpBranch (text : insn.Text) (addr : Z) : insn.Text * Z :=
  let text := insn.insnAddr_op (fst jmpRel) (snd jmpRel) text addr in
  (text, insn.Pos text).

(** [updateLocalAddr] modifies the 8-bit relocation of a Jmp or Jcc
    instruction. *)
Definition updateLocalAddr (text : insn.Text) (addr value : Z) : Res insn.Text :=
  if (value <? -128) || (value >=? 128) then Panic "value"
  else if addr <? 1 then Panic "index out of range"
  else binary.put text (Z.to_nat (addr - 1)) [byte.of_Z value].

Fixpoint updateLocalSites (text : insn.Text) (labelAddr : Z) (sites : list Z)
  : Res insn.Text :=
  match sites with
  | [] => OK text
  | retAddr :: rest =>
      match updateLocalAddr text retAddr (int32 (labelAddr - retAddr)) with
      | OK text => updateLocalSites text labelAddr rest
      | Panic e => Panic e
      end
  end.

Definition updateLocalBranches (text : insn.Text) (l : links.L) : Res insn.Text :=
  match links.FinalAddress l with
  | OK labelAddr => updateLocalSites text labelAddr (links.Sites l)
  | Panic e => Panic e
  end.

End isa.

(** ** What the encoded branches and calls do *)

(** The displacement a processor reads in the four bytes before [site],
    and the address a relative branch or call ending at [site] leads to. *)
Definition disp32At (text : insn.Text) (site : Z) : Z :=
  int32 (le_combine (firstn 4 (skipn (Z.to_nat (site - 4)) text))).

Definition target32 (text : insn.Text) (site : Z) : Z := site + disp32At text site.

Definition disp8At (text : insn.Text) (site : Z) : Z :=
  let u := le_combine (firstn 1 (skipn (Z.to_nat (site - 1)) text)) in
  if u <? 128 then u else u - 256.

Definition target8 (text : insn.Text) (site : Z) : Z := site + disp8At text site.

Lemma int32_le_split (v : Z) : int32 (le_combine (le_split 4 v)) = int32 v.
Proof.
  rewrite le_combine_split. change (v mod 2 ^ (Z.of_nat 4 * 8)) with (uint32 v).
  apply int32_uint32.
Qed.

Lemma disp32At_put (code : insn.Text) (v : Z) :
  disp32At (insn.PutInt32 code v) (insn.Pos (insn.PutInt32 code v)) = int32 v.
Proof.
  unfold disp32At, insn.PutInt32, insn.Pos.
  rewrite length_app, length_le_split.
  replace (Z.to_nat (Z.of_nat (List.length code + 4) - 4)) with (List.length code) by lia.
  rewrite skipn_app_exact.
  rewrite firstn_all2 by (rewrite length_le_split; lia).
  apply int32_le_split.
Qed.

Lemma Pos_insnAddr32_put opcode text v :
  insn.Pos (insn.insnAddr32_put opcode text v) = insn.Pos text + insn.insnAddr32_size opcode.
Proof.
  unfold insn.insnAddr32_put, insn.PutInt32, insn.PutBytes, insn.Pos, insn.insnAddr32_size.
  rewrite !length_app, length_map, length_le_split. lia.
Qed.

Lemma target32_insnAddr32_put opcode text v :
  target32 (insn.insnAddr32_put opcode text v) (insn.Pos (insn.insnAddr32_put opcode text v)) =
  insn.Pos text + insn.insnAddr32_size opcode + int32 v.
Proof.
  unfold target32. rewrite Pos_insnAddr32_put.
  rewrite <- (Pos_insnAddr32_put opcode text v).
  unfold insn.insnAddr32_put. rewrite disp32At_put.
  fold (insn.insnAddr32_put opcode text v). rewrite Pos_insnAddr32_put. reflexivity.
Qed.

Lemma insnAddr32_op_target (opcode : list Z) (text : insn.Text) (addr : Z) :
  insn.Pos text + insn.insnAddr32_size opcode < 2 ^ 31 ->
  0 <= addr < 2 ^ 31 ->
  insn.Pos (insn.insnAddr32_op opcode text addr) = insn.Pos text + insn.insnAddr32_size opcode /\
  target32 (insn.insnAddr32_op opcode text addr) (insn.Pos (insn.insnAddr32_op opcode text addr)) =
    (if addr =? 0 then insn.Pos text else addr).
Proof.
  intros Hpos Haddr.
  assert (Hp : 0 <= insn.Pos text) by (unfold insn.Pos; lia).
  assert (Hs : 0 < insn.insnAddr32_size opcode) by (unfold insn.insnAddr32_size; lia).
  unfold insn.insnAddr32_op.
  rewrite !target32_insnAddr32_put, !Pos_insnAddr32_put.
  rewrite (int32_small (insn.Pos text + insn.insnAddr32_size opcode)) by lia.
  split; [reflexivity|].
  destruct (Z.eqb_spec addr 0) as [->|Hne]; cbn [negb];
    rewrite !int32_small by (try rewrite int32_small; lia); lia.
Qed.

Lemma insnAddr32_opMissingFunc_target (opcode : list Z) (text : insn.Text) :
  insn.Pos text + insn.insnAddr32_size opcode < 2 ^ 31 ->
  insn.Pos (insn.insnAddr32_opMissingFunc opcode text) =
    insn.Pos text + insn.insnAddr32_size opcode /\
  target32 (insn.insnAddr32_opMissingFunc opcode text)
           (insn.Pos (insn.insnAddr32_opMissingFunc opcode text)) = 0.
Proof.
  intros Hpos.
  assert (Hp : 0 <= insn.Pos text) by (unfold insn.Pos; lia).
  assert (Hs : 0 < insn.insnAddr32_size opcode) by (unfold insn.insnAddr32_size; lia).
  unfold insn.insnAddr32_opMissingFunc.
  rewrite !target32_insnAddr32_put, !Pos_insnAddr32_put.
  rewrite (int32_small (insn.Pos text + insn.insnAddr32_size opcode)) by lia.
  split; [reflexivity|].
  rewrite !int32_small by (try rewrite int32_small; lia). lia.
Qed.

(** X1: a branch or call which [insnAddr32.op] writes leads to [addr]; when
    [addr] is 0 (the target is not known yet) it leads to its own first
    byte, an endless loop which holds the place until the site is updated.
    A call which [opMissingFunc] writes leads to text address 0. *)
Theorem insnAddr32_targets (opcode : list Z) (text : insn.Text) (addr : Z) :
  insn.Pos text + insn.insnAddr32_size opcode < 2 ^ 31 ->
  0 <= addr < 2 ^ 31 ->
  let text' := insn.insnAddr32_op opcode text addr in
  let missing := insn.insnAddr32_opMissingFunc opcode text in
  insn.Pos text' = insn.Pos text + insn.insnAddr32_size opcode /\
  target32 text' (insn.Pos text') = (if addr =? 0 then insn.Pos text else addr) /\
  insn.Pos missing = insn.Pos text + insn.insnAddr32_size opcode /\
  target32 missing (insn.Pos missing) = 0.
Proof.
  intros Hpos Haddr text' missing.
  destruct (insnAddr32_op_target opcode text addr Hpos Haddr) as [H1 H2].
  destruct (insnAddr32_opMissingFunc_target opcode text Hpos) as [H3 H4].
  subst text' missing. repeat split; assumption.
Qed.

(** The theorem at a call ([0xe8]) written at text position 3 to address 64. *)
Lemma insnAddr32_targets_witness :
  target32 (insn.insnAddr32_op [232] (repeat Byte.x90 3) 64)
           (insn.Pos (insn.insnAddr32_op [232] (repeat Byte.x90 3) 64)) = 64.
Proof.
  apply (insnAddr32_targets [232] (repeat Byte.x90 3) 64); vm_compute; intuition congruence.
Defined.

Lemma disp8At_put (code : insn.Text) (v : Z) :
  -128 <= v < 128 ->
  disp8At (insn.PutInt8 code v) (insn.Pos (insn.PutInt8 code v)) = v.
Proof.
  intros Hv. unfold disp8At, insn.PutInt8, insn.Pos.
  rewrite length_app, length_le_split.
  replace (Z.to_nat (Z.of_nat (List.length code + 1) - 1)) with (List.length code) by lia.
  rewrite skipn_app_exact.
  rewrite firstn_all2 by (rewrite length_le_split; lia).
  rewrite le_combine_split. change (2 ^ (Z.of_nat 1 * 8)) with 256.
  destruct (Z.ltb_spec (v mod 256) 128) as [Hlt|Hge].
  - destruct (Z.lt_ge_cases v 0) as [Hn|Hn].
    + replace (v mod 256) with (v + 256) in Hlt
        by (apply Z.mod_unique with (q := -1); lia). lia.
    + apply Z.mod_small. lia.
  - destruct (Z.lt_ge_cases v 0) as [Hn|Hn].
    + replace (v mod 256) with (v + 256)
        by (apply Z.mod_unique with (q := -1); lia). lia.
    + rewrite Z.mod_small in Hge by lia. lia.
Qed.

Lemma Pos_PutInt8_PutBytes text opcode v :
  insn.Pos (insn.PutInt8 (insn.PutBytes text opcode) v) =
  insn.Pos text + insn.insnAddr8_size opcode.
Proof.
  unfold insn.PutInt8, insn.PutBytes, insn.Pos, insn.insnAddr8_size.
  rewrite !length_app, length_map, length_le_split. lia.
Qed.

(** X2: [insnAddr.op] writes the short form of a branch exactly when the
    target is known (not 0) and within reach of an 8-bit displacement, and
    the 32-bit form otherwise; either way the branch leads to [addr].  A
    branch to a target not yet known always takes the 32-bit form, the
    one which [UpdateBranches] patches, and leads to its own first byte. *)
Theorem insnAddr_op_form (rel8 rel32 : list Z) (text : insn.Text) (addr : Z) :
  insn.Pos text + insn.insnAddr8_size rel8 < 2 ^ 31 ->
  insn.Pos text + insn.insnAddr32_size rel32 < 2 ^ 31 ->
  0 <= addr < 2 ^ 31 ->
  let text' := insn.insnAddr_op rel8 rel32 text addr in
  let site8 := insn.Pos text + insn.insnAddr8_size rel8 in
  if negb (addr =? 0) && (-128 <=? addr - site8) && (addr - site8 <? 128)
  then insn.Pos text' = site8 /\ target8 text' (insn.Pos text') = addr
  else insn.Pos text' = insn.Pos text + insn.insnAddr32_size rel32 /\
       target32 text' (insn.Pos text') = (if addr =? 0 then insn.Pos text else addr).
Proof.
  intros H8 H32 Haddr text' site8.
  assert (Hp : 0 <= insn.Pos text) by (unfold insn.Pos; lia).
  assert (Hs : 0 < insn.insnAddr8_size rel8) by (unfold insn.insnAddr8_size; lia).
  pose proof (insnAddr32_op_target rel32 text addr H32 Haddr) as (HP & HT).
  subst text'. unfold insn.insnAddr_op.
  destruct (Z.eqb_spec addr 0) as [->|Hne]; cbn [negb andb].
  - split; assumption.
  - unfold insn.insnAddr8_op. fold (insn.insnAddr8_size rel8).
    rewrite (int32_small (insn.Pos text + insn.insnAddr8_size rel8)) by lia.
    rewrite (int32_small (addr - _)) by lia. fold site8.
    rewrite Z.geb_leb.
    destruct (Z.leb_spec (-128) (addr - site8)) as [Hlo|Hlo]; cbn [andb].
    + destruct (Z.ltb_spec (addr - site8) 128) as [Hhi|Hhi]; cbn [negb].
      * split; [apply Pos_PutInt8_PutBytes|].
        unfold target8. rewrite disp8At_put by lia.
        rewrite Pos_PutInt8_PutBytes. subst site8. lia.
      * revert HT. destruct (Z.eqb_spec addr 0); [contradiction|]. intros HT.
        split; assumption.
    + revert HT. destruct (Z.eqb_spec addr 0); [contradiction|]. intros HT.
      split; assumption.
Qed.

(** The theorem at a jump ([0xeb] or [0xe9]) written at text position 3
    back to address 1. *)
Lemma insnAddr_op_form_witness :
  insn.Pos (insn.insnAddr_op [235] [233] (repeat Byte.x90 3) 1) = 5 /\
  target8 (insn.insnAddr_op [235] [233] (repeat Byte.x90 3) 1)
          (insn.Pos (insn.insnAddr_op [235] [233] (repeat Byte.x90 3) 1)) = 1.
Proof.
  apply (insnAddr_op_form [235] [233] (repeat Byte.x90 3) 1); vm_compute; intuition congruence.
Defined.

(** ** Calls, alignment and patching *)

Lemma land_3_mod (x : Z) : Z.land x 3 = x mod 4.
Proof. change 3 with (Z.ones 2). rewrite Z.land_ones by lia. reflexivity. Qed.

Lemma Pos_app (a b : insn.Text) : insn.Pos (a ++ b) = insn.Pos a + Z.of_nat (List.length b).
Proof. unfold insn.Pos. rewrite length_app. lia. Qed.

Lemma firstn_app_exact {A : Type} (a b : list A) : firstn (List.length a) (a ++ b) = a.
Proof. induction a; simpl; [destruct b; reflexivity | f_equal; assumption]. Qed.

Lemma target32_app (text rest : insn.Text) (site : Z) :
  4 <= site <= insn.Pos text ->
  target32 (text ++ rest) site = target32 text site.
Proof.
  intros Hs. unfold target32, disp32At. do 3 f_equal.
  unfold insn.Pos in Hs.
  rewrite skipn_app, firstn_app, length_skipn.
  replace (Z.to_nat (site - 4) - List.length text)%nat with 0%nat by lia.
  replace (4 - (List.length text - Z.to_nat (site - 4)))%nat with 0%nat by lia.
  cbn [firstn skipn]. apply app_nil_r.
Qed.

Lemma OpCall_missing (text : insn.Text) :
  insn.Pos text + 8 < 2 ^ 31 ->
  exists pad : list Z,
    (List.length pad <= 3)%nat /\
    (insn.Pos text + 5 + Z.of_nat (List.length pad)) mod 4 = 0 /\
    isa.OpCall text 0 =
      OK (insn.insnAddr32_opMissingFunc isa.callRel (insn.PutBytes text pad),
          insn.Pos (insn.insnAddr32_opMissingFunc isa.callRel (insn.PutBytes text pad))).
Proof.
  intros Hpos.
  assert (Hp : 0 <= insn.Pos text) by (unfold insn.Pos; lia).
  assert (Hsz : insn.insnAddr32_size isa.callRel = 5) by reflexivity.
  unfold isa.OpCall. cbn [Z.eqb].
  rewrite Hsz, land_3_mod, (int32_small (insn.Pos text + 5)) by lia.
  assert (Hcases : (insn.Pos text + 5) mod 4 = 0 \/ (insn.Pos text + 5) mod 4 = 1 \/
                   (insn.Pos text + 5) mod 4 = 2 \/ (insn.Pos text + 5) mod 4 = 3)
    by (pose proof (Z.mod_pos_bound (insn.Pos text + 5) 4); lia).
  destruct Hcases as [E|[E|[E|E]]]; rewrite E; cbn [Z.gtb Z.compare nth_error Z.sub Z.add
    Z.opp Z.pos_sub Z.to_nat Pos.pred_double Pos.to_nat Pos.iter_op Nat.add isa.nopSequences
    Z.succ_double Z.pred_double Z.double].
  - exists []. cbn [List.length]. rewrite Z.add_0_r.
    unfold insn.PutBytes. cbn [map]. rewrite app_nil_r.
    split; [lia|]. split; [exact E|reflexivity].
  - exists [15; 31; 0]. cbn [List.length]. rewrite Z.add_mod, E by lia.
    split; [lia|]. split; reflexivity.
  - exists [102; 144]. cbn [List.length]. rewrite Z.add_mod, E by lia.
    split; [lia|]. split; reflexivity.
  - exists [144]. cbn [List.length]. rewrite Z.add_mod, E by lia.
    split; [lia|]. split; reflexivity.
Qed.

Lemma firstn_opMissingFunc opcode text pad :
  firstn (List.length text) (insn.insnAddr32_opMissingFunc opcode (insn.PutBytes text pad)) = text.
Proof.
  unfold insn.insnAddr32_opMissingFunc, insn.insnAddr32_put, insn.PutInt32, insn.PutBytes.
  rewrite <- !app_assoc. apply firstn_app_exact.
Qed.

Lemma Pos_PutBytes text pad :
  insn.Pos (insn.PutBytes text pad) = insn.Pos text + Z.of_nat (List.length pad).
Proof. unfold insn.PutBytes. rewrite Pos_app, length_map. reflexivity. Qed.

(** X3: a call to a function which has no address yet is padded by up to
    three bytes so that its return address, and with it the four-byte slot
    before it which [UpdateCalls] rewrites, is a multiple of 4; the call
    leads to text address 0, and [OpCall] never panics.  A call to a known
    address is written unpadded and leads to that address. *)
Theorem OpCall_aligns_missing_function (text : insn.Text) (addr : Z) :
  insn.Pos text + 8 < 2 ^ 31 ->
  0 <= addr < 2 ^ 31 ->
  exists text' retAddr,
    isa.OpCall text addr = OK (text', retAddr) /\
    retAddr = insn.Pos text' /\
    firstn (List.length text) text' = text /\
    if addr =? 0
    then retAddr mod 4 = 0 /\ insn.Pos text + 5 <= retAddr <= insn.Pos text + 8 /\
         target32 text' retAddr = 0
    else retAddr = insn.Pos text + 5 /\ target32 text' retAddr = addr.
Proof.
  intros Hpos Haddr.
  assert (Hp : 0 <= insn.Pos text) by (unfold insn.Pos; lia).
  assert (Hsz : insn.insnAddr32_size isa.callRel = 5) by reflexivity.
  destruct (Z.eqb_spec addr 0) as [->|Hne].
  - destruct (OpCall_missing text Hpos) as (pad & Hl & Hm & E).
    destruct (insnAddr32_opMissingFunc_target isa.callRel (insn.PutBytes text pad)) as [H1 H2];
      [rewrite Pos_PutBytes, Hsz; lia|].
    rewrite Pos_PutBytes, Hsz in H1.
    eexists _, _. split; [exact E|]. split; [reflexivity|].
    split; [apply firstn_opMissingFunc|]. rewrite H2, H1. repeat split; try lia.
    replace (insn.Pos text + Z.of_nat (List.length pad) + 5)
      with (insn.Pos text + 5 + Z.of_nat (List.length pad)) by lia. exact Hm.
  - unfold isa.OpCall. destruct (Z.eqb_spec addr 0); [contradiction|].
    destruct (insnAddr32_op_target isa.callRel text addr) as [H1 H2]; [rewrite Hsz; lia | lia |].
    revert H2. destruct (Z.eqb_spec addr 0); [contradiction|]. intros H2.
    eexists _, _. split; [reflexivity|]. rewrite Hsz in H1.
    repeat split; try assumption.
    unfold insn.insnAddr32_op, insn.insnAddr32_put, insn.PutInt32, insn.PutBytes.
    rewrite <- !app_assoc. apply firstn_app_exact.
Qed.

(** The theorem at a call written at text position 2, which takes one byte
    of padding. *)
Lemma OpCall_aligns_witness :
  exists text' retAddr,
    isa.OpCall (repeat Byte.x90 2) 0 = OK (text', retAddr) /\ retAddr mod 4 = 0.
Proof.
  destruct (OpCall_aligns_missing_function (repeat Byte.x90 2) 0) as (text' & retAddr & H & _ & _ & Hm & _).
  - vm_compute. reflexivity.
  - lia.
  - exists text', retAddr. split; assumption.
Defined.

Lemma updateTextAddr_inv text addr value text' :
  isa.updateTextAddr text addr value = OK text' ->
  4 <= addr <= insn.Pos text /\
  binary.put text (Z.to_nat (addr - 4)) (le_split 4 (uint32 value)) = OK text'.
Proof.
  unfold isa.updateTextAddr, binary.PutUint32.
  destruct (Z.ltb_spec addr 4) as [Hlt|Hge]; [discriminate|]. intros H. split; [|exact H].
  unfold binary.put in H. rewrite length_le_split in H.
  destruct (Nat.leb_spec (Z.to_nat (addr - 4) + 4) (List.length text)); [|discriminate].
  unfold insn.Pos. lia.
Qed.

Lemma disp32At_updateTextAddr text addr value text' :
  isa.updateTextAddr text addr value = OK text' -> disp32At text' addr = int32 value.
Proof.
  intros H0. apply updateTextAddr_inv in H0. destruct H0 as [_ H].
  unfold disp32At. apply put_window_same in H. rewrite length_le_split in H.
  rewrite H, int32_le_split. apply int32_uint32.
Qed.

Lemma disp32At_updateTextAddr_other text addr value text' site :
  isa.updateTextAddr text addr value = OK text' ->
  4 <= site -> site + 4 <= addr \/ addr + 4 <= site ->
  disp32At text' site = disp32At text site.
Proof.
  intros H0 Hs Hd. apply updateTextAddr_inv in H0. destruct H0 as [Ha H].
  unfold disp32At. f_equal. f_equal. eapply put_window_other; [eassumption|].
  rewrite length_le_split. lia.
Qed.

Lemma updateSites_range : forall sites text a text',
  isa.updateSites text a sites = OK text' ->
  insn.Pos text' = insn.Pos text /\
  (forall s, In s sites -> 4 <= s <= insn.Pos text).
Proof.
  induction sites as [|s rest IH]; intros text a text' H; cbn [isa.updateSites] in H.
  - inversion H; subst. split; [reflexivity|intros s []].
  - destruct (isa.updateTextAddr text s (int32 (a - s))) as [text1|] eqn:E; [|discriminate].
    pose proof (updateTextAddr_inv _ _ _ _ E) as [Hr Hput].
    assert (Hlen : insn.Pos text1 = insn.Pos text)
      by (unfold insn.Pos; f_equal; eapply put_length; eassumption).
    destruct (IH _ _ _ H) as (HP & HR).
    split; [congruence|].
    intros s' [<-|Hs']; [exact Hr|]. rewrite <- Hlen. apply HR. exact Hs'.
Qed.

Lemma updateSites_patched : forall sites text a text' site,
  isa.updateSites text a sites = OK text' ->
  4 <= site ->
  (forall s, In s sites -> s = site \/ s + 4 <= site \/ site + 4 <= s) ->
  disp32At text' site = if existsb (Z.eqb site) sites then int32 (a - site) else disp32At text site.
Proof.
  induction sites as [|s rest IH]; intros text a text' site H Hsite Hsep; cbn [isa.updateSites] in H.
  - inversion H; subst. reflexivity.
  - destruct (isa.updateTextAddr text s (int32 (a - s))) as [text1|] eqn:E; [|discriminate].
    rewrite (IH _ _ _ site H Hsite) by (intros s' Hs'; apply Hsep; right; exact Hs').
    cbn [existsb].
    destruct (existsb (Z.eqb site) rest); [rewrite orb_true_r; reflexivity|].
    rewrite orb_false_r. destruct (Z.eqb_spec site s) as [->|Hne].
    + rewrite (disp32At_updateTextAddr _ _ _ _ E).
      apply int32_small, int32_range.
    + eapply disp32At_updateTextAddr_other; [eassumption|assumption|].
      destruct (Hsep s (or_introl eq_refl)) as [?|[?|?]]; [congruence|lia|lia].
Qed.


Lemma updateTextAddr_ok text addr value :
  4 <= addr <= insn.Pos text ->
  exists text', isa.updateTextAddr text addr value = OK text'.
Proof.
  intros H. unfold isa.updateTextAddr, binary.PutUint32, binary.put, insn.Pos in *.
  destruct (Z.ltb_spec addr 4); [lia|]. rewrite length_le_split.
  destruct (Nat.leb_spec (Z.to_nat (addr - 4) + 4) (List.length text)); [|lia].
  eexists. reflexivity.
Qed.



(** X5: a call to a function not yet generated, once [UpdateCalls] has run
    with the function's label, leads to the function, whatever was written
    after the call in the meantime; the text keeps its length. *)
Theorem OpCall_then_UpdateCalls (text rest : insn.Text) (funcAddr : Z) :
  insn.Pos text + 8 + Z.of_nat (List.length rest) < 2 ^ 31 ->
  0 < funcAddr < 2 ^ 31 ->
  exists text1 retAddr text2,
    isa.OpCall text 0 = OK (text1, retAddr) /\
    isa.UpdateCalls (text1 ++ rest)
      {| links.Address := funcAddr; links.Sites := [retAddr]; links.live := false |} = OK text2 /\
    insn.Pos text2 = insn.Pos (text1 ++ rest) /\
    target32 (text1 ++ rest) retAddr = 0 /\
    target32 text2 retAddr = funcAddr.
Proof.
  intros Hpos Hf.
  assert (Hp : 0 <= insn.Pos text) by (unfold insn.Pos; lia).
  assert (Hsz : insn.insnAddr32_size isa.callRel = 5) by reflexivity.
  destruct (OpCall_missing text) as (pad & Hl & Hm & E); [lia|].
  destruct (insnAddr32_opMissingFunc_target isa.callRel (insn.PutBytes text pad)) as [H1 H2];
    [rewrite Pos_PutBytes, Hsz; lia|].
  rewrite Pos_PutBytes, Hsz in H1.
  set (text1 := insn.insnAddr32_opMissingFunc isa.callRel (insn.PutBytes text pad)) in *.
  assert (Hsite : 4 <= insn.Pos text1 <= insn.Pos (text1 ++ rest))
    by (rewrite Pos_app; lia).
  unfold isa.UpdateCalls, links.FinalAddress. cbn [links.Address links.Sites].
  destruct (Z.eqb_spec funcAddr 0); [lia|].
  destruct (updateTextAddr_ok (text1 ++ rest) (insn.Pos text1) (int32 (funcAddr - insn.Pos text1)) Hsite)
    as [text2 E2].
  assert (EU : isa.updateSites (text1 ++ rest) funcAddr [insn.Pos text1] = OK text2)
    by (cbn [isa.updateSites]; rewrite E2; reflexivity).
  exists text1, (insn.Pos text1), text2.
  split; [exact E|]. split; [exact EU|].
  split; [exact (proj1 (updateSites_range _ _ _ _ EU))|].
  split; [rewrite target32_app by lia; exact H2|].
  unfold target32. rewrite (updateSites_patched _ _ _ _ (insn.Pos text1) EU);
    [|lia|intros s [<-|[]]; left; reflexivity].
  cbn [existsb]. rewrite Z.eqb_refl. cbn [orb].
  rewrite int32_small by lia. lia.
Qed.

(** The theorem at a call written at text position 2 and followed by a
    return, for a function at address 64. *)
Lemma OpCall_then_UpdateCalls_witness :
  exists text1 retAddr text2,
    isa.OpCall (repeat Byte.x90 2) 0 = OK (text1, retAddr) /\
    isa.UpdateCalls (text1 ++ [Byte.xc3])
      {| links.Address := 64; links.Sites := [retAddr]; links.live := false |} = OK text2 /\
    target32 text2 retAddr = 64.
Proof.
  destruct (OpCall_then_UpdateCalls (repeat Byte.x90 2) [Byte.xc3] 64)
    as (text1 & retAddr & text2 & H1 & H2 & _ & _ & H3).
  - vm_compute. reflexivity.
  - lia.
  - exists text1, retAddr, text2. repeat split; assumption.
Defined.

(** X6: [alignFunc] pads the text with int3 bytes up to the next multiple
    of 16: fewer than 16 bytes, none when the text is aligned already, and
    nothing written before is touched. *)
Theorem alignFunc_pads_to_boundary (text : insn.Text) :
  exists gap : list byte,
    isa.alignFunc text = text ++ gap /\
    Forall (fun b => b = Byte.xcc) gap /\
    (List.length gap < 16)%nat /\
    insn.Pos (isa.alignFunc text) mod 16 = 0 /\
    (insn.Pos text mod 16 = 0 -> gap = []).
Proof.
  unfold isa.alignFunc, isa.FuncAlignment.
  change (16 - 1) with (Z.ones 4). rewrite Z.land_ones by lia. change (2 ^ 4) with 16.
  set (n := (16 - insn.Pos text) mod 16).
  assert (Hn : 0 <= n < 16) by (apply Z.mod_pos_bound; lia).
  exists (repeat (byte.of_Z isa.PaddingByte) (Z.to_nat n)).
  split; [reflexivity|]. split; [|split; [|split]].
  - apply Forall_forall. intros b Hb. apply repeat_spec in Hb. subst b. reflexivity.
  - rewrite repeat_length. lia.
  - rewrite Pos_app, repeat_length, Z2Nat.id by lia. subst n.
    rewrite Zplus_mod_idemp_r. replace (insn.Pos text + (16 - insn.Pos text)) with (1 * 16) by lia.
    apply Z.mod_mul. lia.
  - intros Ha. replace n with 0; [reflexivity|]. subst n.
    rewrite Zminus_mod, Ha. reflexivity.
Qed.

Lemma Pos_opStub opcode text :
  (List.length opcode < 128)%nat ->
  insn.Pos text + insn.insnAddr8_size opcode < 2 ^ 31 ->
  insn.insnAddr8_opStub opcode text =
    insn.PutInt8 (insn.PutBytes text opcode) (- insn.insnAddr8_size opcode).
Proof.
  intros Hl Hp.
  assert (Hp0 : 0 <= insn.Pos text) by (unfold insn.Pos; lia).
  unfold insn.insnAddr8_opStub, insn.insnAddr8_op. fold (insn.insnAddr8_size opcode).
  assert (Hs : 0 < insn.insnAddr8_size opcode <= 128) by (unfold insn.insnAddr8_size; lia).
  rewrite (int32_small (insn.Pos text + _)) by lia.
  replace (insn.Pos text - (insn.Pos text + insn.insnAddr8_size opcode))
    with (- insn.insnAddr8_size opcode) by lia.
  rewrite int32_small by lia. rewrite Z.geb_leb.
  destruct (Z.leb_spec (-128) (- insn.insnAddr8_size opcode)); [|lia].
  destruct (Z.ltb_spec (- insn.insnAddr8_size opcode) 128); [|lia].
  reflexivity.
Qed.

Lemma disp8At_put_byte text off v text' :
  binary.put text off [byte.of_Z v] = OK text' ->
  -128 <= v < 128 ->
  disp8At text' (Z.of_nat off + 1) = v.
Proof.
  intros H Hv. unfold disp8At.
  replace (Z.to_nat (Z.of_nat off + 1 - 1)) with off by lia.
  apply put_window_same in H. cbn [List.length] in H. rewrite H.
  change (le_combine [byte.of_Z v]) with (Z.lor (byte.unsigned (byte.of_Z v)) 0).
  rewrite Z.lor_0_r, byte.unsigned_of_Z. unfold byte.wrap.
  destruct (Z.ltb_spec (v mod 2 ^ 8) 128); Z.div_mod_to_equations; lia.
Qed.

(** X7: a short forward branch written as a stub by [insnAddr8.opStub]
    first leads to itself; once the code it skips has been written,
    [updateLocalBranches] with the label placed after that code makes it
    lead to the label, provided the code skipped is at most 127 bytes, and
    panics otherwise. *)
Theorem opStub_then_updateLocalBranches (opcode : list Z) (text skipped : insn.Text) :
  (List.length opcode < 128)%nat ->
  insn.Pos text + insn.insnAddr8_size opcode + Z.of_nat (List.length skipped) < 2 ^ 31 ->
  let text1 := insn.insnAddr8_opStub opcode text in
  let site := insn.Pos text1 in
  let text2 := text1 ++ skipped in
  let label := {| links.Address := insn.Pos text2; links.Sites := [site]; links.live := false |} in
  site = insn.Pos text + insn.insnAddr8_size opcode /\
  target8 text1 site = insn.Pos text /\
  if (List.length skipped <? 128)%nat
  then exists text3,
         isa.updateLocalBranches text2 label = OK text3 /\
         insn.Pos text3 = insn.Pos text2 /\
         target8 text3 site = insn.Pos text2
  else exists e, isa.updateLocalBranches text2 label = Panic e.
Proof.
  intros Hl Hp text1 site text2 label.
  assert (Hp0 : 0 <= insn.Pos text) by (unfold insn.Pos; lia).
  assert (Hs : 0 < insn.insnAddr8_size opcode <= 128) by (unfold insn.insnAddr8_size; lia).
  assert (E1 : text1 = insn.PutInt8 (insn.PutBytes text opcode) (- insn.insnAddr8_size opcode))
    by (apply Pos_opStub; lia).
  assert (Hsite : site = insn.Pos text + insn.insnAddr8_size opcode)
    by (subst site; rewrite E1; apply Pos_PutInt8_PutBytes).
  split; [exact Hsite|]. split.
  { subst site. unfold target8. rewrite E1, disp8At_put by lia.
    rewrite Pos_PutInt8_PutBytes. lia. }
  assert (H2 : insn.Pos text2 = site + Z.of_nat (List.length skipped))
    by (subst text2 site; apply Pos_app).
  unfold isa.updateLocalBranches, links.FinalAddress. cbn [links.Address links.Sites label].
  destruct (Z.eqb_spec (insn.Pos text2) 0); [lia|].
  cbn [isa.updateLocalSites]. unfold isa.updateLocalAddr.
  rewrite int32_small by lia.
  replace (insn.Pos text2 - site) with (Z.of_nat (List.length skipped)) by lia.
  destruct (Z.ltb_spec (Z.of_nat (List.length skipped)) (-128)); [lia|]. cbn [orb].
  rewrite Z.geb_leb.
  destruct (Nat.ltb_spec (List.length skipped) 128) as [Hk|Hk].
  - destruct (Z.leb_spec 128 (Z.of_nat (List.length skipped))); [lia|].
    destruct (Z.ltb_spec site 1); [lia|].
    destruct (binary.put text2 (Z.to_nat (site - 1)) [byte.of_Z (Z.of_nat (List.length skipped))])
      as [text3|] eqn:E3.
    + exists text3. split; [reflexivity|].
      split; [unfold insn.Pos; f_equal; eapply put_length; eassumption|].
      unfold target8.
      replace site with (Z.of_nat (Z.to_nat (site - 1)) + 1) at 2 by lia.
      rewrite (disp8At_put_byte _ _ _ _ E3) by lia. lia.
    + exfalso. unfold binary.put in E3. cbn [List.length] in E3.
      destruct (Nat.leb_spec (Z.to_nat (site - 1) + 1) (List.length text2)); [discriminate|].
      unfold insn.Pos in H2. lia.
  - destruct (Z.leb_spec 128 (Z.of_nat (List.length skipped))); [|lia].
    eexists. reflexivity.
Qed.

(** The theorem at the stub of a [je] ([0x74]) which skips a return. *)
Lemma opStub_then_updateLocalBranches_witness :
  target8 (insn.insnAddr8_opStub [116] (repeat Byte.x90 3))
          (insn.Pos (insn.insnAddr8_opStub [116] (repeat Byte.x90 3))) = 3.
Proof.
  refine (proj1 (proj2 (opStub_then_updateLocalBranches [116] (repeat Byte.x90 3) [Byte.xc3] _ _))).
  - cbn [List.length]. lia.
  - vm_compute. reflexivity.
Defined.

(** ** Operand bytes *)

(** What a processor reads back: the sign-extended number in the one, two
    or four bytes [bs]. *)
Definition signExtend (bs : list byte) : Z :=
  let u := le_combine bs in
  let w := 2 ^ (8 * Z.of_nat (List.length bs)) in
  if 2 * u <? w then u else u - w.

(** The displacement of a memory operand with addressing mode [mod_]. *)
Definition dispOf (mod_ : Z) (bs : list byte) : Z :=
  if mod_ =? insn.ModMem then 0 else signExtend bs.

Lemma signExtend_le_split (n : nat) (v : Z) :
  (0 < n)%nat ->
  - 2 ^ (8 * Z.of_nat n - 1) <= v < 2 ^ (8 * Z.of_nat n - 1) ->
  signExtend (le_split n v) = v.
Proof.
  intros Hn Hv. unfold signExtend. rewrite le_combine_split, length_le_split.
  replace (Z.of_nat n * 8) with (8 * Z.of_nat n) by lia.
  assert (Hw : 2 ^ (8 * Z.of_nat n) = 2 * 2 ^ (8 * Z.of_nat n - 1)).
  { rewrite <- Z.pow_succ_r by lia. f_equal. lia. }
  set (h := 2 ^ (8 * Z.of_nat n - 1)) in *. rewrite Hw.
  assert (Hh : 0 < h) by (subst h; apply Z.pow_pos_nonneg; lia).
  destruct (Z.lt_ge_cases v 0) as [Hneg|Hpos].
  - replace (v mod (2 * h)) with (v + 2 * h) by (apply Z.mod_unique with (q := -1); lia).
    destruct (Z.ltb_spec (2 * (v + 2 * h)) (2 * h)); lia.
  - rewrite Z.mod_small by lia.
    destruct (Z.ltb_spec (2 * v) (2 * h)); lia.
Qed.

(** X8: [dispMod] picks the shortest displacement which holds the offset:
    none for offset 0 (except with rbp or r13 as base, which need one), one
    byte within -128..127, four bytes otherwise; and the bytes which
    [putDisp] then writes read back as the offset. *)
Theorem putDisp_round_trip (text : insn.Text) (baseReg offset : Z) :
  - 2 ^ 31 <= offset < 2 ^ 31 ->
  let mod_ := insn.dispMod baseReg offset in
  exists d : list byte,
    insn.putDisp text mod_ offset = text ++ d /\
    dispOf mod_ d = offset /\
    List.length d =
      (if (offset =? 0) && negb (Z.land baseReg 7 =? 5) then 0%nat
       else if (-128 <=? offset) && (offset <? 128) then 1%nat else 4%nat) /\
    mod_ = (if (offset =? 0) && negb (Z.land baseReg 7 =? 5) then insn.ModMem
            else if (-128 <=? offset) && (offset <? 128) then insn.ModMemDisp8
            else insn.ModMemDisp32).
Proof.
  intros Ho mod_. subst mod_. unfold insn.dispMod. rewrite Z.geb_leb.
  destruct ((offset =? 0) && negb (Z.land baseReg 7 =? 5)) eqn:E0.
  - exists []. apply andb_true_iff in E0. destruct E0 as [E0 _]. apply Z.eqb_eq in E0.
    subst offset. rewrite app_nil_r. repeat split; reflexivity.
  - destruct ((-128 <=? offset) && (offset <? 128)) eqn:E1.
    + apply andb_true_iff in E1. destruct E1 as [Hlo Hhi].
      apply Z.leb_le in Hlo. apply Z.ltb_lt in Hhi.
      exists (le_split 1 offset). repeat split; try reflexivity.
      unfold dispOf. cbn [Z.eqb insn.ModMemDisp8 insn.ModMem Z.lor Z.shiftl].
      change (Z.lor (Z.shiftl 0 7) (Z.shiftl 1 6) =? 0) with false. cbv iota.
      apply signExtend_le_split; [lia|]. change (2 ^ (8 * Z.of_nat 1 - 1)) with 128. lia.
    + exists (le_split 4 offset). repeat split; try reflexivity.
      unfold dispOf. change (insn.ModMemDisp32 =? insn.ModMem) with false. cbv iota.
      apply signExtend_le_split; [lia|]. change (2 ^ (8 * Z.of_nat 4 - 1)) with (2 ^ 31). lia.
Qed.

(** The theorem at the offset -129, which needs four bytes. *)
Lemma putDisp_round_trip_witness :
  exists d : list byte,
    insn.putDisp [] (insn.dispMod 4 (-129)) (-129) = [] ++ d /\ dispOf (insn.dispMod 4 (-129)) d = -129.
Proof.
  destruct (putDisp_round_trip [] 4 (-129)) as (d & H1 & H2 & _).
  - lia.
  - exists d. split; assumption.
Defined.

(** X9: the immediate operand of an [insnPrefixMI] instruction goes out in
    the narrowest width for which the instruction has an opcode and which
    holds the value, and reads back as the value; with no 32-bit opcode a
    value which fits no narrower width panics.  This for opcodes which
    differ where the instruction has them. *)
Theorem putImm_round_trip (opcode8 opcode16 opcode32 : Z) (text : insn.Text) (value : Z) :
  - 2 ^ 31 <= value < 2 ^ 31 ->
  (opcode16 <> 0 -> opcode16 <> opcode8) ->
  (opcode32 <> 0 -> opcode32 <> opcode8 /\ opcode32 <> opcode16) ->
  let fits8 := negb (opcode8 =? 0) && (-128 <=? value) && (value <? 128) in
  let fits16 := negb (opcode16 =? 0) && (-32768 <=? value) && (value <? 32768) in
  match insn.immOpcode opcode8 opcode16 opcode32 value with
  | OK opcode =>
      opcode = (if fits8 then opcode8 else if fits16 then opcode16 else opcode32) /\
      opcode <> 0 /\
      exists imm : list byte,
        insn.putImm opcode8 opcode16 text opcode value = text ++ imm /\
        List.length imm = (if fits8 then 1%nat else if fits16 then 2%nat else 4%nat) /\
        signExtend imm = value
  | Panic _ => fits8 = false /\ fits16 = false /\ opcode32 = 0
  end.
Proof.
  intros Hv H16 H32 fits8 fits16. unfold insn.immOpcode. rewrite !Z.geb_leb.
  fold fits8 fits16.
  destruct fits8 eqn:E8.
  - subst fits8. apply andb_true_iff in E8. destruct E8 as [E8 Hhi].
    apply andb_true_iff in E8. destruct E8 as [Hz Hlo].
    apply negb_true_iff, Z.eqb_neq in Hz. apply Z.leb_le in Hlo. apply Z.ltb_lt in Hhi.
    split; [reflexivity|]. split; [assumption|].
    exists (le_split 1 value). unfold insn.putImm. rewrite Z.eqb_refl.
    repeat split; try reflexivity.
    apply signExtend_le_split; [lia|]. change (2 ^ (8 * Z.of_nat 1 - 1)) with 128. lia.
  - destruct fits16 eqn:E16.
    + subst fits16. apply andb_true_iff in E16. destruct E16 as [E16 Hhi].
      apply andb_true_iff in E16. destruct E16 as [Hz Hlo].
      apply negb_true_iff, Z.eqb_neq in Hz. apply Z.leb_le in Hlo. apply Z.ltb_lt in Hhi.
      split; [reflexivity|]. split; [assumption|].
      exists (le_split 2 value). unfold insn.putImm.
      destruct (Z.eqb_spec opcode16 opcode8) as [Heq|_]; [exfalso; exact (H16 Hz Heq)|].
      rewrite Z.eqb_refl. repeat split; try reflexivity.
      apply signExtend_le_split; [lia|]. change (2 ^ (8 * Z.of_nat 2 - 1)) with 32768. lia.
    + destruct (Z.eqb_spec opcode32 0) as [Hz|Hz]; cbn [negb].
      * repeat split; assumption || reflexivity.
      * split; [reflexivity|]. split; [assumption|].
        destruct (H32 Hz) as [Ha Hb].
        exists (le_split 4 value). unfold insn.putImm.
        destruct (Z.eqb_spec opcode32 opcode8); [contradiction|].
        destruct (Z.eqb_spec opcode32 opcode16); [contradiction|].
        repeat split; try reflexivity.
        apply signExtend_le_split; [lia|]. change (2 ^ (8 * Z.of_nat 4 - 1)) with (2 ^ 31). lia.
Qed.

(** The theorem at an instruction with the opcodes [0x83] and [0x81] for
    8-bit and 32-bit immediates, and the value 1000. *)
Lemma putImm_round_trip_witness :
  match insn.immOpcode 131 0 129 1000 with
  | OK opcode => opcode = 129
  | Panic _ => False
  end.
Proof.
  pose proof (putImm_round_trip 131 0 129 [] 1000) as H.
  cbv zeta in H. change (insn.immOpcode 131 0 129 1000) with (@OK Z 129) in *.
  refine (proj1 (H _ _ _)).
  - lia.
  - intros E. exfalso. apply E. reflexivity.
  - intros _. split; discriminate.
Defined.

(** Whether the ModRM byte of a register-direct operand reads back as the
    opcode extension [ro] and, with bit B of the prefix, the register. *)
Definition modrmDecodes (ro reg : Z) : bool :=
  let b := byte.unsigned (byte.of_Z
             (Z.lor (Z.lor insn.ModReg (Z.shiftl (Z.land ro 7) 3)) (Z.land reg 7))) in
  (Z.shiftr b 6 =? 3) && (Z.land (Z.shiftr b 3) 7 =? ro) &&
  (Z.land b 7 + (if reg <? 8 then 0 else 8) =? reg).

Lemma modrmDecodes_all :
  forallb (fun reg => forallb (fun ro => modrmDecodes (Z.of_nat ro) (Z.of_nat reg)) (seq 0 8))
          (seq 0 16) = true.
Proof. vm_compute. reflexivity. Qed.

Lemma putRex_reg (text : insn.Text) (rex reg : Z) :
  rex = 0 \/ rex = insn.RexW ->
  0 <= reg < 16 ->
  insn.putRex text rex 0 0 reg =
    if (rex =? 0) && (reg <? 8) then text
    else text ++ [byte.of_Z (64 + (if rex =? 0 then 0 else 8) + (if reg <? 8 then 0 else 1))].
Proof.
  intros Hrex Hreg. unfold insn.putRex, insn.PutByte. cbn [Z.geb Z.compare].
  rewrite Z.geb_leb.
  destruct (Z.leb_spec 8 reg), (Z.ltb_spec reg 8); try lia;
    destruct Hrex as [-> | ->]; reflexivity.
Qed.

(** X10: the register operand of an [insnRexM] instruction survives the
    encoding: the low three bits of its number are the r/m field of the
    ModRM byte and the fourth is bit B of the REX prefix; the ModRM byte
    names register-direct mode and holds the opcode extension.  The REX
    prefix is left out exactly for a 32-bit operation on one of the first
    eight registers; an operand type without a size panics. *)
Theorem insnRexM_opReg_decodes (opcode : list Z) (ro : Z) (text : insn.Text)
    (t : types.T) (reg : Z) :
  0 <= reg < 16 ->
  0 <= ro < 8 ->
  match insn.insnRexM_opReg opcode ro text t reg with
  | OK text' =>
      t <> types.Void /\
      exists (rex : list byte) (modrm : byte),
        text' = text ++ rex ++ map byte.of_Z opcode ++ [modrm] /\
        rex = (if (types.Size t =? 4) && (reg <? 8) then []
               else [byte.of_Z (64 + (if types.Size t =? 4 then 0 else 8) +
                                (if reg <? 8 then 0 else 1))]) /\
        Z.shiftr (byte.unsigned modrm) 6 = 3 /\
        Z.land (Z.shiftr (byte.unsigned modrm) 3) 7 = ro /\
        Z.land (byte.unsigned modrm) 7 + (if reg <? 8 then 0 else 8) = reg
  | Panic _ => t = types.Void
  end.
Proof.
  intros Hreg Hro. unfold insn.insnRexM_opReg, insn.putRexSize.
  assert (Hm : Z.shiftr (byte.unsigned (byte.of_Z
                 (Z.lor (Z.lor insn.ModReg (Z.shiftl (Z.land ro 7) 3)) (Z.land reg 7)))) 6 = 3 /\
               Z.land (Z.shiftr (byte.unsigned (byte.of_Z
                 (Z.lor (Z.lor insn.ModReg (Z.shiftl (Z.land ro 7) 3)) (Z.land reg 7)))) 3) 7 = ro /\
               Z.land (byte.unsigned (byte.of_Z
                 (Z.lor (Z.lor insn.ModReg (Z.shiftl (Z.land ro 7) 3)) (Z.land reg 7)))) 7 +
                 (if reg <? 8 then 0 else 8) = reg).
  { pose proof modrmDecodes_all as Hall.
    rewrite forallb_forall in Hall.
    specialize (Hall (Z.to_nat reg) ltac:(apply in_seq; lia)).
    rewrite forallb_forall in Hall.
    specialize (Hall (Z.to_nat ro) ltac:(apply in_seq; lia)).
    rewrite !Z2Nat.id in Hall by lia.
    unfold modrmDecodes in Hall. cbv zeta in Hall.
    apply andb_true_iff in Hall. destruct Hall as [Hall H3].
    apply andb_true_iff in Hall. destruct Hall as [H1 H2].
    apply Z.eqb_eq in H1, H2, H3. repeat split; assumption. }
  destruct t; cbn [types.Size Z.eqb types.Size32 types.Size64 Pos.eqb]; try reflexivity.
  all: rewrite putRex_reg by (auto; lia).
  all: split; [discriminate|].
  all: unfold insn.putMod, insn.PutBytes, insn.PutByte.
  all: try change (insn.RexW =? 0) with false.
  all: cbn [Z.eqb andb].
  all: destruct (reg <? 8) eqn:E8.
  all: eexists _, _; (split; [|split; [reflexivity|exact Hm]]).
  all: rewrite <- ?app_assoc; reflexivity.
Qed.

(** The theorem at [shl r9, 1], an [insnRexM] with opcode [0xd1] and
    extension 4, on a 64-bit operand. *)
Lemma insnRexM_opReg_decodes_witness :
  insn.insnRexM_opReg [209] 4 [] types.I64 9 = OK [Byte.x49; Byte.xd1; Byte.xe1].
Proof.
  pose proof (insnRexM_opReg_decodes [209] 4 [] types.I64 9) as H.
  change (insn.insnRexM_opReg [209] 4 [] types.I64 9)
    with (@OK insn.Text [Byte.x49; Byte.xd1; Byte.xe1]) in *.
  destruct H as (_ & _); [lia|lia|reflexivity].
Defined.

(** * Further properties of the program coder (code.go) and of package
    values *)

Lemma uint64_range (x : Z) : 0 <= uint64 x < 2 ^ 64.
Proof. unfold uint64. apply Z.mod_pos_bound. lia. Qed.

Lemma int64_range (x : Z) : - 2 ^ 63 <= int64 x < 2 ^ 63.
Proof.
  unfold int64. pose proof (uint64_range x).
  destruct (Z.ltb_spec (uint64 x) (2 ^ 63)); lia.
Qed.

Lemma int64_small (x : Z) : - 2 ^ 63 <= x < 2 ^ 63 -> int64 x = x.
Proof.
  intros H. unfold int64, uint64.
  destruct (Z.ltb_spec (x mod 2 ^ 64) (2 ^ 63)); Z.div_mod_to_equations; lia.
Qed.

Lemma int64_uint64 (x : Z) : int64 (uint64 x) = int64 x.
Proof. unfold int64, uint64. rewrite Z.mod_mod by lia. reflexivity. Qed.

(** X11: an immediate operand made by [ImmOperand] reads back through
    [CheckImmValue] as the value it was made from, wrapped to the width of
    its type (32 or 64 bits, signed); both panic for a type without a
    size, and [CheckImmValue] answers "not an immediate" for every other
    operand. *)
Theorem ImmOperand_round_trip (t : types.T) (value : Z) :
  (match values.ImmOperand t value with
   | OK o =>
       values.storage o = values.Imm /\
       values.CheckImmValue o t =
         OK (Some (if types.Size t =? types.Size32 then int32 value else int64 value))
   | Panic _ => t = types.Void
   end) /\
  (forall o, values.storage o <> values.Imm -> values.CheckImmValue o t = OK None).
Proof.
  split.
  - assert (H32 : int64 (int32 (uint32 (uint64 (uint32 (int32 value))))) = int32 value).
    { pose proof (uint32_range (int32 value)). pose proof (int32_range value).
      rewrite (uint64_small (uint32 (int32 value))) by lia.
      rewrite uint32_idem, int32_uint32, (int32_small (int32 value)) by lia.
      apply int64_small. lia. }
    assert (H64 : int64 (uint64 (int64 value)) = int64 value).
    { rewrite int64_uint64. apply int64_small, int64_range. }
    unfold values.ImmOperand, values.CheckImmValue.
    destruct t; cbn [types.Size Z.eqb types.Size32 types.Size64 Pos.eqb values.storage];
      try reflexivity; split; try reflexivity; f_equal; f_equal; assumption.
  - intros o Ho. destruct o; try reflexivity. exfalso. apply Ho. reflexivity.
Qed.

(** The zeros which [nonOctalize] strips. *)
Fixpoint zeros (n : nat) : string :=
  match n with
  | O => EmptyString
  | S n' => String "0"%char (zeros n')
  end.

(** X12: [nonOctalize] removes leading zeros and nothing else, so that the
    numeral is not read as an octal one: what is left is the whole numeral
    when that is empty, else it has a character left, and it starts with a
    zero only when it is the single digit 0 or a hexadecimal numeral
    ("0x..."). *)
Theorem nonOctalize_strips_zeros (s : string) :
  exists n : nat,
    s = (zeros n ++ nonOctalize s)%string /\
    match nonOctalize s with
    | EmptyString => s = EmptyString
    | String "0"%char (String c _) => c = "x"%char
    | _ => True
    end.
Proof.
  induction s as [|a s IH].
  - exists O. split; reflexivity.
  - destruct (Ascii.eqb_spec a "0"%char) as [->|Ha].
    + destruct s as [|b s'].
      * exists O. split; reflexivity.
      * destruct (Ascii.eqb_spec b "x"%char) as [->|Hb].
        -- exists O. split; reflexivity.
        -- assert (E : nonOctalize (String "0" (String b s')) = nonOctalize (String b s')).
           { cbn [nonOctalize].
             destruct b as [[] [] [] [] [] [] [] []]; try reflexivity.
             exfalso. apply Hb. reflexivity. }
           rewrite E. destruct IH as (n & Hs & Hm).
           exists (S n). split.
           ++ cbn [zeros String.append]. f_equal. exact Hs.
           ++ destruct (nonOctalize (String b s')) as [|c r]; [discriminate Hm|exact Hm].
    + exists O.
      assert (E : nonOctalize (String a s) = String a s).
      { cbn [nonOctalize]. destruct a as [[] [] [] [] [] [] [] []]; try reflexivity.
        exfalso. apply Ha. reflexivity. }
      rewrite E. split; [reflexivity|].
      destruct a as [[] [] [] [] [] [] [] []]; try exact I.
      exfalso. apply Ha. reflexivity.
Qed.

Section MoreBinaryOpProperties.
Variable mach_ : Mach.
Variable expr : sexp -> types.T -> bool -> list liveOperand -> M (values.Operand * bool).

(** X13: a mul whose right operand evaluates to the immediate 1 yields the
    left operand and requests nothing of the backend; one whose right
    operand evaluates to the immediate 0 discards the left operand and
    yields the immediate 0. *)
Theorem exprBinaryOp_mul_folds
    (exprName : string) (t : types.T) (arg0 arg1 : sexp)
    (c c1 c2 : coder) (tr tr1 tr2 : list mop.t) (a0 a b : values.Operand) (v : Z) :
  expr arg0 t false [] c tr = OK ((a0, false), c1, tr1) ->
  expr arg1 t false [{| typ := t; ref := List.length (operands c1) |}]
       (set_operands (operands c1 ++ [a0]) c1) tr1 = OK ((b, false), c2, tr2) ->
  nth_error (operands c2) (List.length (operands c1)) = Some a ->
  values.CheckImmValue b t = OK (Some v) ->
  v = 0 \/ v = 1 ->
  exprBinaryOp mach_ expr exprName "mul" t [arg0; arg1] c tr =
    if v =? 1 then OK ((a, false), c2, tr2)
    else (Discard mach_ t a ;;; ret (values.ImmBits 0, false)) c2 tr2.
Proof.
  intros H0 H1 Ha Hb Hv.
  unfold exprBinaryOp, bind. rewrite H0. unfold newOperand. rewrite H1.
  unfold loadOperand, bind, get. rewrite Ha. unfold ret.
  rewrite (CheckImmValue_imm _ _ _ Hb). rewrite andb_false_r. cbn [andb].
  unfold lift. rewrite Hb. rewrite (CheckImmValue_ImmOperand _ _ _ Hb).
  destruct Hv as [-> | ->]; reflexivity.
Qed.

(** X14: for add, or and xor the operands are swapped when only the left
    one is an immediate, so that an immediate 0 on the left folds as well:
    the result is the right operand, and nothing is requested of the
    backend. *)
Theorem exprBinaryOp_folds_zero_on_the_left
    (exprName opName : string) (t : types.T) (arg0 arg1 : sexp)
    (c c1 c2 : coder) (tr tr1 tr2 : list mop.t) (a0 a b : values.Operand) :
  oneOf opName ["add"; "or"; "xor"] = true ->
  expr arg0 t false [] c tr = OK ((a0, false), c1, tr1) ->
  expr arg1 t false [{| typ := t; ref := List.length (operands c1) |}]
       (set_operands (operands c1 ++ [a0]) c1) tr1 = OK ((b, false), c2, tr2) ->
  nth_error (operands c2) (List.length (operands c1)) = Some a ->
  values.CheckImmValue a t = OK (Some 0) ->
  isImm b = false ->
  exprBinaryOp mach_ expr exprName opName t [arg0; arg1] c tr = OK ((b, false), c2, tr2).
Proof.
  intros Hop H0 H1 Ha Hv Hb.
  assert (Hop1 : oneOf opName ["add"; "and"; "or"; "xor"] = true).
  { unfold oneOf in *. cbn [existsb] in *.
    destruct (String.eqb opName "add"); [reflexivity|].
    destruct (String.eqb opName "or"); [apply orb_true_r|].
    destruct (String.eqb opName "xor"); [rewrite !orb_true_r; reflexivity|discriminate]. }
  assert (Hop2 : oneOf opName ["add"; "or"; "sub"; "xor"] = true).
  { unfold oneOf in *. cbn [existsb] in *.
    destruct (String.eqb opName "add"); [reflexivity|].
    destruct (String.eqb opName "or"); [reflexivity|].
    destruct (String.eqb opName "xor"); [rewrite !orb_true_r; reflexivity|discriminate]. }
  unfold exprBinaryOp, bind. rewrite H0. unfold newOperand. rewrite H1.
  unfold loadOperand, bind, get. rewrite Ha. unfold ret.
  rewrite (CheckImmValue_imm _ _ _ Hv), Hb, Hop1. cbn [andb negb].
  unfold lift. rewrite Hv, Hop2. reflexivity.
Qed.

End MoreBinaryOpProperties.

(** The two theorems at [x * 1] and at [0 + x] in the body of
    [unaryFunction]. *)
Lemma exprBinaryOp_mul_folds_witness :
  exprBinaryOp backend.X86 (exprN backend.X86 1) "i32.mul" "mul" types.I32
    [getX; const "1"] bodyCoder []
  = OK ((values.VarOperand 0, false), set_operands [values.VarOperand 0] bodyCoder, []).
Proof.
  apply (exprBinaryOp_mul_folds backend.X86 (exprN backend.X86 1)
           "i32.mul" types.I32 getX (const "1")
           bodyCoder bodyCoder (set_operands [values.VarOperand 0] bodyCoder) [] [] []
           (values.VarOperand 0) (values.VarOperand 0) (values.ImmBits 1) 1);
    try (vm_compute; reflexivity).
  right. reflexivity.
Defined.

Lemma exprBinaryOp_folds_zero_on_the_left_witness :
  exprBinaryOp backend.X86 (exprN backend.X86 1) "i32.add" "add" types.I32
    [const "0"; getX] bodyCoder []
  = OK ((values.VarOperand 0, false), set_operands [values.ImmBits 0] bodyCoder, []).
Proof.
  apply (exprBinaryOp_folds_zero_on_the_left backend.X86 (exprN backend.X86 1)
           "i32.add" "add" types.I32 (const "0") getX
           bodyCoder bodyCoder (set_operands [values.ImmBits 0] bodyCoder) [] [] []
           (values.ImmBits 0) (values.ImmBits 0) (values.VarOperand 0));
    vm_compute; reflexivity.
Defined.

(** ** The stack of branch targets *)

Lemma findTargetByName_top (stack : list branchTarget.t) (target : branchTarget.t) :
  branchTarget.name target <> "" ->
  findTargetByName (rev (stack ++ [target])) (branchTarget.name target) = Some target.
Proof.
  intros Hn. rewrite rev_app_distr. cbn [rev app findTargetByName].
  rewrite String.eqb_refl.
  destruct (String.eqb_spec (branchTarget.name target) ""); [contradiction|reflexivity].
Qed.

Lemma set_targetStack_same (c : coder) : set_targetStack (targetStack c) c = c.
Proof. destruct c. reflexivity. Qed.

Lemma set_targetStack_twice (s1 s2 : list branchTarget.t) (c : coder) :
  set_targetStack s2 (set_targetStack s1 c) = set_targetStack s2 c.
Proof. destruct c. reflexivity. Qed.

(** X15: a branch target which [pushTarget] has pushed under a name is the
    one [findTarget] finds for that name, whatever targets of the same name
    enclose it, and it records the stack offset of the moment ([stackOffset],
    or the size of all locals while these are still being initialized);
    [popTarget] then restores the coder exactly and tells whether the
    target's label is live. *)
Theorem pushTarget_findTarget_popTarget
    (l : nat) (name : string) (valueType : types.T) (functionEnd : bool)
    (c : coder) (tr : list mop.t) (x : links.L) :
  name <> "" ->
  nth_error (labels c) l = Some x ->
  exists c1,
    pushTarget l name valueType functionEnd c tr = OK (tt, c1, tr) /\
    findTarget (Str name) c1 tr =
      OK ({| branchTarget.label := l; branchTarget.name := name;
             branchTarget.expectType := valueType;
             branchTarget.stackOffset :=
               (if (pushedLocals c <? List.length (Locals (function c)))%nat
                then Z.of_nat (List.length (Locals (function c))) * gen.WordSize
                else stackOffset c);
             branchTarget.functionEnd := functionEnd |}, c1, tr) /\
    popTarget c1 tr = OK (links.Live x, c, tr).
Proof.
  intros Hname Hl. eexists. split; [reflexivity|]. split.
  - unfold findTarget, bind, get.
    match goal with
    | |- context [findTargetByName (rev (targetStack (set_targetStack (?s ++ [?t]) _))) _] =>
        replace (targetStack (set_targetStack (s ++ [t]) c)) with (s ++ [t])
          by (destruct c; reflexivity);
        pose proof (findTargetByName_top s t Hname) as E
    end.
    cbn [branchTarget.name] in E. rewrite E. reflexivity.
  - unfold popTarget, bind, get.
    match goal with
    | |- context [set_targetStack (?s ++ [?t]) c] =>
        replace (targetStack (set_targetStack (s ++ [t]) c)) with (s ++ [t])
          by (destruct c; reflexivity)
    end.
    rewrite length_app. cbn [List.length].
    replace (List.length (targetStack c) + 1 - 1)%nat with (List.length (targetStack c)) by lia.
    rewrite nth_error_app2 by lia. rewrite Nat.sub_diag. cbn [nth_error branchTarget.label].
    unfold getLabel, bind, get.
    replace (labels (set_targetStack _ c)) with (labels c) by (destruct c; reflexivity).
    rewrite Hl. unfold ret, modify.
    replace (targetStack (set_targetStack _ c)) with
      (targetStack c ++ [{| branchTarget.label := l; branchTarget.name := name;
             branchTarget.expectType := valueType;
             branchTarget.stackOffset :=
               (if (pushedLocals c <? List.length (Locals (function c)))%nat
                then Z.of_nat (List.length (Locals (function c))) * gen.WordSize
                else stackOffset c);
             branchTarget.functionEnd := functionEnd |}]) by (destruct c; reflexivity).
    rewrite firstn_app, firstn_all, Nat.sub_diag. cbn [firstn]. rewrite app_nil_r.
    rewrite set_targetStack_twice, set_targetStack_same. reflexivity.
Qed.

(** The theorem at a block [$exit] pushed inside the block of the same
    name of [blockCoder]. *)
Lemma pushTarget_findTarget_popTarget_witness :
  exists c1,
    pushTarget 0 "$exit" types.I32 false blockCoder [] = OK (tt, c1, []) /\
    popTarget c1 [] = OK (false, blockCoder, []).
Proof.
  destruct (pushTarget_findTarget_popTarget 0 "$exit" types.I32 false blockCoder [] links.new)
    as (c1 & H1 & _ & H3).
  - discriminate.
  - reflexivity.
  - exists c1. split; [exact H1|exact H3].
Defined.

(** ** Variables on the stack *)

(** X16: [effectiveVarStackOffset] gives the variables of a function
    distinct stack slots, a whole number of words away from the stack
    pointer: the parameters above the return address (which is at
    [stackOffset] itself, so no variable has that slot), the locals below
    it; it changes nothing in the coder, and answers no negative offset. *)
Theorem effectiveVarStackOffset_slots
    (i j : nat) (c ci cj : coder) (tr tri trj : list mop.t) (oi oj : Z) :
  effectiveVarStackOffset i c tr = OK (oi, ci, tri) ->
  effectiveVarStackOffset j c tr = OK (oj, cj, trj) ->
  ci = c /\ tri = tr /\
  0 <= oi /\
  oi <> stackOffset c /\
  (oi - stackOffset c) mod gen.WordSize = 0 /\
  ((i < List.length (Params (function c)))%nat <-> stackOffset c < oi) /\
  (i <> j -> gen.WordSize <= Z.abs (oi - oj)).
Proof.
  unfold effectiveVarStackOffset, bind, get, gen.WordSize. intros Hi Hj.
  destruct (Nat.ltb_spec i (List.length (Params (function c)))) as [Li|Li];
  destruct (Nat.ltb_spec j (List.length (Params (function c)))) as [Lj|Lj];
  match type of Hi with
  | (if ?o <? 0 then _ else _) _ _ = _ =>
      destruct (Z.ltb_spec o 0) as [|Ni]; [discriminate Hi|]
  end;
  match type of Hj with
  | (if ?o <? 0 then _ else _) _ _ = _ =>
      destruct (Z.ltb_spec o 0) as [|Nj]; [discriminate Hj|]
  end;
  unfold ret in Hi, Hj; inversion Hi; inversion Hj; subst; clear Hi Hj;
  (split; [reflexivity|]); (split; [reflexivity|]); (split; [assumption|]);
  (split; [lia|]);
  (split; [match goal with |- ?e mod 8 = 0 =>
             match e with
             | ?s + 8 + ?p * 8 - ?s => replace e with ((1 + p) * 8) by lia
             | ?s - ?p * 8 - ?s => replace e with ((- p) * 8) by lia
             end; apply Z.mod_mul; lia end|]);
  (split; [split; intros; lia|]); intros; lia.
Qed.

(** The theorem at the parameter [x] of [unaryFunction], 24 bytes into the
    frame. *)
Lemma effectiveVarStackOffset_slots_witness :
  effectiveVarStackOffset 0 blockCoder [] = OK (32, blockCoder, []) /\ 32 <> stackOffset blockCoder.
Proof.
  split; [reflexivity|].
  refine (proj1 (proj2 (proj2 (proj2 (effectiveVarStackOffset_slots 0 0 blockCoder blockCoder
    blockCoder [] [] [] 32 32 _ _))))); reflexivity.
Defined.

(** ** Alignment of the text *)

(** X17: [Align] to a power of two pads the text up to the next multiple of
    the alignment, by fewer bytes than the alignment (none when the text is
    aligned already), all of them the padding byte; the rest of the coder
    is untouched. *)
Theorem Align_pads_to_alignment (k : Z) (padding : Z) (c : coder) (tr : list mop.t) :
  0 <= k ->
  0 <= textLen c ->
  exists n,
    Align (2 ^ k) padding c tr = OK (tt, set_textLen (textLen c + n) c, tr ++ [mop.Pad n padding]) /\
    0 <= n < 2 ^ k /\
    (textLen c + n) mod 2 ^ k = 0 /\
    (textLen c mod 2 ^ k = 0 -> n = 0).
Proof.
  intros Hk Hl. unfold Align, bind, get, modify, emit.
  replace (2 ^ k - 1) with (Z.ones k) by (rewrite Z.ones_equiv; lia).
  rewrite !Z.land_ones by lia.
  assert (Hp : 0 < 2 ^ k) by (apply Z.pow_pos_nonneg; lia).
  set (n := (2 ^ k - textLen c mod 2 ^ k) mod 2 ^ k).
  assert (Hn : 0 <= n < 2 ^ k) by (apply Z.mod_pos_bound; lia).
  exists n. rewrite Z.max_r by lia. split; [reflexivity|]. split; [exact Hn|]. split.
  - subst n. rewrite Zplus_mod_idemp_r.
    rewrite (Z.div_mod (textLen c) (2 ^ k)) at 1 by lia.
    replace (2 ^ k * (textLen c / 2 ^ k) + textLen c mod 2 ^ k + (2 ^ k - textLen c mod 2 ^ k))
      with ((textLen c / 2 ^ k + 1) * 2 ^ k) by lia.
    apply Z.mod_mul. lia.
  - intros H0. subst n. rewrite H0, Z.sub_0_r. apply Z.mod_same. lia.
Qed.

(** The theorem at a text of 256 bytes and the alignment 16. *)
Lemma Align_pads_to_alignment_witness :
  exists n, Align (2 ^ 4) 204 blockCoder [] =
            OK (tt, set_textLen (textLen blockCoder + n) blockCoder, [mop.Pad n 204]) /\ n = 0.
Proof.
  destruct (Align_pads_to_alignment 4 204 blockCoder []) as (n & H1 & _ & _ & H4).
  - lia.
  - vm_compute. discriminate.
  - exists n. split; [exact H1|]. apply H4. reflexivity.
Defined.

(** ** Function links *)

Lemma CallableRef_eqb_eq (a b : CallableRef) : CallableRef_eqb a b = true <-> a = b.
Proof.
  destruct a as [i|i], b as [j|j]; cbn [CallableRef_eqb]; split; intros H;
    try discriminate; try (apply Nat.eqb_eq in H; subst; reflexivity);
    inversion H; subst; apply Nat.eqb_refl.
Qed.

Lemma assoc_assocSet_same {A : Type} (k : CallableRef) (v : A) l :
  assoc k (assocSet k v l) = Some v.
Proof.
  unfold assoc, assocSet. cbn [find fst snd].
  rewrite (proj2 (CallableRef_eqb_eq k k) eq_refl). reflexivity.
Qed.

Lemma assoc_filter_other {A : Type} (k k' : CallableRef) (l : list (CallableRef * A)) :
  k' <> k ->
  assoc k' (filter (fun p => negb (CallableRef_eqb (fst p) k)) l) = assoc k' l.
Proof.
  intros Hne. unfold assoc. induction l as [|[q w] l IH]; [reflexivity|].
  cbn [filter find fst snd].
  destruct (CallableRef_eqb q k) eqn:Eq; cbn [negb].
  - apply CallableRef_eqb_eq in Eq. subst q.
    destruct (CallableRef_eqb k k') eqn:Ek.
    + apply CallableRef_eqb_eq in Ek. congruence.
    + exact IH.
  - cbn [find fst snd]. destruct (CallableRef_eqb q k'); [reflexivity|exact IH].
Qed.

Lemma assoc_assocSet_other {A : Type} (k k' : CallableRef) (v : A) l :
  k' <> k -> assoc k' (assocSet k v l) = assoc k' l.
Proof.
  intros Hne. unfold assocSet.
  assert (E : assoc k' ((k, v) :: filter (fun p => negb (CallableRef_eqb (fst p) k)) l) =
              assoc k' (filter (fun p => negb (CallableRef_eqb (fst p) k)) l)).
  { unfold assoc. cbn [find fst snd].
    destruct (CallableRef_eqb k k') eqn:Ek; [|reflexivity].
    apply CallableRef_eqb_eq in Ek. congruence. }
  rewrite E. apply assoc_filter_other. exact Hne.
Qed.

(** X18: the loop which creates the function links gives every function
    of the module a label of its own, new and without address or sites (so
    that a call generated before the function is recorded as a site), and
    leaves the existing labels and the links of the other callables as they
    are; it emits nothing and cannot fail. *)
Theorem initFunctionLinks_fresh_labels (fs : list Function) :
  forall (i : nat) (c : coder) (tr : list mop.t),
  exists c',
    initFunctionLinks fs i c tr = OK (tt, c', tr) /\
    labels c' = labels c ++ repeat links.new (List.length fs) /\
    (forall k, (k < List.length fs)%nat ->
       assoc (FuncRef (i + k)) (functionLinks c') = Some (List.length (labels c) + k)%nat) /\
    (forall r, (forall k, (k < List.length fs)%nat -> r <> FuncRef (i + k)) ->
       assoc r (functionLinks c') = assoc r (functionLinks c)) /\
    textLen c' = textLen c.
Proof.
  induction fs as [|f rest IH]; intros i c tr.
  - exists c. cbn [initFunctionLinks List.length repeat]. rewrite app_nil_r.
    split; [reflexivity|]. split; [reflexivity|]. split; [intros k Hk; lia|].
    split; [intros; reflexivity|reflexivity].
  - cbn [initFunctionLinks]. unfold bind, newLabel, modify.
    set (c1 := set_functionLinks _ _).
    destruct (IH (S i) c1 tr) as (c' & Hrun & Hlab & Hnew & Hold & Hlen).
    assert (L1 : labels c1 = labels c ++ [links.new]) by (subst c1; destruct c; reflexivity).
    assert (F1 : functionLinks c1 =
                 assocSet (FuncRef i) (List.length (labels c)) (functionLinks c))
      by (subst c1; destruct c; reflexivity).
    assert (T1 : textLen c1 = textLen c) by (subst c1; destruct c; reflexivity).
    exists c'. split; [exact Hrun|]. split; [|split; [|split]].
    + rewrite Hlab, L1, <- app_assoc. reflexivity.
    + intros k Hk. destruct k as [|k].
      * rewrite Hold, F1.
        -- rewrite Nat.add_0_r, assoc_assocSet_same. f_equal. lia.
        -- intros k' _ E. inversion E. lia.
      * replace (i + S k)%nat with (S i + k)%nat by lia.
        rewrite Hnew by (cbn [List.length] in Hk; lia).
        rewrite L1, length_app. cbn [List.length]. f_equal. lia.
    + intros r Hr. rewrite Hold, F1.
      * apply assoc_assocSet_other. specialize (Hr O). rewrite Nat.add_0_r in Hr.
        apply Hr. cbn [List.length]. lia.
      * intros k Hk. replace (S i + k)%nat with (i + S k)%nat by lia.
        apply Hr. cbn [List.length]. lia.
    + congruence.
Qed.

(** ** Expressions without operands to evaluate *)

Section LeafExpressions.
Variable mach_ : Mach.
Variable expr : sexp -> types.T -> bool -> list liveOperand -> M (values.Operand * bool).

(** X19: a return without operand panics in a function which has a
    result, as a return with more than one operand always does; where it
    succeeds it has requested of the backend the release of the whole frame
    ([stackOffset] bytes) and the return, and nothing else. *)
Theorem exprReturn_without_operand (exprName : string) (c : coder) (tr : list mop.t) :
  (Result (FuncSignature (function c)) <> types.Void ->
   exprReturn mach_ expr exprName [] c tr = Panic (exprName ++ ": too few operands")) /\
  (forall x y rest,
     exprReturn mach_ expr exprName (x :: y :: rest) c tr =
       Panic (exprName ++ ": too many operands")) /\
  (forall r c' tr',
     exprReturn mach_ expr exprName [] c tr = OK (r, c', tr') ->
     Result (FuncSignature (function c)) = types.Void /\
     tr' = tr ++ [mop.OpAddImmToStackPtr (stackOffset c); mop.OpReturn]).
Proof.
  split; [|split].
  - intros Hr. unfold exprReturn, bind, get.
    destruct (Result (FuncSignature (function c))); try reflexivity. contradiction.
  - intros x y rest. reflexivity.
  - intros r c' tr'. unfold exprReturn, bind, get.
    destruct (Result (FuncSignature (function c))) eqn:Er; cbn [types.eqb negb];
      try (unfold panic; discriminate).
    unfold mach.
    destruct (machOp mach_ (mop.OpAddImmToStackPtr (stackOffset c)) c) as [[r1 c1]|]; [|discriminate].
    destruct (machOp mach_ mop.OpReturn c1) as [[r2 c2]|]; [|discriminate].
    unfold ret. intros H. inversion H; subst. split; [reflexivity|].
    rewrite <- app_assoc. reflexivity.
Qed.

(** X20: get_local of a name which is no variable of the function panics;
    of a variable it yields the variable's operand (or the constant the
    variable is known to hold), with parameters numbered before locals,
    and changes neither the coder nor the text. *)
Theorem exprGetLocal_reads_variable
    (exprName varName : string) (getType : types.T) (c : coder) (tr : list mop.t) :
  match lookupString varName (Vars (function c)) with
  | None =>
      exprGetLocal exprName [Str varName] getType c tr =
        Panic (exprName ++ ": variable not found: " ++ varName)
  | Some v =>
      forall r c' tr',
        exprGetLocal exprName [Str varName] getType c tr = OK (r, c', tr') ->
        c' = c /\ tr' = tr /\ Type_ v = getType /\
        let index := if Param v then VarIndex v
                     else (List.length (Params (function c)) + VarIndex v)%nat in
        (r = values.VarOperand index \/
         exists bits, r = values.ImmBits bits /\
                      option_map cache (nth_error (vars c) index) = Some (values.ImmBits bits))
  end.
Proof.
  unfold exprGetLocal, lookupFunctionVar, bind, get.
  destruct (lookupString varName (Vars (function c))) as [v|]; [|reflexivity].
  intros r c' tr'. unfold ret.
  destruct (types.eqb (Type_ v) getType) eqn:Et; cbn [negb]; [|unfold panic; discriminate].
  assert (Ht : Type_ v = getType) by (destruct (Type_ v), getType; try discriminate; reflexivity).
  unfold getVar, bind, get.
  destruct (nth_error (vars c) _) as [vs|] eqn:En; [|unfold panic; discriminate].
  unfold ret. destruct (cache vs) eqn:Ec; intros H; try (unfold panic in H; discriminate);
    inversion H; subst; (split; [reflexivity|]); (split; [reflexivity|]); (split; [reflexivity|]);
    cbv zeta.
  - left. reflexivity.
  - right. exists x. split; [reflexivity|]. cbn [option_map]. rewrite Ec. reflexivity.
  - left. reflexivity.
Qed.

End LeafExpressions.

(** ** The first loop of [Code] over the functions *)

Section FirstLoopProperties.
Variable mach_ : Mach.
Variable expr : sexp -> types.T -> bool -> list liveOperand -> M (values.Operand * bool).

(** X21: the loop which generates functions before the start trigger stops
    behind the start function: run from function [i] on, it ends with
    [funcIndex] one past the start function when that is among the
    functions it is given, and past the last function otherwise (no start
    callable, or an import); the function map has grown by one 4-byte entry
    for each function generated. *)
Theorem genInitialFunctions_stops_behind_start :
  forall fs i start buf c tr n buf' c' tr',
    genInitialFunctions mach_ expr fs i start buf c tr = OK ((n, buf'), c', tr') ->
    n = match start with
        | Some (FuncRef s) =>
            if ((i <=? s) && (s <? i + List.length fs))%nat then S s
            else (i + List.length fs)%nat
        | _ => (i + List.length fs)%nat
        end /\
    List.length buf' = (List.length buf + 4 * (n - i))%nat.
Proof.
  induction fs as [|f rest IH]; intros i start buf c tr n buf' c' tr' H.
  - simpl in H. minv H. inversion H; subst; clear H. simpl List.length. split; [|lia].
    destruct start as [[s|s]|]; try lia.
    destruct (Nat.leb_spec i s); destruct (Nat.ltb_spec s (i + 0)); simpl; lia.
  - simpl in H. minv H.
    match goal with
    | H : (if ?b then _ else _) _ _ = OK _ |- _ => destruct b eqn:Hstart; minv H
    end.
    + inversion H; subst; clear H.
      destruct start as [s|]; [|discriminate].
      destruct s as [s|s]; simpl in Hstart; [discriminate|].
      apply Nat.eqb_eq in Hstart. subst s. split.
      * destruct (Nat.leb_spec i i); [|lia].
        destruct (Nat.ltb_spec i (i + List.length (f :: rest))); [reflexivity|simpl in *; lia].
      * unfold binary.WriteUint32. rewrite length_app, length_le_split. lia.
    + apply IH in H. destruct H as (Hn & Hlen). split.
      * rewrite Hn. destruct start as [[s|s]|]; simpl List.length; try lia.
        simpl in Hstart. apply Nat.eqb_neq in Hstart.
        destruct (Nat.leb_spec (S i) s); destruct (Nat.ltb_spec s (S i + List.length rest));
          destruct (Nat.leb_spec i s); destruct (Nat.ltb_spec s (i + S (List.length rest)));
          cbn [andb]; lia.
      * rewrite Hlen. unfold binary.WriteUint32. rewrite length_app, length_le_split.
        assert (S i <= n)%nat.
        { rewrite Hn. destruct start as [[s|s]|]; try lia.
          destruct (Nat.leb_spec (S i) s); cbn [andb]; [|lia].
          destruct (Nat.ltb_spec s (S i + List.length rest)); lia. }
        lia.
Qed.

End FirstLoopProperties.

(** A module of two functions, the start function [f0] which calls [f1],
    and the coder as [Code] has set it up when it enters the first loop. *)
Definition caller : Function :=
  {| Names := ["f0"]; FuncSignature := {| Index := 0; Args := []; Result := types.Void |};
     Params := []; Locals := []; body := [Lst [Str "call"; Str "f1"]]; Vars := [];
     TableIndexes := [] |}.

Definition callee : Function :=
  {| Names := ["f1"]; FuncSignature := {| Index := 0; Args := []; Result := types.Void |};
     Params := []; Locals := []; body := [Lst [Str "nop"]]; Vars := [];
     TableIndexes := [0%nat] |}.

Definition twoFunctions : Module_ :=
  {| Signatures := [{| Index := 0; Args := []; Result := types.Void |}];
     Imports := []; Functions := [caller; callee]; Table := [FuncRef 1];
     Start := "f0"; NamedCallables := [("f0", FuncRef 0); ("f1", FuncRef 1)];
     MemoryMinSize := 0 |}.

Definition linkedCoder : coder :=
  match (entries <- newLabels traps.NumTraps ;;
         modify (set_trapEntries entries) ;;;
         trampolines <- newLabels traps.NumTraps ;;
         modify (set_trapTrampolines trampolines) ;;;
         initFunctionLinks (Functions twoFunctions) 0 ;;;
         genTrapEntry backend.X86 traps.MissingFunction ;;;
         mach backend.X86 (mop.OpInit (Some 22%nat)) ;;;
         genTrapEntries backend.X86 (seq traps.Exit (traps.NumTraps - traps.Exit)) ;;;
         modify (set_regsInt (regAllocator.init (AvailableIntRegs backend.X86))) ;;;
         modify (set_regsFloat (regAllocator.init (AvailableFloatRegs backend.X86))))
        (newCoder twoFunctions 4096) [] with
  | OK (_, c, _) => c
  | Panic _ => newCoder twoFunctions 4096
  end.

(** The theorem at this module: the loop generates [f0] only. *)
Lemma genInitialFunctions_stops_witness :
  exists n buf c tr,
    genInitialFunctions backend.X86 (exprN backend.X86 8) (Functions twoFunctions) 0
      (Some (FuncRef 0)) [] linkedCoder [] = OK ((n, buf), c, tr) /\
    n = 1%nat /\ List.length buf = 4%nat.
Proof.
  do 4 eexists. split; [vm_compute; reflexivity|].
  eapply (genInitialFunctions_stops_behind_start backend.X86 (exprN backend.X86 8)
            (Functions twoFunctions) 0 (Some (FuncRef 0)) [] linkedCoder []).
  vm_compute. reflexivity.
Defined.

Section CallProperties.
Variable mach_ : Mach.
Variable expr : sexp -> types.T -> bool -> list liveOperand -> M (values.Operand * bool).

(** X22: a call panics, before anything is generated, when it names no
    target at all, a function number which the module does not have, a name
    which is no callable of the module, or a target whose result type is
    not the type expected of the call (unless none is expected). *)
Theorem exprCall_rejects_bad_target
    (exprName funcName : string) (callArgs : list sexp) (expectType : types.T)
    (c : coder) (tr : list mop.t) :
  exprCall mach_ expr exprName [] expectType c tr = Panic (exprName ++ ": too few operands") /\
  match ParseUint10 funcName with
  | Some num =>
      if Z.of_nat (List.length (Functions (module_ c))) <=? num
      then exprCall mach_ expr exprName (Str funcName :: callArgs) expectType c tr = Panic funcName
      else forall f,
             nth_error (Functions (module_ c)) (Z.to_nat num) = Some f ->
             expectType <> types.Void ->
             Result (FuncSignature f) <> expectType ->
             exists e, exprCall mach_ expr exprName (Str funcName :: callArgs) expectType c tr = Panic e
  | None =>
      match lookupString funcName (NamedCallables (module_ c)) with
      | None =>
          exprCall mach_ expr exprName (Str funcName :: callArgs) expectType c tr =
            Panic (exprName ++ ": function not found: " ++ funcName)
      | Some target =>
          forall sig,
            callableSignature (module_ c) target = OK sig ->
            expectType <> types.Void ->
            Result sig <> expectType ->
            exists e, exprCall mach_ expr exprName (Str funcName :: callArgs) expectType c tr = Panic e
      end
  end.
Proof.
  assert (Hneq : forall a b : types.T, a <> b -> types.eqb a b = false)
    by (intros a b; destruct a, b; cbn [types.eqb]; congruence).
  split; [reflexivity|].
  unfold exprCall, bind, get.
  destruct (ParseUint10 funcName) as [num|].
  - destruct (Z.leb_spec (Z.of_nat (List.length (Functions (module_ c)))) num) as [Hge|Hlt].
    + reflexivity.
    + intros f Hf Hv Hr. unfold ret, lift. cbn [callableSignature]. rewrite Hf.
      rewrite (Hneq _ _ Hv), (Hneq _ _ Hr). cbn [negb andb]. eexists. reflexivity.
  - destruct (lookupString funcName (NamedCallables (module_ c))) as [target|]; [|reflexivity].
    intros sig Hs Hv Hr. unfold ret, lift. rewrite Hs.
    rewrite (Hneq _ _ Hv), (Hneq _ _ Hr). cbn [negb andb]. eexists. reflexivity.
Qed.

End CallProperties.
